(** * A shallow embedding of huffman.c

    The program reads a text file, counts its characters in an array of
    [ASIZE] ints, creates one leaf per character that occurs, sorts the
    array of leaf pointers by frequency and then builds the Huffman tree
    in that same array: the two smallest entries are merged, the place of
    the parent is found by binary search and [memmove] closes the gap.
    The encodings are read back from the tree by a recursive search.

    Conventions of the embedding.
    - A [node *] is a value of the inductive type [node]; [NULL] is the
      null pointer.  Nodes are never changed after [createNode], so the
      pointer graph is the tree itself.
    - An array is a list, indexed by [Z].  A read or a write outside the
      allocation and a dereference of [NULL] have no defined behaviour in
      C; the embedding gives them the outcome [Undef].
    - [int] arithmetic that an input can drive out of the 32-bit range is
      written with [wrap_int]; counters that a loop guard keeps inside an
      array are plain [Z].
    - A [while] loop runs on fuel computed from its range; running out of
      fuel is the outcome [OutOfFuel], shown never to happen.
    - [createNode] counts the nodes it allocates in a [world]. *)

From stdpp Require Import base list strings sorting relations pretty.
From Stdlib Require Import ZArith Lia Strings.Ascii Strings.Byte.

Local Open Scope Z_scope.

(** ** Outcomes of a C computation *)

Inductive outcome (A : Type) : Type :=
| Ret (x : A)                       (* normal return *)
| Exit (status : Z) (err : string)  (* exit(status) after writing err to stderr *)
| Undef                             (* undefined behaviour *)
| OutOfFuel.                        (* a loop model ran out of fuel *)
Arguments Ret {A} x.
Arguments Exit {A} status err.
Arguments Undef {A}.
Arguments OutOfFuel {A}.

Definition obind {A B} (f : A → outcome B) (m : outcome A) : outcome B :=
  match m with
  | Ret x => f x
  | Exit s e => Exit s e
  | Undef => Undef
  | OutOfFuel => OutOfFuel
  end.

#[global] Instance outcome_ret : MRet outcome := @Ret.
#[global] Instance outcome_bind : MBind outcome := @obind.

(** ** Constants and machine integers *)

Definition ASIZE : Z := 128.
Definition PNODE : Z := -250.
Definition BITSPERBYTE : Z := 8.
Definition EXIT_FAILURE : Z := 1.
Definition INT_MAX : Z := 2147483647.

(** Two's complement reduction of a mathematical integer to [int]. *)
Definition wrap_int (x : Z) : Z := (x + 2 ^ 31) `mod` 2 ^ 32 - 2 ^ 31.

(** Reduction to [short] and to [unsigned long] (64 bits). *)
Definition wrap_short (x : Z) : Z := (x + 2 ^ 15) `mod` 2 ^ 16 - 2 ^ 15.
Definition wrap_ulong (x : Z) : Z := x `mod` 2 ^ 64.

(** The newline that ends a message, and the character that ends a string. *)
Definition nl : string := String "010"%char "".
Definition NUL : ascii := "000"%char.

(** ** Arrays *)

Definition aget {A} (l : list A) (i : Z) : outcome A :=
  if bool_decide (0 ≤ i) then
    match l !! Z.to_nat i with
    | Some x => Ret x
    | None => Undef
    end
  else Undef.

Definition aset {A} (l : list A) (i : Z) (x : A) : outcome (list A) :=
  if bool_decide (0 ≤ i ∧ i < Z.of_nat (length l)) then Ret (<[Z.to_nat i := x]> l)
  else Undef.

(** [memmove (l + dst, l + src, n * sizeof *l)]: the [n] elements from
    [src] on are copied, as if through a temporary, to [dst] on. *)
Definition memmove {A} (l : list A) (dst src n : Z) : outcome (list A) :=
  if bool_decide (0 ≤ dst ∧ 0 ≤ src ∧ 0 ≤ n ∧
                  dst + n ≤ Z.of_nat (length l) ∧ src + n ≤ Z.of_nat (length l)) then
    Ret (take (Z.to_nat dst) l
         ++ take (Z.to_nat n) (drop (Z.to_nat src) l)
         ++ drop (Z.to_nat (dst + n)) l)
  else Undef.

(** ** Data *)

Inductive node : Type :=
| NULL
| mkNode (freq c : Z) (left right : node).

Record nodeIndex : Type := mkIndex { a : list node; len : Z }.

(** [n->freq], [n->c], [n->left], [n->right] *)
Definition freq_of (n : node) : outcome Z :=
  match n with NULL => Undef | mkNode f _ _ _ => Ret f end.
Definition c_of (n : node) : outcome Z :=
  match n with NULL => Undef | mkNode _ c _ _ => Ret c end.

#[global] Instance node_eq_dec : EqDecision node.
Proof. solve_decision. Defined.

(** ** getInsertionPoint *)

Fixpoint search (fuel : nat) (key : Z) (index : nodeIndex) (start end_ : Z)
  : outcome Z :=
  match fuel with
  | O => OutOfFuel
  | S fuel' =>
    if bool_decide (start ≤ end_) then
      let mid := wrap_int (start + end_) `quot` 2 in
      n ← aget (a index) mid;
      f ← freq_of n;
      if bool_decide (key > f) then search fuel' key index (mid + 1) end_
      else if bool_decide (key < f) then search fuel' key index start (mid - 1)
      else Ret mid
    else Ret (start - 1)
  end.

Definition getInsertionPoint (key : Z) (index : nodeIndex) (start : Z) : outcome Z :=
  let end_ := len index - 1 in
  search (S (Z.to_nat (end_ - start + 1))) key index start end_.

(** ** The world: node allocations *)

Record world : Type := mkWorld { mallocs : nat }.

Definition M (A : Type) : Type := world → outcome A * world.

Definition Mret {A} (x : A) : M A := λ w, (Ret x, w).

Definition Mbind {A B} (f : A → M B) (m : M A) : M B :=
  λ w, match m w with
       | (Ret x, w') => f x w'
       | (Exit s e, w') => (Exit s e, w')
       | (Undef, w') => (Undef, w')
       | (OutOfFuel, w') => (OutOfFuel, w')
       end.

#[global] Instance M_ret : MRet M := @Mret.
#[global] Instance M_bind : MBind M := @Mbind.

Definition lift {A} (o : outcome A) : M A := λ w, (o, w).

Lemma Mbind_Ret {A B} (m : M A) (f : A → M B) w x w' :
  m w = (Ret x, w') → (m ≫= f) w = f x w'.
Proof. intros Hm. unfold mbind, M_bind, Mbind. by rewrite Hm. Qed.

(** [for (i = i0; ...; i++) body], for a loop whose guard allows exactly
    [n] iterations and whose body does not assign [i]. *)
Fixpoint for_loop {m : Type → Type} `{!MBind m, !MRet m} {S : Type}
    (n : nat) (i : Z) (body : Z → S → m S) (s : S) : m S :=
  match n with
  | O => mret s
  | S n' => s' ← body i s; for_loop n' (i + 1) body s'
  end.

(** ** Tree-building functions *)

(** The count of one more character read: [a[c]++]. *)
Definition count_char (a : list Z) (b : byte) : outcome (list Z) :=
  let c := Z.of_N (Byte.to_N b) in
  x ← aget a c;
  aset a c (wrap_int (x + 1)).

Fixpoint count_chars (a : list Z) (bytes : list byte) : outcome (list Z) :=
  match bytes with
  | [] => Ret a
  | b :: bytes' => a' ← count_char a b; count_chars a' bytes'
  end.

(** [file] is what [fopen(argv[1], "r")] gives: [None] when it fails,
    the bytes of the file otherwise. *)
Definition getFreqsFromFile (argc : Z) (file : option (list byte)) (a : list Z)
  : outcome (list Z) :=
  match file with
  | None => Exit 1 ("Error opening file - check name and directory." +:+ nl)
  | Some bytes =>
    if bool_decide (argc ≠ 2) then
      Exit 1 ("Invalid number of arguments supplied." +:+ nl +:+
              "This program only requires an ASCII textfile." +:+ nl)
    else count_chars a bytes
  end.

Definition calcNodeCnt (a : list Z) : outcome Z :=
  cnt ← for_loop (Z.to_nat ASIZE) 0
          (λ i cnt, x ← aget a i;
                    if bool_decide (x ≠ 0) then Ret (cnt + 1) else Ret cnt) 0;
  if bool_decide (cnt < 2) then
    Exit EXIT_FAILURE ("ERROR: too few nodes to build tree" +:+ nl)
  else Ret cnt.

(** [malloc] is taken to succeed; the allocation is counted. *)
Definition createNode (c freq : Z) (left right : node) : M node :=
  λ w, (Ret (mkNode freq c left right), {| mallocs := S (mallocs w) |}).

(** The body of the loop of [createNodeIndex]: the leaf of character [i],
    if it occurs, goes to [na[j]]. *)
Definition indexChar (a : list Z) (i : Z) (s : list node * Z) : M (list node * Z) :=
  let '(na, j) := s in
  x ← lift (aget a i);
  if bool_decide (x ≠ 0) then
    n ← createNode i x NULL NULL;
    na' ← lift (aset na j n);
    mret (na', j + 1)
  else mret (na, j).

(** [calloc] is taken to succeed and gives [len] null pointers. *)
Definition createNodeIndex (a : list Z) (len : Z) : M (list node) :=
  let na := replicate (Z.to_nat len) NULL in
  '(na, _) ← for_loop (Z.to_nat ASIZE) 0 (indexChar a) (na, 0);
  mret na.

Definition nodeComp (n1 n2 : node) : outcome Z :=
  f1 ← freq_of n1;
  f2 ← freq_of n2;
  Ret (wrap_int (f1 - f2)).

(** One iteration of the loop of [populateTree]. *)
Definition mergeStep (start : Z) (index : nodeIndex) : M nodeIndex :=
  let lchild := start in
  let rchild := start + 1 in
  l ← lift (aget (a index) lchild);
  fl ← lift (freq_of l);
  r ← lift (aget (a index) rchild);
  fr ← lift (freq_of r);
  let newfreq := wrap_int (fl + fr) in
  parent ← createNode PNODE newfreq l r;
  pf ← lift (freq_of parent);
  insertpoint ← lift (getInsertionPoint pf index start);
  a1 ← lift (aset (a index) rchild NULL);
  a2 ← lift (aset a1 lchild NULL);
  a3 ← (if bool_decide (insertpoint > start + 1) then
          lift (memmove a2 0 1 insertpoint)
        else mret a2);
  a4 ← lift (aset a3 insertpoint parent);
  mret {| a := a4; len := len index |}.

(** The array is changed in place: the model returns it with the root. *)
Definition populateTree (index : nodeIndex) : M (node * nodeIndex) :=
  index' ← for_loop (Z.to_nat (len index - 1)) 0 mergeStep index;
  root ← lift (aget (a index') (len index' - 1));
  mret (root, index').

(** ** Encoding calculation *)

Fixpoint treeHeight (n : node) : Z :=
  match n with
  | NULL => -1
  | mkNode _ _ l r =>
    let lh := treeHeight l in
    let rh := treeHeight r in
    if bool_decide (lh > rh) then lh + 1 else rh + 1
  end.

Record buffer : Type := mkBuffer { str : list ascii; size : Z }.

Definition createBuffer (size : Z) : buffer :=
  {| str := replicate (Z.to_nat (size + 1)) NUL; size := wrap_short (size + 1) |}.

(** [strlen]: the index of the first NUL; reading past the allocation
    without meeting one is undefined. *)
Fixpoint strlen (s : list ascii) : outcome Z :=
  match s with
  | [] => Undef
  | ch :: s' => if bool_decide (ch = NUL) then Ret 0 else n ← strlen s'; Ret (n + 1)
  end.

(** The body of the loop of [reverseString]: [*a] and [*b] change
    places, [a] goes up and [b] goes down. *)
Definition swapChars (_ : Z) (st : list ascii * Z * Z) : outcome (list ascii * Z * Z) :=
  let '(s, a, b) := st in
  temp ← aget s a;
  xb ← aget s b;
  s ← aset s a xb;
  s ← aset s b temp;
  Ret (s, a + 1, b - 1).

Definition reverseString (s : list ascii) : outcome (list ascii) :=
  n ← strlen s;
  let mid := n `quot` 2 in
  '(s, _, _) ← for_loop (Z.to_nat mid) 0 swapChars (s, 0, n - 1);
  Ret s.

(** What [findEncoding] does to its static counter and to the buffer, in
    the order in which it does it. *)
Inductive event : Type :=
| SetCnt (v : Z)                (* cnt takes the value v *)
| WriteStr (i : Z) (ch : ascii). (* b->str[i] = ch *)

(** The static [cnt], the buffer behind [b], and the events so far (the
    newest first); the events are a record for the proofs and are never
    read by the program. *)
Record enc_state : Type := mkEnc { cnt : Z; buf : buffer; trace : list event }.

Definition set_cnt (v : Z) (s : enc_state) : enc_state :=
  {| cnt := v; buf := buf s; trace := SetCnt v :: trace s |}.

(** [b->str[cnt++] = ch] *)
Definition put_char (ch : ascii) (s : enc_state) : outcome enc_state :=
  let i := cnt s in
  str' ← aset (str (buf s)) i ch;
  Ret {| cnt := i + 1;
         buf := {| str := str'; size := size (buf s) |};
         trace := SetCnt (i + 1) :: WriteStr i ch :: trace s |}.

Fixpoint findEncoding (root : node) (target : Z) (s : enc_state)
  : outcome (node * enc_state) :=
  let n := root in
  let s := if bool_decide (n = root) then set_cnt 0 s else s in
  match n with
  | NULL => Ret (NULL, s)
  | mkNode _ c l r =>
    if bool_decide (c = target) then Ret (n, s)
    else
      '(ln, s) ← findEncoding l target s;
      if bool_decide (ln ≠ NULL) then
        s ← put_char "0" s; Ret (ln, s)
      else
        '(rn, s) ← findEncoding r target s;
        if bool_decide (rn ≠ NULL) then
          s ← put_char "1" s; Ret (rn, s)
        else Ret (NULL, s)
  end.

(** [memset (s, '\0', n)] *)
Definition memset0 (s : list ascii) (n : Z) : outcome (list ascii) :=
  if bool_decide (0 ≤ n ∧ n ≤ Z.of_nat (length s)) then
    Ret (replicate (Z.to_nat n) NUL ++ drop (Z.to_nat n) s)
  else Undef.

(** The characters of a string up to its NUL. *)
Fixpoint cstring (s : list ascii) : list ascii :=
  match s with
  | [] => []
  | ch :: s' => if bool_decide (ch = NUL) then [] else ch :: cstring s'
  end.

(** One line of the report: the arguments of the [fprintf] in the loop
    of [printHuffman] (the format string only lays them out). *)
Record line : Type :=
  mkLine { l_c : Z; l_str : list ascii; l_strlen : Z; l_freq : Z }.

Record report : Type :=
  mkReport { r_enc : enc_state; r_bits : Z; r_lines : list line }.

Definition printSymbol (a : list Z) (root : node) (i : Z) (r : report)
  : outcome report :=
  x ← aget a i;
  if bool_decide (x ≠ 0) then
    '(n, e) ← findEncoding root i (r_enc r);
    s ← reverseString (str (buf e));
    c ← c_of n;
    f ← freq_of n;
    k ← strlen s;
    let bits := wrap_ulong (r_bits r + wrap_ulong (k * wrap_ulong f)) in
    s' ← memset0 s k;
    Ret {| r_enc := {| cnt := cnt e;
                       buf := {| str := s'; size := size (buf e) |};
                       trace := trace e |};
           r_bits := bits;
           r_lines := r_lines r ++ [mkLine c (cstring s) k f] |}
  else Ret r.

(** The report and the number of bytes printed at its end. *)
Definition printHuffman (a : list Z) (root : node) : outcome (list line * Z) :=
  let b := createBuffer (treeHeight root) in
  r ← for_loop (Z.to_nat ASIZE) 0 (printSymbol a root)
        {| r_enc := {| cnt := 0; buf := b; trace := [] |};
           r_bits := 0; r_lines := [] |};
  let bits := r_bits r in
  Ret (r_lines r,
       bits `quot` BITSPERBYTE + (if bool_decide (bits `rem` BITSPERBYTE ≠ 0) then 1 else 0)).

(** ** Format strings and release of the tree *)

Definition FORMATSTRLEN : Z := 128.

(** [isprint] in the C locale; its argument has to be a value of
    [unsigned char] or [EOF]. *)
Definition isprint (c : Z) : outcome bool :=
  if bool_decide (-1 ≤ c ≤ 255) then Ret (bool_decide (32 ≤ c ≤ 126)) else Undef.

(** What [sprintf] and [strcat] leave in [formatstr], an array of
    [FORMATSTRLEN] characters: the string and its NUL have to fit.
    [%d] prints its argument in decimal. *)
Definition into_formatstr (s : string) : outcome string :=
  if bool_decide (Z.of_nat (String.length s) + 1 ≤ FORMATSTRLEN) then Ret s else Undef.

Definition setFormatString (n : node) (b : buffer) : outcome string :=
  c ← c_of n;
  printable ← isprint c;
  formatstr ← (if negb printable then
                 into_formatstr ("%03d :%" +:+ pretty (size b) +:+ "s")
               else
                 into_formatstr ("'%c' :%" +:+ pretty (size b) +:+ "s"));
  into_formatstr (formatstr +:+ " (%3lu * %4d)" +:+ nl).

(** The calls of [free] that [freeNodes] makes, in their order. *)
Fixpoint freeNodes (n : node) : list node :=
  match n with
  | NULL => []
  | mkNode _ _ l r => freeNodes l ++ freeNodes r ++ [n]
  end.

(** ** main *)

Section Main.

(** [qsort] belongs to the C library: [main] is given it.  The model
    ends with the report; the array and the tree are freed afterwards,
    which nothing observes. *)
Variable qsort : list node → Z → (node → node → outcome Z) → outcome (list node).

Definition main (argc : Z) (file : option (list byte)) : M (list line * Z) :=
  ascii ← lift (getFreqsFromFile argc file (replicate (Z.to_nat ASIZE) 0));
  len ← lift (calcNodeCnt ascii);
  na ← createNodeIndex ascii len;
  na' ← lift (qsort na len nodeComp);
  '(root, _) ← populateTree {| a := na'; len := len |};
  lift (printHuffman ascii root).

End Main.

(** * Specification *)

(** ** Outcomes *)

(** A computation that returns or is undefined: it does not call [exit]
    and its loops are within their fuel. *)
Definition no_exit {A} (o : outcome A) : Prop :=
  match o with Ret _ | Undef => True | _ => False end.

(** ** Frequencies and frontiers *)

(** The frequency of a node that is known not to be [NULL]. *)
Definition nfreq (n : node) : Z :=
  match n with NULL => 0 | mkNode f _ _ _ => f end.

(** The frequency at index [i] of the array. *)
Definition freq_at (index : nodeIndex) (i : Z) : Z :=
  match a index !! Z.to_nat i with Some n => nfreq n | None => 0 end.

(** The entries [s0 .. e0] are nodes, in ascending order of frequency. *)
Record sorted_between (index : nodeIndex) (s0 e0 : Z) : Prop := {
  sb_lo : 0 ≤ s0;
  sb_hi : e0 < Z.of_nat (length (a index));
  sb_small : e0 + e0 ≤ INT_MAX;
  sb_node : ∀ i, s0 ≤ i ≤ e0 → ∃ n, a index !! Z.to_nat i = Some n ∧ n ≠ NULL;
  sb_le : ∀ i j, s0 ≤ i → i ≤ j → j ≤ e0 → freq_at index i ≤ freq_at index j
}.

(** The order of the array: by frequency. *)
Definition freq_le (x y : node) : Prop := nfreq x ≤ nfreq y.

#[global] Instance freq_le_dec x y : Decision (freq_le x y).
Proof. unfold freq_le. apply _. Defined.
#[global] Instance freq_le_trans : Transitive freq_le.
Proof. unfold freq_le. intros x y z. lia. Qed.
#[global] Instance freq_le_refl : Reflexive freq_le.
Proof. unfold freq_le. intros x. lia. Qed.
#[global] Instance freq_le_total : Total freq_le.
Proof. unfold freq_le. intros x y. lia. Qed.

(** An entry of the array that is not vacant. *)
Definition is_node (n : node) : Prop := n ≠ NULL.

(** ** Merge steps *)

(** The parent that [populateTree] creates for two nodes, when their
    frequencies add up within an [int]. *)
Definition parent_of (x y : node) : node := mkNode (nfreq x + nfreq y) PNODE x y.

(** The world after one more node. *)
Definition bump (w : world) : world := {| mallocs := S (mallocs w) |}.

(** The entries before [start] after the step: the [memmove] moves them
    too, down by one, when it happens. *)
Definition vacated (pre : list node) (shifted : bool) : list node :=
  if shifted then tail (pre ++ [NULL; NULL]) else pre ++ [NULL].

(** The sum of the frequencies of a list of nodes. *)
Definition total (l : list node) : Z := foldr (λ n s, nfreq n + s) 0 l.

(** A frontier: nodes of positive frequency, in ascending order, whose
    frequencies add up within an [int]. *)
Record frontier (live : list node) : Prop := {
  fr_node : Forall is_node live;
  fr_pos : Forall (λ n, 0 < nfreq n) live;
  fr_sorted : StronglySorted freq_le live;
  fr_total : total live ≤ INT_MAX
}.

#[global] Instance is_node_dec n : Decision (is_node n).
Proof. unfold is_node. apply _. Defined.

#[global] Instance frontier_dec live : Decision (frontier live).
Proof.
  destruct (decide (Forall is_node live)); [|right; by intros []].
  destruct (decide (Forall (λ n, 0 < nfreq n) live)); [|right; by intros []].
  destruct (decide (StronglySorted freq_le live)); [|right; by intros []].
  destruct (decide (total live ≤ INT_MAX)); [|right; by intros []].
  left. by split.
Defined.

(** What one merge step does to a frontier: the two first nodes leave
    and their parent enters between the nodes below and above it. *)
Inductive merge : list node → list node → Prop :=
| merge_intro x y l1 l2 :
    Forall (λ n, nfreq n ≤ nfreq x + nfreq y) l1 →
    Forall (λ n, nfreq x + nfreq y ≤ nfreq n) l2 →
    merge (x :: y :: l1 ++ l2) (l1 ++ parent_of x y :: l2).

(** The array after the first [k] iterations of the loop of
    [populateTree]. *)
Definition after_merges (k : nat) (index : nodeIndex) : M nodeIndex :=
  for_loop k 0 mergeStep index.

(** The entries of the array that are still to be merged after [k]
    iterations: those at the indices [k .. len - 1]. *)
Definition live_range (k : nat) (index : nodeIndex) : list node :=
  take (Z.to_nat (len index) - k) (drop k (a index)).

(** ** The frequency table *)

(** The sum of the counts: the length of the text. *)
Definition sumZ (l : list Z) : Z := foldr Z.add 0 l.

(** The number of characters that occur. *)
Definition symbolCount (a : list Z) : Z :=
  Z.of_nat (length (filter (λ x, x ≠ 0) a)).

(** The leaves of the characters that occur, in the order of the table;
    [i] is the character of the first entry of [l]. *)
Fixpoint leaves_from (i : Z) (l : list Z) : list node :=
  match l with
  | [] => []
  | x :: l' =>
    if bool_decide (x ≠ 0) then mkNode x i NULL NULL :: leaves_from (i + 1) l'
    else leaves_from (i + 1) l'
  end.

(** The array that [createNodeIndex] fills for a table. *)
Definition table_leaves (a : list Z) : list node := leaves_from 0 a.

(** A valid table: one count per character, none negative, at least two
    characters, and a text short enough for its length to be an [int]. *)
Record valid_table (a : list Z) : Prop := {
  vt_size : Z.of_nat (length a) = ASIZE;
  vt_counts : Forall (λ x, 0 ≤ x) a;
  vt_total : sumZ a ≤ INT_MAX;
  vt_symbols : 2 ≤ symbolCount a
}.

#[global] Instance valid_table_dec a : Decision (valid_table a).
Proof.
  destruct (decide (Z.of_nat (length a) = ASIZE)); [|right; by intros []].
  destruct (decide (Forall (λ x, 0 ≤ x) a)); [|right; by intros []].
  destruct (decide (sumZ a ≤ INT_MAX)); [|right; by intros []].
  destruct (decide (2 ≤ symbolCount a)); [|right; by intros []].
  left. by split.
Defined.

(** ** Trees, paths and encodings *)

(** The character and count of each leaf of a tree, from left to right. *)
Fixpoint leaves (n : node) : list (Z * Z) :=
  match n with
  | NULL => []
  | mkNode f c l r =>
    match l, r with
    | NULL, NULL => [(c, f)]
    | _, _ => leaves l ++ leaves r
    end
  end.

(** The leaves of all the trees of a frontier. *)
Definition leaves_of (live : list node) : list (Z * Z) :=
  foldr (λ n acc, leaves n ++ acc) [] live.

(** All the nodes of a tree, and the number of children of a node. *)
Fixpoint nodes (n : node) : list node :=
  match n with
  | NULL => []
  | mkNode _ _ l r => n :: nodes l ++ nodes r
  end.

Definition children (n : node) : nat :=
  match n with
  | NULL => 0
  | mkNode _ _ l r =>
    (if bool_decide (l = NULL) then 0 else 1) + (if bool_decide (r = NULL) then 0 else 1)
  end.

(** The trees that the program builds: a leaf carries a character and
    its count, a parent carries [PNODE], two subtrees and the sum of
    their frequencies. *)
Inductive htree : node → Prop :=
| htree_leaf f c : 0 ≤ c < ASIZE → 0 < f → htree (mkNode f c NULL NULL)
| htree_parent l r : htree l → htree r → htree (parent_of l r).

(** [path_to root p m]: from [root], the descents [p] ([false] to the
    left, [true] to the right) lead to the node [m]. *)
Inductive path_to : node → list bool → node → Prop :=
| path_here n : n ≠ NULL → path_to n [] n
| path_left f c l r p m : path_to l p m → path_to (mkNode f c l r) (false :: p) m
| path_right f c l r p m : path_to r p m → path_to (mkNode f c l r) (true :: p) m.

(** The character that [findEncoding] writes for a descent. *)
Definition bit (b : bool) : ascii := if b then "1"%char else "0"%char.

(** The search of [findEncoding] with the path as a value: the first
    node, in preorder, that carries the target. *)
Fixpoint find_path (n : node) (target : Z) : option (list bool * node) :=
  match n with
  | NULL => None
  | mkNode _ c l r =>
    if bool_decide (c = target) then Some ([], n)
    else match find_path l target with
         | Some (p, m) => Some (false :: p, m)
         | None =>
           match find_path r target with
           | Some (p, m) => Some (true :: p, m)
           | None => None
           end
         end
  end.

(** What [main] hands to [populateTree] for the table [tab]: the leaves
    that [createNodeIndex] made, in an order that [qsort] may leave them
    in, and their number.  [w0] is the world before the leaves are made
    and [w] the world after. *)
Definition sorted_index (tab : list Z) (w0 : world) (index : nodeIndex) (w : world)
  : Prop :=
  ∃ na, calcNodeCnt tab = Ret (len index) ∧
        createNodeIndex tab (len index) w0 = (Ret na, w) ∧
        a index ≡ₚ na ∧
        StronglySorted freq_le (a index).

(** A string without the character NUL. *)
Definition no_nul (w : list ascii) : Prop := Forall (λ ch, ch ≠ NUL) w.

(** An event of a search for a leaf at depth [d] is within bounds: the
    counter is from 0 to [d], a write is below [d]. *)
Definition event_within (d : Z) (e : event) : Prop :=
  match e with
  | SetCnt v => 0 ≤ v ≤ d
  | WriteStr i _ => 0 ≤ i < d
  end.

(** The characters that occur, with their counts, in the order of the
    table; [i] is the character of the first entry of [l]. *)
Fixpoint entries_from (i : Z) (l : list Z) : list (Z * Z) :=
  match l with
  | [] => []
  | x :: l' =>
    if bool_decide (x ≠ 0) then (i, x) :: entries_from (i + 1) l'
    else entries_from (i + 1) l'
  end.

(** The mapping from characters to counts that a table stands for. *)
Definition table_entries (tab : list Z) : list (Z * Z) := entries_from 0 tab.

(** The line of the report for a character and its count, in a tree. *)
Definition line_of (root : node) (l : line) (entry : Z * Z) : Prop :=
  ∃ p, path_to root p (mkNode entry.2 entry.1 NULL NULL) ∧
       l = mkLine entry.1 (bit <$> p) (Z.of_nat (length p)) entry.2.

(** ** Files and the whole program *)

(** What [fgetc] returns for a byte: its value as an [int]. *)
Definition char_of (b : byte) : Z := Z.of_N (Byte.to_N b).

(** The number of times the character [c] occurs in [bytes]. *)
Definition count_in (bytes : list byte) (c : Z) : Z :=
  Z.of_nat (length (filter (λ b, char_of b = c) bytes)).

(** What [main] needs of [qsort] with [nodeComp]: a sorted permutation of
    an array of nodes. *)
Definition sorts_nodes
    (qsort : list node → Z → (node → node → outcome Z) → outcome (list node)) : Prop :=
  ∀ l n, Forall is_node l →
    ∃ l', qsort l n nodeComp = Ret l' ∧ l' ≡ₚ l ∧ StronglySorted freq_le l'.

(** What the C standard promises of [qsort]: when the comparison is
    defined on the elements of the array and its sign follows a total
    preorder [le], the array of [n] elements is left as a permutation of
    itself, in ascending order. *)
Definition qsort_sorts
    (qsort : list node → Z → (node → node → outcome Z) → outcome (list node)) : Prop :=
  ∀ l n cmp (le : relation node),
    n = Z.of_nat (length l) →
    Transitive le → Total le →
    (∀ x y, x ∈ l → y ∈ l →
       ∃ d, cmp x y = Ret d ∧ (d ≤ 0 ↔ le x y) ∧ (0 ≤ d ↔ le y x)) →
    ∃ l', qsort l n cmp = Ret l' ∧ l' ≡ₚ l ∧ StronglySorted le l'.

(** ** The range that getInsertionPoint searches *)

(** The entries that [getInsertionPoint] searches. *)
Definition searched (index : nodeIndex) (start : Z) : list node :=
  drop (Z.to_nat start) (a index).

(** The lower bound of the key: the index of the first searched entry
    that is not below it. *)
Definition low (key : Z) (index : nodeIndex) (start : Z) : Z :=
  start + Z.of_nat (length (filter (λ n, nfreq n < key) (searched index start))).

(** A node of frequency [key] belongs at [p]: the searched entries up to
    [p] are at most [key] and those after [p] are at least [key], so that
    the range stays sorted when the entries up to [p] move down by one
    and the node is written at [p]. *)
Definition belongs_at (key : Z) (index : nodeIndex) (start p : Z) : Prop :=
  start ≤ p ≤ len index - 1 ∧
  Forall (λ n, nfreq n ≤ key) (take (Z.to_nat (p + 1 - start)) (searched index start)) ∧
  Forall (λ n, key ≤ nfreq n) (drop (Z.to_nat (p + 1 - start)) (searched index start)).

(** ** The length of the encoded text *)

(** The leaves of a tree, from left to right, each with its depth; the
    tree itself is at depth [d]. *)
Fixpoint depths (d : nat) (n : node) : list (nat * (Z * Z)) :=
  match n with
  | NULL => []
  | mkNode f c l r =>
    match l, r with
    | NULL, NULL => [(d, (c, f))]
    | _, _ => depths (S d) l ++ depths (S d) r
    end
  end.

(** The bits of a list of leaves with their depths: each character
    takes as many bits as its leaf is deep, each time it occurs. *)
Definition bits_of (ds : list (nat * (Z * Z))) : Z :=
  sumZ ((λ e, Z.of_nat e.1 * e.2.2) <$> ds).

(** The number of bits of the text in the code of a tree. *)
Definition cost (n : node) : Z := bits_of (depths 0 n).

(** The bits that the lines of a report stand for. *)
Definition line_bits (lines : list line) : Z :=
  sumZ ((λ l, l_strlen l * l_freq l) <$> lines).

(** A tree of a code: every node has two children or none. *)
Inductive code_tree : node → Prop :=
| code_leaf f c : code_tree (mkNode f c NULL NULL)
| code_parent f c l r : code_tree l → code_tree r → code_tree (mkNode f c l r).

(** Kraft's sum of a list of depths, [2 ^ - d] for each depth [d], in
    units of [2 ^ - H]. *)
Definition kraft (H : nat) (ds : list nat) : Z :=
  sumZ ((λ d, 2 ^ Z.of_nat (H - d)) <$> ds).

(** The depths of a complete code: Kraft's sum is 1. *)
Definition complete (ds : list nat) : Prop :=
  ∀ H, Forall (λ d, (d ≤ H)%nat) ds → kraft H ds = 2 ^ Z.of_nat H.

(** The bits of a text whose characters have the given depths and
    counts. *)
Definition wcost (P : list (nat * Z)) : Z :=
  sumZ ((λ e, Z.of_nat e.1 * e.2) <$> P).

(** ** Examples *)

(** The table of a text with the characters A to F, 5, 9, 12, 13, 16 and
    45 times, and the array that [main] builds for it. *)
Definition example_table : list Z :=
  <[65%nat := 5]> (<[66%nat := 9]> (<[67%nat := 12]> (<[68%nat := 13]>
    (<[69%nat := 16]> (<[70%nat := 45]> (replicate 128 0)))))).

(** The leaves of [example_table]: they are sorted as they are. *)
Definition example_index : nodeIndex :=
  mkIndex [mkNode 5 65 NULL NULL; mkNode 9 66 NULL NULL; mkNode 12 67 NULL NULL;
           mkNode 13 68 NULL NULL; mkNode 16 69 NULL NULL; mkNode 45 70 NULL NULL] 6.

(** A sorted array of five leaves in which the sum of the two smallest
    frequencies occurs three times. *)
Definition tie_index : nodeIndex :=
  mkIndex [mkNode 2 97 NULL NULL; mkNode 3 98 NULL NULL; mkNode 5 99 NULL NULL;
           mkNode 5 100 NULL NULL; mkNode 5 101 NULL NULL] 5.

(** The table of [tie_index], and its leaves in another order that
    [qsort] may leave them in. *)
Definition tie_table : list Z :=
  <[97%nat := 2]> (<[98%nat := 3]> (<[99%nat := 5]> (<[100%nat := 5]>
    (<[101%nat := 5]> (replicate 128 0))))).

Definition tie_index_swapped : nodeIndex :=
  mkIndex [mkNode 2 97 NULL NULL; mkNode 3 98 NULL NULL; mkNode 5 101 NULL NULL;
           mkNode 5 100 NULL NULL; mkNode 5 99 NULL NULL] 5.

(** A file with the one character A, twice, and its table. *)
Definition single_file : list byte := [x41; x41].
Definition single_table : list Z := <[65%nat := 2]> (replicate 128 0).

(** A text in Latin-1 with the two characters A (65) and e acute (233),
    and the table of 256 counts that a mapping over all byte values
    would be. *)
Definition latin1_file : list byte := [x41; xe9].

Definition wide_table : list Z :=
  <[65%nat := 1]> (<[233%nat := 1]> (replicate 256 0)).

(** The same with the character B (66) as well. *)
Definition wide_table3 : list Z := <[66%nat := 1]> wide_table.

(** A sort by insertion that compares with [cmp], as an instance of
    [qsort]. *)
Fixpoint insert_by (cmp : node → node → outcome Z) (x : node) (l : list node)
  : outcome (list node) :=
  match l with
  | [] => Ret [x]
  | y :: l' =>
    d ← cmp x y;
    if bool_decide (d ≤ 0) then Ret (x :: y :: l')
    else l'' ← insert_by cmp x l'; Ret (y :: l'')
  end.

Fixpoint sort_by (cmp : node → node → outcome Z) (l : list node)
  : outcome (list node) :=
  match l with
  | [] => Ret []
  | x :: l' => s ← sort_by cmp l'; insert_by cmp x s
  end.

Definition insertion_qsort (l : list node) (n : Z) (cmp : node → node → outcome Z)
  : outcome (list node) :=
  sort_by cmp l.

(** * Properties *)

(** ** Integers and arrays *)

Lemma wrap_int_small x : - 2 ^ 31 ≤ x ≤ INT_MAX → wrap_int x = x.
Proof.
  unfold wrap_int, INT_MAX. intros Hx.
  rewrite Z.mod_small; lia.
Qed.

Lemma aget_Some {A} (l : list A) i x :
  0 ≤ i → l !! Z.to_nat i = Some x → aget l i = Ret x.
Proof.
  intros Hi Hl. unfold aget.
  rewrite bool_decide_eq_true_2 by done. by rewrite Hl.
Qed.

Lemma aget_nat {A} (l : list A) (k : nat) x :
  l !! k = Some x → aget l (Z.of_nat k) = Ret x.
Proof. intros Hl. apply aget_Some; [lia|]. by rewrite Nat2Z.id. Qed.

Lemma aget_Ret {A} (l : list A) i x :
  aget l i = Ret x → 0 ≤ i < Z.of_nat (length l) ∧ l !! Z.to_nat i = Some x.
Proof.
  unfold aget. case_bool_decide; [|done].
  destruct (l !! Z.to_nat i) eqn:E; [|done].
  intros [= ->]. apply lookup_lt_Some in E as Hlt. split; [lia|done].
Qed.

Lemma aset_nat {A} (l : list A) (k : nat) x :
  (k < length l)%nat → aset l (Z.of_nat k) x = Ret (<[k := x]> l).
Proof.
  intros Hk. unfold aset.
  rewrite bool_decide_eq_true_2 by lia. by rewrite Nat2Z.id.
Qed.

Lemma aset_Ret {A} (l l' : list A) i x :
  aset l i x = Ret l' → 0 ≤ i < Z.of_nat (length l) ∧ l' = <[Z.to_nat i := x]> l.
Proof. unfold aset. case_bool_decide; [|done]. by intros [= <-]. Qed.

(** ** Frequencies in a frontier *)

Lemma freq_of_nfreq n : n ≠ NULL → freq_of n = Ret (nfreq n).
Proof. by destruct n. Qed.

(** The loop of [getInsertionPoint]: it ends, within its fuel, on a
    matching entry or on the last entry below the key. *)
Lemma search_sorted index key s0 e0 :
  sorted_between index s0 e0 →
  ∀ fuel s e,
    s0 ≤ s → e ≤ e0 → s ≤ e + 1 → (Z.to_nat (e - s + 1) < fuel)%nat →
    (∀ i, s0 ≤ i < s → freq_at index i < key) →
    (∀ i, e < i ≤ e0 → key < freq_at index i) →
    ∃ ip, search fuel key index s e = Ret ip ∧ s - 1 ≤ ip ≤ e ∧
      ((s ≤ ip ∧ freq_at index ip = key) ∨
       ((∀ i, s0 ≤ i ≤ ip → freq_at index i < key) ∧
        (∀ i, ip < i ≤ e0 → key < freq_at index i))).
Proof.
  intros [Hlo Hhi Hsmall Hnode Hle].
  induction fuel as [|fuel IH]; intros s e Hs He Hse Hfuel Hlt Hgt; [lia|].
  simpl. case_bool_decide as Hcmp.
  - assert (Hw : wrap_int (s + e) = s + e).
    { apply wrap_int_small. unfold INT_MAX in *. lia. }
    rewrite Hw.
    set (mid := (s + e) `quot` 2).
    assert (Hmid : s ≤ mid ≤ e).
    { unfold mid. rewrite Z.quot_div_nonneg by lia.
      split; [apply Z.div_le_lower_bound|apply Z.div_le_upper_bound]; lia. }
    destruct (Hnode mid) as (n & Hn & Hnn); [lia|].
    rewrite (aget_Some _ _ n) by (done || lia). simpl.
    rewrite freq_of_nfreq by done. simpl.
    assert (Hf : freq_at index mid = nfreq n) by (unfold freq_at; by rewrite Hn).
    case_bool_decide as Hk1; [|case_bool_decide as Hk2].
    + destruct (IH (mid + 1) e) as (ip & Hr & Hip & Hcase); try lia.
      { intros i Hi. specialize (Hle i mid). lia. }
      { done. }
      exists ip. split; [done|]. split; [lia|].
      destruct Hcase as [[? ?]|?]; [left; split; [lia|done]|by right].
    + destruct (IH s (mid - 1)) as (ip & Hr & Hip & Hcase); try lia.
      { done. }
      { intros i Hi. specialize (Hle mid i). lia. }
      exists ip. split; [done|]. split; [lia|].
      destruct Hcase as [[? ?]|?]; [left; split; [lia|done]|by right].
    + exists mid. split; [done|]. split; [lia|]. left. split; [lia|]. lia.
  - exists (s - 1). split; [done|]. split; [lia|]. right. split.
    + intros i Hi. apply Hlt. lia.
    + intros i Hi. apply Hgt. lia.
Qed.

Lemma StronglySorted_lookup {A} (R : relation A) `{!Reflexive R} l i j x y :
  StronglySorted R l → (i ≤ j)%nat → l !! i = Some x → l !! j = Some y → R x y.
Proof.
  intros Hs. revert i j. induction Hs as [|z l Hs IH Hz]; intros i j Hij Hi Hj.
  - by rewrite lookup_nil in Hi.
  - destruct i as [|i], j as [|j]; simpl in *; try lia.
    + by simplify_eq.
    + simplify_eq. eapply Forall_lookup_1; eauto.
    + eapply (IH i j); eauto. lia.
Qed.

Lemma freq_at_app pre live n (i : nat) x :
  live !! i = Some x →
  freq_at (mkIndex (pre ++ live) n) (Z.of_nat (length pre + i)) = nfreq x.
Proof.
  intros Hl. unfold freq_at. simpl.
  rewrite Nat2Z.id, lookup_app_r by lia.
  replace (length pre + i - length pre)%nat with i by lia. by rewrite Hl.
Qed.

Lemma sorted_between_app pre live :
  Forall is_node live → StronglySorted freq_le live →
  Z.of_nat (length (pre ++ live)) ≤ 2 ^ 30 →
  sorted_between (mkIndex (pre ++ live) (Z.of_nat (length (pre ++ live))))
    (Z.of_nat (length pre)) (Z.of_nat (length (pre ++ live)) - 1).
Proof.
  intros Hn Hs Hlen. rewrite length_app in *.
  split; simpl; rewrite ?length_app; unfold INT_MAX; try lia.
  - intros i Hi.
    destruct (lookup_lt_is_Some_2 live (Z.to_nat i - length pre)) as [n Hl]; [lia|].
    exists n. split.
    + rewrite lookup_app_r by lia. done.
    + eapply Forall_lookup_1 in Hn; eauto.
  - intros i j Hi Hij Hj.
    destruct (lookup_lt_is_Some_2 live (Z.to_nat i - length pre)) as [x Hx]; [lia|].
    destruct (lookup_lt_is_Some_2 live (Z.to_nat j - length pre)) as [y Hy]; [lia|].
    replace i with (Z.of_nat (length pre + (Z.to_nat i - length pre))) by lia.
    replace j with (Z.of_nat (length pre + (Z.to_nat j - length pre))) by lia.
    rewrite (freq_at_app _ _ _ _ x), (freq_at_app _ _ _ _ y) by done.
    apply (StronglySorted_lookup freq_le live (Z.to_nat i - length pre)
             (Z.to_nat j - length pre) x y Hs); [lia|done|done].
Qed.

(** [getInsertionPoint] on an array whose entries from [start] on are a
    frontier: the result cuts the frontier in two, just after an entry
    equal to the key, or else between the entries below and above it. *)
Lemma getInsertionPoint_split pre live key :
  Forall is_node live → StronglySorted freq_le live →
  Z.of_nat (length (pre ++ live)) ≤ 2 ^ 30 →
  ∃ l1 l2, live = l1 ++ l2 ∧
    getInsertionPoint key
      (mkIndex (pre ++ live) (Z.of_nat (length (pre ++ live))))
      (Z.of_nat (length pre))
    = Ret (Z.of_nat (length pre) + Z.of_nat (length l1) - 1) ∧
    ((∃ l1' m, l1 = l1' ++ [m] ∧ nfreq m = key) ∨
     (Forall (λ n, nfreq n < key) l1 ∧ Forall (λ n, key < nfreq n) l2)).
Proof.
  intros Hn Hs Hlen.
  pose proof (sorted_between_app pre live Hn Hs Hlen) as Hsb.
  set (index := mkIndex _ _) in *.
  set (s0 := Z.of_nat (length pre)) in *.
  set (e0 := Z.of_nat (length (pre ++ live)) - 1) in *.
  assert (He0 : e0 = s0 + Z.of_nat (length live) - 1).
  { unfold e0, s0. rewrite length_app. lia. }
  destruct (search_sorted index key s0 e0 Hsb
              (S (Z.to_nat (e0 - s0 + 1))) s0 e0)
    as (ip & Hr & Hip & Hcase); try lia.
  exists (take (Z.to_nat (ip - s0 + 1)) live), (drop (Z.to_nat (ip - s0 + 1)) live).
  split; [by rewrite take_drop|]. split.
  { transitivity (Ret (A := Z) ip); [exact Hr|]. f_equal.
    rewrite length_take. lia. }
  destruct Hcase as [[Hle Heq]|[Hlt Hgt]].
  - left.
    destruct (lookup_lt_is_Some_2 live (Z.to_nat (ip - s0))) as [m Hm]; [lia|].
    exists (take (Z.to_nat (ip - s0)) live), m. split.
    + replace (Z.to_nat (ip - s0 + 1)) with (S (Z.to_nat (ip - s0))) by lia.
      by apply take_S_r.
    + rewrite <- Heq.
      replace ip with (Z.of_nat (length pre + Z.to_nat (ip - s0))) by lia.
      symmetry. by apply freq_at_app.
  - right. split; apply Forall_lookup_2; intros i x Hx.
    + apply lookup_take_Some in Hx as [Hx Hi].
      rewrite <- (freq_at_app pre live (len index) i x Hx).
      apply Hlt. lia.
    + rewrite lookup_drop in Hx. apply lookup_lt_Some in Hx as Hi.
      rewrite <- (freq_at_app pre live (len index) _ x Hx).
      apply Hgt. lia.
Qed.

(** ** One merge step *)

Lemma memmove_shift {A} (h : A) (m : list A) (z : A) (t : list A) :
  memmove (h :: m ++ z :: t) 0 1 (Z.of_nat (length m) + 1) = Ret (m ++ z :: z :: t).
Proof.
  unfold memmove. rewrite bool_decide_eq_true_2.
  2: { simpl. rewrite length_app. simpl. lia. }
  f_equal. simpl.
  replace (Z.to_nat (Z.of_nat (length m) + 1)) with (S (length m)) by lia.
  replace (Z.to_nat (0 + (Z.of_nat (length m) + 1))) with (S (length m)) by lia.
  simpl. rewrite drop_app_length.
  replace (S (length m)) with (length (m ++ [z])) by (rewrite length_app; simpl; lia).
  rewrite (cons_middle z m t), (app_assoc m [z] t).
  rewrite drop_0, take_app_length. by rewrite <- !app_assoc.
Qed.

Lemma aset_middle {A} (m : list A) (z x : A) (t : list A) :
  aset (m ++ z :: t) (Z.of_nat (length m)) x = Ret (m ++ x :: t).
Proof.
  rewrite aset_nat by (rewrite length_app; simpl; lia).
  f_equal. replace (length m) with (length m + 0)%nat at 1 by lia.
  by rewrite insert_app_r.
Qed.

Lemma aget_middle {A} (m : list A) (z : A) (t : list A) :
  aget (m ++ z :: t) (Z.of_nat (length m)) = Ret z.
Proof.
  apply aget_nat. rewrite lookup_app_r by lia.
  by replace (length m - length m)%nat with 0%nat by lia.
Qed.

(** The two smallest entries of a frontier of positive frequencies lie
    before the insertion point of their sum. *)
Lemma split_after_children x y rest l1 l2 key :
  x :: y :: rest = l1 ++ l2 →
  nfreq x < key → nfreq y < key →
  Forall (λ n, key ≤ nfreq n) l2 →
  ∃ l1', l1 = x :: y :: l1' ∧ rest = l1' ++ l2.
Proof.
  intros Heq Hx Hy Hl2.
  destruct l1 as [|x' [|y' l1']]; simpl in *; simplify_eq.
  - apply Forall_cons in Hl2 as [? _]. lia.
  - apply Forall_cons in Hl2 as [? _]. lia.
  - by exists l1'.
Qed.

Lemma split_bounds (live l1 l2 : list node) key :
  StronglySorted freq_le live → live = l1 ++ l2 →
  (∃ l1' m, l1 = l1' ++ [m] ∧ nfreq m = key) ∨
  (Forall (λ n, nfreq n < key) l1 ∧ Forall (λ n, key < nfreq n) l2) →
  Forall (λ n, nfreq n ≤ key) l1 ∧ Forall (λ n, key ≤ nfreq n) l2.
Proof.
  intros Hs -> [(l1' & m & -> & Hm)|[H1 H2]].
  - rewrite <- app_assoc in Hs. simpl in Hs.
    apply StronglySorted_app in Hs as (Hall & _ & Hs).
    apply StronglySorted_cons in Hs as [Hm2 _].
    split.
    + apply Forall_app. split.
      * apply Forall_forall. intros n Hn.
        specialize (Hall n m Hn). unfold freq_le in Hall.
        rewrite <- Hm. apply Hall. apply list_elem_of_here.
      * apply Forall_singleton. lia.
    + eapply Forall_impl; [exact Hm2|]. unfold freq_le. intros; lia.
  - split; (eapply Forall_impl; [eassumption|]); simpl; intros; lia.
Qed.

Lemma vacated_length pre shifted : length (vacated pre shifted) = S (length pre).
Proof.
  unfold vacated. destruct shifted.
  - rewrite length_tl, length_app. simpl. lia.
  - rewrite length_app. simpl. lia.
Qed.

Lemma vacated_replicate k shifted :
  vacated (replicate k NULL) shifted = replicate (S k) NULL.
Proof.
  unfold vacated. destruct shifted.
  - change [NULL; NULL] with (replicate 2 NULL).
    rewrite <- replicate_add. by replace (k + 2)%nat with (S (S k)) by lia.
  - by rewrite replicate_S_end.
Qed.

(** Where the parent is written, without and with the [memmove]. *)
Lemma place_parent_first (pre l2 : list node) p :
  aset (pre ++ NULL :: NULL :: [] ++ l2) (Z.of_nat (length pre + 1 + length (@nil node))) p
  = Ret (vacated pre false ++ [] ++ p :: l2).
Proof.
  unfold vacated. rewrite !app_nil_l.
  replace (Z.of_nat (length pre + 1 + length (@nil node))) with
    (Z.of_nat (length (pre ++ [NULL]))).
  2: { rewrite length_app. simpl. lia. }
  rewrite (cons_middle NULL pre), app_assoc.
  apply aset_middle.
Qed.

Lemma place_parent_shift (pre l1 : list node) z l2 :
  memmove (pre ++ NULL :: NULL :: (l1 ++ [z]) ++ l2) 0 1
    (Z.of_nat (length pre + 1 + length (l1 ++ [z])))
  = Ret (vacated pre true ++ l1 ++ z :: z :: l2).
Proof.
  unfold vacated.
  replace (pre ++ NULL :: NULL :: (l1 ++ [z]) ++ l2)
    with ((pre ++ [NULL; NULL]) ++ l1 ++ z :: l2).
  2: { rewrite <- !app_assoc. done. }
  assert (Hlen : length (tail (pre ++ [NULL; NULL])) = S (length pre)).
  { rewrite length_tl, length_app. simpl. lia. }
  destruct (pre ++ [NULL; NULL]) as [|h t] eqn:E.
  { apply (f_equal length) in E. rewrite length_app in E. simpl in E. lia. }
  simpl tail in *.
  replace (Z.of_nat (length pre + 1 + length (l1 ++ [z]))) with
    (Z.of_nat (length (t ++ l1)) + 1).
  2: { rewrite !length_app, Hlen. simpl. lia. }
  rewrite <- app_comm_cons, (app_assoc t l1 (z :: l2)).
  rewrite memmove_shift. by rewrite <- app_assoc.
Qed.

Lemma place_parent_later (pre' l1 : list node) z l2 p k :
  length pre' = S k →
  aset (pre' ++ l1 ++ z :: z :: l2) (Z.of_nat (k + 1 + length (l1 ++ [z]))) p
  = Ret (pre' ++ (l1 ++ [z]) ++ p :: l2).
Proof.
  intros Hlen.
  replace (Z.of_nat (k + 1 + length (l1 ++ [z]))) with
    (Z.of_nat (length ((pre' ++ l1) ++ [z]))).
  2: { rewrite !length_app, Hlen. simpl. lia. }
  rewrite (cons_middle z l1 (z :: l2)).
  rewrite (app_assoc l1 [z] (z :: l2)).
  rewrite (app_assoc pre' (l1 ++ [z]) (z :: l2)).
  rewrite (app_assoc pre' l1 [z]).
  rewrite aset_middle. by rewrite <- !app_assoc.
Qed.

(** One iteration on an array whose entries from [start] on are a
    frontier with at least two nodes. *)
Lemma mergeStep_frontier (pre : list node) x y rest w :
  Forall is_node (x :: y :: rest) →
  Forall (λ n, 0 < nfreq n) (x :: y :: rest) →
  StronglySorted freq_le (x :: y :: rest) →
  nfreq x + nfreq y ≤ INT_MAX →
  Z.of_nat (length pre + length (x :: y :: rest)) ≤ 2 ^ 30 →
  let key := nfreq x + nfreq y in
  let n := Z.of_nat (length pre + length (x :: y :: rest)) in
  let index := mkIndex (pre ++ x :: y :: rest) n in
  ∃ l1 l2, rest = l1 ++ l2 ∧
    Forall (λ n, nfreq n ≤ key) l1 ∧ Forall (λ n, key ≤ nfreq n) l2 ∧
    getInsertionPoint key index (Z.of_nat (length pre))
    = Ret (Z.of_nat (length pre + 1 + length l1)) ∧
    mergeStep (Z.of_nat (length pre)) index w
    = (Ret (mkIndex (vacated pre (bool_decide (l1 ≠ [])) ++ l1 ++ parent_of x y :: l2) n),
       bump w).
Proof.
  intros Hnode Hpos Hs Hsum Hlen key n index.
  assert (Hx : is_node x ∧ 0 < nfreq x).
  { apply Forall_cons in Hnode as [? _]. apply Forall_cons in Hpos as [? _]. done. }
  assert (Hy : is_node y ∧ 0 < nfreq y).
  { apply Forall_cons in Hnode as [_ [? _]%Forall_cons].
    apply Forall_cons in Hpos as [_ [? _]%Forall_cons]. done. }
  destruct Hx as [Hx Hfx], Hy as [Hy Hfy].
  destruct (getInsertionPoint_split pre (x :: y :: rest) key)
    as (l1' & l2 & Heq & Hip & Hcase); [done|done|..].
  { by rewrite length_app. }
  destruct (split_bounds _ _ _ _ Hs Heq Hcase) as [Hl1 Hl2].
  destruct (split_after_children _ _ _ _ _ key Heq) as (l1 & -> & ->);
    [lia|lia|done|].
  apply Forall_cons in Hl1 as [_ [_ Hl1]%Forall_cons].
  rewrite length_app in Hip.
  assert (Hip' : getInsertionPoint key index (Z.of_nat (length pre))
                 = Ret (Z.of_nat (length pre + 1 + length l1))).
  { etrans; [exact Hip|]. f_equal. simpl. lia. }
  exists l1, l2. split; [done|]. split; [done|]. split; [done|]. split; [done|].
  unfold mergeStep.
  assert (Hk1 : Z.of_nat (length pre) + 1 = Z.of_nat (length (pre ++ [x]))).
  { rewrite length_app. simpl. lia. }
  assert (Hg1 : aget (a index) (Z.of_nat (length pre)) = Ret x).
  { simpl. apply aget_middle. }
  assert (Hg2 : aget (a index) (Z.of_nat (length pre) + 1) = Ret y).
  { simpl. rewrite Hk1. rewrite (cons_middle x), app_assoc. apply aget_middle. }
  assert (Hs1 : aset (a index) (Z.of_nat (length pre) + 1) NULL
                = Ret (pre ++ x :: NULL :: l1 ++ l2)).
  { simpl. rewrite Hk1. rewrite (cons_middle x), app_assoc.
    rewrite aset_middle. by rewrite <- app_assoc. }
  assert (Hs2 : aset (pre ++ x :: NULL :: l1 ++ l2) (Z.of_nat (length pre)) NULL
                = Ret (pre ++ NULL :: NULL :: l1 ++ l2)).
  { apply aset_middle. }
  assert (Hw : wrap_int (nfreq x + nfreq y) = key).
  { apply wrap_int_small. lia. }
  unfold mbind, M_bind, Mbind, lift, mret, M_ret, Mret, createNode.
  rewrite Hg1, (freq_of_nfreq x Hx), Hg2, (freq_of_nfreq y Hy), Hw.
  cbn [freq_of]. rewrite Hip', Hs1, Hs2.
  fold (parent_of x y). fold (bump w).
  destruct l1 as [|z l1 _] using rev_ind.
  - rewrite bool_decide_eq_false_2 by (simpl; lia).
    rewrite (bool_decide_eq_false_2 ([] ≠ [])) by (intros H; by apply H).
    rewrite place_parent_first. done.
  - rewrite bool_decide_eq_true_2 by (rewrite length_app; simpl; lia).
    rewrite (bool_decide_eq_true_2 (l1 ++ [z] ≠ [])) by (by destruct l1).
    rewrite place_parent_shift.
    rewrite (place_parent_later _ _ _ _ _ (length pre)) by apply vacated_length.
    done.
Qed.

(** ** The merge loop *)

Lemma total_app l1 l2 : total (l1 ++ l2) = total l1 + total l2.
Proof. induction l1 as [|x l1 IH]; simpl; lia. Qed.

Lemma total_pos live : Forall (λ n, 0 < nfreq n) live → 0 ≤ total live.
Proof. induction 1; simpl; lia. Qed.

Lemma merge_total live live' : merge live live' → total live' = total live.
Proof. intros []. simpl. rewrite !total_app. simpl. lia. Qed.

Lemma merge_length live live' : merge live live' → length live = S (length live').
Proof. intros []. simpl. rewrite !length_app. simpl. lia. Qed.

Lemma merge_frontier live live' : frontier live → merge live live' → frontier live'.
Proof.
  intros [Hn Hp Hs Ht] Hm. pose proof (merge_total _ _ Hm) as Htot.
  destruct Hm as [x y l1 l2 Hl1 Hl2].
  apply Forall_cons in Hn as [Hx [Hy Hn]%Forall_cons].
  apply Forall_cons in Hp as [Hfx [Hfy Hp]%Forall_cons].
  apply StronglySorted_cons in Hs as [_ [_ Hs]%StronglySorted_cons].
  apply Forall_app in Hn as [Hn1 Hn2]. apply Forall_app in Hp as [Hp1 Hp2].
  apply StronglySorted_app in Hs as (H12 & Hs1 & Hs2).
  split.
  - apply Forall_app. split; [done|]. by apply Forall_cons.
  - apply Forall_app. split; [done|]. apply Forall_cons. split; [simpl; lia|done].
  - apply StronglySorted_app. split; [|split; [done|]].
    + intros x1 x2 H1 [->|H2]%elem_of_cons.
      * rewrite Forall_forall in Hl1. apply (Hl1 x1 H1).
      * by apply H12.
    + apply StronglySorted_cons. split; [|done].
      eapply Forall_impl; [exact Hl2|]. done.
  - lia.
Qed.

Lemma mergeStep_merge (k : nat) live w :
  frontier live → (2 ≤ length live)%nat → Z.of_nat (k + length live) ≤ 2 ^ 30 →
  let n := Z.of_nat (k + length live) in
  ∃ live', merge live live' ∧
    mergeStep (Z.of_nat k) (mkIndex (replicate k NULL ++ live) n) w
    = (Ret (mkIndex (replicate (S k) NULL ++ live') n), bump w).
Proof.
  intros [Hn Hp Hs Ht] Hlen Hsmall n.
  destruct live as [|x [|y rest]]; simpl in Hlen; try lia.
  destruct (mergeStep_frontier (replicate k NULL) x y rest w)
    as (l1 & l2 & -> & Hl1 & Hl2 & _ & Hstep); try done.
  { apply Forall_cons in Hp as [Hfx [Hfy Hp]%Forall_cons].
    apply total_pos in Hp. simpl in Ht. lia. }
  { by rewrite length_replicate. }
  exists (l1 ++ parent_of x y :: l2). split; [by constructor|].
  rewrite length_replicate, vacated_replicate in Hstep. exact Hstep.
Qed.

Lemma merge_loop (m : nat) : ∀ (k : nat) live w,
  frontier live → (m < length live)%nat → Z.of_nat (k + length live) ≤ 2 ^ 30 →
  let n := Z.of_nat (k + length live) in
  ∃ live', nsteps merge m live live' ∧
    for_loop m (Z.of_nat k) mergeStep (mkIndex (replicate k NULL ++ live) n) w
    = (Ret (mkIndex (replicate (k + m) NULL ++ live') n),
       mkWorld (mallocs w + m)).
Proof.
  induction m as [|m IH]; intros k live w Hf Hm Hsmall n.
  - exists live. split; [constructor|]. simpl.
    rewrite !Nat.add_0_r. by destruct w.
  - destruct (mergeStep_merge k live w) as (live1 & Hm1 & Hstep); [done|lia|done|].
    pose proof (merge_length _ _ Hm1) as Hlen1.
    destruct (IH (S k) live1 (bump w)) as (live' & Hsteps & Hloop).
    { by eapply merge_frontier. }
    { lia. }
    { rewrite Hlen1 in Hsmall. lia. }
    exists live'. split; [by econstructor|].
    simpl. unfold mbind, M_bind, Mbind. subst n. rewrite Hstep.
    replace (Z.of_nat k + 1) with (Z.of_nat (S k)) by lia.
    replace (Z.of_nat (k + length live)) with (Z.of_nat (S k + length live1)) by lia.
    replace (k + S m)%nat with (S k + m)%nat by lia.
    replace (mallocs w + S m)%nat with (mallocs (bump w) + m)%nat by (simpl; lia).
    exact Hloop.
Qed.

Lemma merges_length m live live' :
  nsteps merge m live live' → length live = (m + length live')%nat.
Proof.
  induction 1 as [|m x y z Hxy _ IH]; [done|].
  apply merge_length in Hxy. lia.
Qed.

Lemma merges_frontier m live live' :
  frontier live → nsteps merge m live live' → frontier live'.
Proof. intros Hf Hm. induction Hm; eauto using merge_frontier. Qed.

Lemma merges_total m live live' :
  nsteps merge m live live' → total live' = total live.
Proof.
  induction 1 as [|m x y z Hxy _ IH]; [done|].
  apply merge_total in Hxy. lia.
Qed.

(** The prefix of a loop is the loop of a smaller bound; the iterations
    of [populateTree] are those of [after_merges]. *)
Lemma for_loop_add {S} (body : Z → S → M S) k m : ∀ i s w,
  for_loop (k + m) i body s w
  = (s' ← for_loop k i body s; for_loop m (i + Z.of_nat k) body s') w.
Proof.
  induction k as [|k IH]; intros i s w.
  - simpl. unfold mbind, M_bind, Mbind, mret, M_ret, Mret.
    by rewrite Z.add_0_r.
  - simpl. unfold mbind, M_bind, Mbind in *.
    destruct (body i s w) as [[s1| | |] w1]; try done.
    rewrite IH. by replace (i + 1 + Z.of_nat k) with (i + Z.pos (Pos.of_succ_nat k)) by lia.
Qed.

Lemma populateTree_after_merges index :
  populateTree index
  = (index' ← after_merges (Z.to_nat (len index - 1)) index;
     root ← lift (aget (a index') (len index' - 1));
     mret (root, index')).
Proof. done. Qed.

Lemma after_merges_frontier (k : nat) live w :
  frontier live → (k < length live)%nat → Z.of_nat (length live) ≤ 2 ^ 30 →
  ∃ live', nsteps merge k live live' ∧
    after_merges k (mkIndex live (Z.of_nat (length live))) w
    = (Ret (mkIndex (replicate k NULL ++ live') (Z.of_nat (length live))),
       mkWorld (mallocs w + k)).
Proof.
  intros Hf Hk Hsmall.
  destruct (merge_loop k 0 live w Hf Hk) as (live' & Hm & Hloop); [done|].
  exists live'. split; [done|]. exact Hloop.
Qed.

Lemma live_range_after (k : nat) (live live' : list node) :
  length live = (k + length live')%nat →
  live_range k (mkIndex (replicate k NULL ++ live') (Z.of_nat (length live))) = live'.
Proof.
  intros Hlen. unfold live_range. simpl.
  rewrite drop_app_length' by (by rewrite length_replicate).
  apply take_ge. lia.
Qed.

Lemma populateTree_frontier live w :
  frontier live → (1 ≤ length live)%nat → Z.of_nat (length live) ≤ 2 ^ 30 →
  ∃ root, nsteps merge (length live - 1) live [root] ∧
    populateTree (mkIndex live (Z.of_nat (length live))) w
    = (Ret (root, mkIndex (replicate (length live - 1) NULL ++ [root])
                    (Z.of_nat (length live))),
       mkWorld (mallocs w + (length live - 1))).
Proof.
  intros Hf Hlen Hsmall.
  destruct (after_merges_frontier (length live - 1) live w) as (live' & Hm & Hloop);
    [done|lia|done|].
  pose proof (merges_length _ _ _ Hm) as Hl.
  destruct live' as [|root [|??]]; simpl in Hl; try lia.
  exists root. split; [done|].
  rewrite populateTree_after_merges.
  unfold mbind, M_bind, Mbind. simpl len.
  replace (Z.to_nat (Z.of_nat (length live) - 1)) with (length live - 1)%nat by lia.
  rewrite Hloop. unfold lift. simpl a. simpl len.
  replace (Z.of_nat (length live) - 1) with
    (Z.of_nat (length (replicate (length live - 1) NULL))).
  2: { rewrite length_replicate. lia. }
  rewrite aget_middle. done.
Qed.

(** ** The frequency table *)

Lemma leaves_from_length i l :
  Z.of_nat (length (leaves_from i l)) = symbolCount l.
Proof.
  unfold symbolCount. revert i. induction l as [|x l IH]; intros i; [done|].
  simpl. rewrite filter_cons.
  case_bool_decide; case_decide; try done; simpl; specialize (IH (i + 1)); lia.
Qed.

Lemma leaves_from_total i l : total (leaves_from i l) = sumZ l.
Proof.
  revert i. induction l as [|x l IH]; intros i; [done|].
  simpl. case_bool_decide as Hx; simpl; rewrite IH; [done|].
  assert (x = 0) by (destruct (decide (x = 0)); [done|by destruct Hx]). lia.
Qed.

Lemma leaves_from_pos i l :
  Forall (λ x, 0 ≤ x) l → Forall (λ n, 0 < nfreq n) (leaves_from i l).
Proof.
  intros Hl. revert i. induction Hl as [|x l Hx _ IH]; intros i; [constructor|].
  simpl. case_bool_decide; [|done].
  constructor; [simpl; lia|done].
Qed.

Lemma leaves_from_node i l : Forall is_node (leaves_from i l).
Proof.
  revert i. induction l as [|x l IH]; intros i; [constructor|].
  simpl. case_bool_decide; [|done]. by constructor.
Qed.

(** The loop of [calcNodeCnt] over a part [l] of the table. *)
Lemma calcNodeCnt_loop l : ∀ pre suf cnt,
  for_loop (length l) (Z.of_nat (length pre))
    (λ i cnt, x ← aget (pre ++ l ++ suf) i;
              if bool_decide (x ≠ 0) then Ret (cnt + 1) else Ret cnt) cnt
  = Ret (cnt + symbolCount l).
Proof.
  unfold symbolCount.
  induction l as [|x l IH]; intros pre suf cnt.
  - simpl. f_equal. lia.
  - simpl for_loop. simpl app. rewrite aget_middle. simpl.
    specialize (IH (pre ++ [x]) suf).
    rewrite length_app in IH. simpl in IH.
    replace (Z.of_nat (length pre) + 1) with (Z.of_nat (length pre + 1)) by lia.
    rewrite <- app_assoc in IH. simpl in IH.
    rewrite filter_cons.
    case_bool_decide; case_decide; try done; simpl; rewrite IH; f_equal; lia.
Qed.

Lemma calcNodeCnt_table a :
  Z.of_nat (length a) = ASIZE →
  calcNodeCnt a =
    if bool_decide (symbolCount a < 2) then
      Exit EXIT_FAILURE ("ERROR: too few nodes to build tree" +:+ nl)
    else Ret (symbolCount a).
Proof.
  intros Hlen. unfold calcNodeCnt.
  replace (Z.to_nat ASIZE) with (length a) by lia.
  pose proof (calcNodeCnt_loop a [] [] 0) as Hloop.
  rewrite app_nil_r in Hloop.
  change (Z.of_nat (length (@nil Z))) with 0 in Hloop.
  change ([] ++ a) with a in Hloop.
  rewrite Hloop. done.
Qed.

(** The loop of [createNodeIndex] over a part [l] of the table, with
    [done] already in the array and [rest] null pointers after it. *)
Lemma createNodeIndex_loop l : ∀ pre suf (done : list node) (rest : nat) w,
  (length (leaves_from (Z.of_nat (length pre)) l) ≤ rest)%nat →
  for_loop (length l) (Z.of_nat (length pre)) (indexChar (pre ++ l ++ suf))
    (done ++ replicate rest NULL, Z.of_nat (length done)) w
  = (Ret (done ++ leaves_from (Z.of_nat (length pre)) l
            ++ replicate (rest - length (leaves_from (Z.of_nat (length pre)) l)) NULL,
          Z.of_nat (length done + length (leaves_from (Z.of_nat (length pre)) l))),
     mkWorld (mallocs w + length (leaves_from (Z.of_nat (length pre)) l))).
Proof.
  induction l as [|x l IH]; intros pre suf done rest w Hrest.
  - simpl. rewrite !Nat.add_0_r, Nat.sub_0_r. by destruct w.
  - simpl for_loop. simpl app. unfold indexChar at 1.
    unfold mbind, M_bind, Mbind, lift, mret, M_ret, Mret, createNode.
    rewrite aget_middle.
    specialize (IH (pre ++ [x]) suf).
    rewrite length_app in IH. simpl length in IH.
    replace (Z.of_nat (length pre + 1)) with (Z.of_nat (length pre) + 1) in IH by lia.
    rewrite <- app_assoc in IH. simpl app in IH.
    simpl leaves_from in *.
    case_bool_decide as Hx.
    + simpl length in *. destruct rest as [|rest]; [lia|].
      simpl replicate. rewrite aset_middle.
      specialize (IH (done ++ [mkNode x (Z.of_nat (length pre)) NULL NULL]) rest
                    (mkWorld (S (mallocs w)))).
      rewrite length_app in IH. simpl length in IH.
      rewrite <- app_assoc in IH. simpl app in IH.
      replace (Z.of_nat (length done) + 1) with (Z.of_nat (length done + 1)) by lia.
      etrans; [apply IH; lia|].
      rewrite <- app_assoc. simpl. do 3 f_equal; lia.
    + etrans; [apply IH; lia|]. done.
Qed.

Lemma createNodeIndex_table a w :
  Z.of_nat (length a) = ASIZE →
  createNodeIndex a (symbolCount a) w
  = (Ret (table_leaves a), mkWorld (mallocs w + Z.to_nat (symbolCount a))).
Proof.
  intros Hlen. unfold createNodeIndex.
  replace (Z.to_nat ASIZE) with (length a) by lia.
  pose proof (createNodeIndex_loop a [] [] [] (Z.to_nat (symbolCount a)) w) as Hloop.
  rewrite app_nil_r in Hloop.
  change (Z.of_nat (length (@nil Z))) with 0 in Hloop.
  change ([] ++ a) with a in Hloop.
  change (Z.of_nat (length (@nil node))) with 0 in Hloop.
  pose proof (leaves_from_length 0 a) as Hl.
  erewrite Mbind_Ret; [|apply Hloop; lia].
  replace (Z.to_nat (symbolCount a) - length (leaves_from 0 a))%nat with 0%nat by lia.
  simpl. rewrite app_nil_r. unfold mret, M_ret, Mret, table_leaves.
  do 3 f_equal. lia.
Qed.

(** ** Trees *)

Lemma htree_node n : htree n → is_node n.
Proof. by intros []. Qed.

Lemma htree_pos n : htree n → 0 < nfreq n.
Proof. induction 1; simpl in *; lia. Qed.

Lemma leaves_node f c l r :
  is_node l → leaves (mkNode f c l r) = leaves l ++ leaves r.
Proof. intros Hl. by destruct l. Qed.

Lemma leaves_parent l r :
  is_node l → leaves (parent_of l r) = leaves l ++ leaves r.
Proof. apply leaves_node. Qed.

Lemma leaves_of_cons x l : leaves_of (x :: l) = leaves x ++ leaves_of l.
Proof. done. Qed.

Lemma leaves_of_app l1 l2 : leaves_of (l1 ++ l2) = leaves_of l1 ++ leaves_of l2.
Proof.
  induction l1 as [|x l1 IH]; [done|]. simpl. by rewrite IH, app_assoc.
Qed.

Lemma merge_leaves live live' :
  Forall is_node live → merge live live' → leaves_of live' ≡ₚ leaves_of live.
Proof.
  intros Hn Hm. destruct Hm as [x y l1 l2 _ _].
  apply Forall_cons in Hn as [Hx _].
  rewrite leaves_of_app, !leaves_of_cons, leaves_parent by done.
  rewrite leaves_of_app.
  rewrite <- !app_assoc.
  rewrite (Permutation_app_comm (leaves_of l1)).
  rewrite <- !app_assoc.
  do 2 apply Permutation_app_head. apply Permutation_app_comm.
Qed.

Lemma merge_htree live live' :
  Forall htree live → merge live live' → Forall htree live'.
Proof.
  intros Hh Hm. destruct Hm as [x y l1 l2 _ _].
  apply Forall_cons in Hh as [Hx [Hy Hh]%Forall_cons].
  apply Forall_app in Hh as [H1 H2].
  apply Forall_app. split; [done|].
  apply Forall_cons. split; [by constructor|done].
Qed.

Lemma merges_htree m live live' :
  Forall htree live → nsteps merge m live live' → Forall htree live'.
Proof. intros Hh Hm. induction Hm; eauto using merge_htree. Qed.

Lemma merges_leaves m live live' :
  Forall htree live → nsteps merge m live live' →
  leaves_of live' ≡ₚ leaves_of live.
Proof.
  intros Hh Hm. induction Hm as [|m x y z Hxy _ IH]; [done|].
  rewrite IH by eauto using merge_htree.
  apply merge_leaves; [|done].
  eapply Forall_impl; [exact Hh|]. apply htree_node.
Qed.

(** ** From the table to the sorted array *)

Lemma total_Permutation l l' : l ≡ₚ l' → total l = total l'.
Proof. induction 1; simpl; lia. Qed.

Lemma sorted_index_table tab w0 index w :
  valid_table tab → sorted_index tab w0 index w →
  len index = symbolCount tab ∧
  a index ≡ₚ table_leaves tab ∧
  StronglySorted freq_le (a index) ∧
  w = mkWorld (mallocs w0 + Z.to_nat (symbolCount tab)).
Proof.
  intros [Hsize Hcounts Htotal Hsym] (na & Hcnt & Hidx & Hperm & Hsorted).
  rewrite calcNodeCnt_table in Hcnt by done.
  rewrite bool_decide_eq_false_2 in Hcnt by lia.
  injection Hcnt as Hlen. rewrite <- Hlen in Hidx.
  rewrite createNodeIndex_table in Hidx by done.
  injection Hidx as <- <-. done.
Qed.

Lemma table_frontier a l :
  valid_table a → l ≡ₚ table_leaves a → StronglySorted freq_le l →
  frontier l ∧ Z.of_nat (length l) = symbolCount a ∧ total l = sumZ a.
Proof.
  intros [Hsize Hcounts Htotal Hsym] Hperm Hsorted.
  assert (Ht : total l = sumZ a).
  { rewrite (total_Permutation _ _ Hperm). apply leaves_from_total. }
  split; [split|split]; try done.
  - rewrite Hperm. apply leaves_from_node.
  - rewrite Hperm. by apply leaves_from_pos.
  - lia.
  - rewrite Hperm. apply leaves_from_length.
Qed.

Lemma symbolCount_le a : symbolCount a ≤ Z.of_nat (length a).
Proof. unfold symbolCount. pose proof (length_filter (λ x, x ≠ 0) a). lia. Qed.

(** ** Strings in the buffer *)

Lemma strlen_app w rest :
  no_nul w → strlen (w ++ NUL :: rest) = Ret (Z.of_nat (length w)).
Proof.
  induction 1 as [|ch w Hch _ IH]; simpl.
  - done.
  - rewrite bool_decide_eq_false_2 by done. rewrite IH. simpl. f_equal. lia.
Qed.

Lemma cstring_app w rest : no_nul w → cstring (w ++ NUL :: rest) = w.
Proof.
  induction 1 as [|ch w Hch _ IH]; simpl.
  - done.
  - rewrite bool_decide_eq_false_2 by done. by rewrite IH.
Qed.

Lemma memset0_app w rest :
  memset0 (w ++ NUL :: rest) (Z.of_nat (length w))
  = Ret (replicate (length w) NUL ++ NUL :: rest).
Proof.
  unfold memset0. rewrite bool_decide_eq_true_2.
  - rewrite Nat2Z.id, drop_app_length. done.
  - rewrite length_app. lia.
Qed.

Lemma swapChars_step i (pre : list ascii) x w y post :
  swapChars i (pre ++ x :: w ++ y :: post, Z.of_nat (length pre),
               Z.of_nat (length pre) + Z.of_nat (length w) + 1)
  = Ret (pre ++ y :: w ++ x :: post, Z.of_nat (length pre) + 1,
         Z.of_nat (length pre) + Z.of_nat (length w) + 1 - 1).
Proof.
  unfold swapChars.
  assert (Hb : Z.of_nat (length pre) + Z.of_nat (length w) + 1
               = Z.of_nat (length (pre ++ x :: w))).
  { rewrite length_app. simpl. lia. }
  assert (Hb' : Z.of_nat (length pre) + Z.of_nat (length w) + 1
                = Z.of_nat (length (pre ++ y :: w))).
  { rewrite length_app. simpl. lia. }
  rewrite aget_middle. cbn [mbind outcome_bind obind].
  rewrite Hb at 1.
  rewrite (app_comm_cons w (y :: post) x), (app_assoc pre (x :: w) (y :: post)).
  rewrite aget_middle. cbn [mbind outcome_bind obind].
  rewrite <- (app_assoc pre (x :: w) (y :: post)), <- app_comm_cons.
  rewrite aset_middle. cbn [mbind outcome_bind obind].
  rewrite Hb' at 1.
  rewrite (app_comm_cons w (y :: post) y), (app_assoc pre (y :: w) (y :: post)).
  rewrite aset_middle. cbn [mbind outcome_bind obind].
  by rewrite <- app_assoc.
Qed.

(** The loop of [reverseString] on a part [w] of the string, of which it
    makes [k] exchanges. *)
Lemma swap_loop (k : nat) : ∀ i pre w post,
  (length w = 2 * k ∨ length w = 2 * k + 1)%nat →
  ∃ a b,
    for_loop k i swapChars
      (pre ++ w ++ post, Z.of_nat (length pre),
       Z.of_nat (length pre) + Z.of_nat (length w) - 1)
    = Ret (pre ++ reverse w ++ post, a, b).
Proof.
  induction k as [|k IH]; intros i pre w post Hw.
  - destruct w as [|x [|y w]]; simpl in Hw; try lia; by eexists _, _.
  - destruct w as [|x w]; [simpl in Hw; lia|].
    destruct w as [|y w _] using rev_ind; [simpl in Hw; lia|].
    rewrite length_cons, length_app in Hw. simpl in Hw.
    destruct (IH (i + 1) (pre ++ [y]) w (x :: post)) as (a' & b' & Hloop); [lia|].
    exists a', b'.
    cbn [for_loop].
    replace (Z.of_nat (length pre) + Z.of_nat (length (x :: w ++ [y])) - 1)
      with (Z.of_nat (length pre) + Z.of_nat (length w) + 1).
    2: { rewrite length_cons, length_app. simpl. lia. }
    replace (pre ++ (x :: w ++ [y]) ++ post) with (pre ++ x :: w ++ y :: post).
    2: { simpl. by rewrite <- app_assoc. }
    rewrite swapChars_step. cbn [mbind outcome_bind obind].
    replace (Z.of_nat (length pre) + Z.of_nat (length w) + 1 - 1)
      with (Z.of_nat (length (pre ++ [y])) + Z.of_nat (length w) - 1).
    2: { rewrite length_app. simpl. lia. }
    replace (Z.of_nat (length pre) + 1) with (Z.of_nat (length (pre ++ [y]))).
    2: { rewrite length_app. simpl. lia. }
    replace (pre ++ y :: w ++ x :: post) with ((pre ++ [y]) ++ w ++ x :: post).
    2: { by rewrite <- !app_assoc. }
    rewrite Hloop. f_equal. f_equal. f_equal.
    rewrite reverse_cons, reverse_app. simpl.
    rewrite <- !app_assoc. done.
Qed.

Lemma reverseString_app w rest :
  no_nul w → reverseString (w ++ NUL :: rest) = Ret (reverse w ++ NUL :: rest).
Proof.
  intros Hw. unfold reverseString. rewrite strlen_app by done.
  simpl mbind at 1. cbn [obind].
  rewrite Z.quot_div_nonneg by lia.
  destruct (swap_loop (Z.to_nat (Z.of_nat (length w) `div` 2)) 0 [] w (NUL :: rest))
    as (a' & b' & Hloop).
  { pose proof (Z.div_mod (Z.of_nat (length w)) 2).
    pose proof (Z.mod_pos_bound (Z.of_nat (length w)) 2). lia. }
  simpl in Hloop. change (Z.of_nat 0) with 0 in Hloop.
  replace (0 + Z.of_nat (length w) - 1) with (Z.of_nat (length w) - 1) in Hloop by lia.
  rewrite Hloop. done.
Qed.

(** ** The search for an encoding *)

Lemma event_within_mono d d' e : d ≤ d' → event_within d e → event_within d' e.
Proof. destruct e; simpl; lia. Qed.

Lemma findEncoding_NULL target s :
  findEncoding NULL target s = Ret (NULL, set_cnt 0 s).
Proof. done. Qed.

Lemma findEncoding_node f c l r target s :
  findEncoding (mkNode f c l r) target s =
    if bool_decide (c = target) then Ret (mkNode f c l r, set_cnt 0 s)
    else
      '(ln, s) ← findEncoding l target (set_cnt 0 s);
      if bool_decide (ln ≠ NULL) then
        s ← put_char "0" s; Ret (ln, s)
      else
        '(rn, s) ← findEncoding r target s;
        if bool_decide (rn ≠ NULL) then
          s ← put_char "1" s; Ret (rn, s)
        else Ret (NULL, s).
Proof.
  cbn [findEncoding].
  rewrite !(bool_decide_eq_true_2 (mkNode f c l r = mkNode f c l r)) by done.
  reflexivity.
Qed.

Lemma find_path_node n target p m : find_path n target = Some (p, m) → m ≠ NULL.
Proof.
  revert p. induction n as [|f c l IHl r IHr]; intros p; simpl; [done|].
  case_bool_decide; [by intros [= <- <-]|].
  destruct (find_path l target) as [[pl ml]|].
  - intros [= <- <-]. eauto.
  - destruct (find_path r target) as [[pr mr]|]; [|done].
    intros [= <- <-]. eauto.
Qed.

(** [b->str[cnt++] = ch] after a search that found the path [p]. *)
Lemma put_char_path (b : bool) (p : list bool) (s0 : list ascii) sz tr :
  (S (length p) ≤ length s0)%nat →
  put_char (bit b)
    (mkEnc (Z.of_nat (length p))
       (mkBuffer (reverse (bit <$> p) ++ drop (length p) s0) sz) tr)
  = Ret (mkEnc (Z.of_nat (length (b :: p)))
           (mkBuffer (reverse (bit <$> b :: p) ++ drop (length (b :: p)) s0) sz)
           (SetCnt (Z.of_nat (length p) + 1)
            :: WriteStr (Z.of_nat (length p)) (bit b) :: tr)).
Proof.
  intros Hlen. unfold put_char. simpl cnt. simpl buf. simpl str.
  destruct (lookup_lt_is_Some_2 s0 (length p)) as [z Hz]; [lia|].
  rewrite (drop_S _ _ _ Hz).
  replace (Z.of_nat (length p)) with (Z.of_nat (length (reverse (bit <$> p)))) at 1.
  2: { by rewrite length_reverse, length_fmap. }
  rewrite aset_middle. cbn [mbind outcome_bind obind].
  do 2 f_equal.
  - simpl. lia.
  - f_equal. rewrite fmap_cons, reverse_cons, <- app_assoc. done.
Qed.

(** [findEncoding] is the search [find_path]: it returns the node found,
    leaves the descents to it in the buffer, the last one first, and the
    number of them in [cnt]; when nothing is found the buffer is as it
    was and [cnt] is 0. *)
Lemma findEncoding_find_path n target : ∀ s,
  match find_path n target with
  | None =>
    ∃ tr, findEncoding n target s = Ret (NULL, mkEnc 0 (buf s) (tr ++ trace s)) ∧
          Forall (event_within 0) tr
  | Some (p, m) =>
    (length p ≤ length (str (buf s)))%nat →
    ∃ tr, findEncoding n target s
          = Ret (m, mkEnc (Z.of_nat (length p))
                      (mkBuffer (reverse (bit <$> p) ++ drop (length p) (str (buf s)))
                         (size (buf s)))
                      (tr ++ trace s)) ∧
          Forall (event_within (Z.of_nat (length p))) tr
  end.
Proof.
  induction n as [|f c l IHl r IHr]; intros s.
  - simpl find_path. exists [SetCnt 0]. split; [done|].
    constructor; [simpl; lia|constructor].
  - simpl find_path. rewrite findEncoding_node.
    case_bool_decide as Hc.
    { intros _. exists [SetCnt 0]. split.
      - unfold set_cnt. simpl. destruct (buf s); done.
      - constructor; [simpl; lia|constructor]. }
    specialize (IHl (set_cnt 0 s)).
    destruct (find_path l target) as [[pl ml]|] eqn:El.
    { intros Hlen. simpl in Hlen.
      destruct IHl as (tr & Hl & Htr); [simpl; lia|].
      rewrite Hl. cbn [mbind outcome_bind obind].
      rewrite bool_decide_eq_true_2 by eauto using find_path_node.
      simpl buf. simpl trace.
      change "0"%char with (bit false).
      rewrite put_char_path by lia. cbn [mbind outcome_bind obind].
      eexists (SetCnt _ :: WriteStr _ _ :: tr ++ [SetCnt 0]). split.
      - do 3 f_equal. simpl. by rewrite <- app_assoc.
      - constructor; [simpl; lia|]. constructor; [simpl; lia|].
        apply Forall_app. split.
        + eapply Forall_impl; [exact Htr|]. intros e. apply event_within_mono.
          simpl. lia.
        + constructor; [simpl; lia|constructor]. }
    destruct IHl as (trl & Hl & Htrl).
    rewrite Hl. cbn [mbind outcome_bind obind].
    rewrite bool_decide_eq_false_2 by (intros H; by apply H).
    match goal with
    | |- context [findEncoding r target ?s1] => specialize (IHr s1)
    end.
    destruct (find_path r target) as [[pr mr]|] eqn:Er.
    { intros Hlen. simpl in Hlen.
      destruct IHr as (tr & Hr & Htr); [simpl; lia|].
      rewrite Hr. cbn [mbind outcome_bind obind].
      rewrite bool_decide_eq_true_2 by eauto using find_path_node.
      simpl buf. simpl trace.
      change "1"%char with (bit true).
      rewrite put_char_path by lia. cbn [mbind outcome_bind obind].
      eexists (SetCnt _ :: WriteStr _ _ :: tr ++ trl ++ [SetCnt 0]). split.
      - do 3 f_equal. simpl. by rewrite <- !app_assoc.
      - constructor; [simpl; lia|]. constructor; [simpl; lia|].
        apply Forall_app. split; [|apply Forall_app; split].
        + eapply Forall_impl; [exact Htr|]. intros e. apply event_within_mono.
          simpl. lia.
        + eapply Forall_impl; [exact Htrl|]. intros e. apply event_within_mono.
          simpl. lia.
        + constructor; [simpl; lia|constructor]. }
    destruct IHr as (trr & Hr & Htrr).
    rewrite Hr. cbn [mbind outcome_bind obind].
    rewrite bool_decide_eq_false_2 by (intros H; by apply H).
    exists (trr ++ trl ++ [SetCnt 0]). split.
    + simpl. by rewrite <- !app_assoc.
    + apply Forall_app. split; [done|]. apply Forall_app. split; [done|].
      constructor; [simpl; lia|constructor].
Qed.

(** ** Paths and leaves *)

Lemma find_path_path_to n target p m :
  find_path n target = Some (p, m) → path_to n p m ∧ c_of m = Ret target.
Proof.
  revert p. induction n as [|f c l IHl r IHr]; intros p; simpl; [done|].
  case_bool_decide as Hc.
  { intros [= <- <-]. split; [by constructor|]. simpl. by rewrite Hc. }
  destruct (find_path l target) as [[pl ml]|].
  - intros [= <- <-]. destruct (IHl pl eq_refl). split; [by constructor|done].
  - destruct (find_path r target) as [[pr mr]|]; [|done].
    intros [= <- <-]. destruct (IHr pr eq_refl). split; [by constructor|done].
Qed.

Lemma treeHeight_lower n : -1 ≤ treeHeight n.
Proof.
  induction n as [|f c l IHl r IHr]; simpl; [lia|]. case_bool_decide; lia.
Qed.

Lemma path_to_height n p m : path_to n p m → Z.of_nat (length p) ≤ treeHeight n.
Proof.
  induction 1 as [n Hn|f c l r p m _ IH|f c l r p m _ IH].
  - destruct n as [|f c l r]; [done|]. simpl.
    pose proof (treeHeight_lower l). pose proof (treeHeight_lower r).
    case_bool_decide; lia.
  - simpl. case_bool_decide; lia.
  - simpl. case_bool_decide; lia.
Qed.

Lemma path_from_NULL p m : ¬ path_to NULL p m.
Proof. by inversion 1. Qed.

Lemma htree_children f c l r :
  htree (mkNode f c l r) → (l = NULL ∧ r = NULL) ∨ (c = PNODE ∧ htree l ∧ htree r).
Proof. inversion 1; subst; [by left|by right]. Qed.

Lemma path_to_htree n p m : path_to n p m → htree n → htree m.
Proof.
  induction 1 as [n Hn|f c l r p m Hp IH|f c l r p m Hp IH]; [done|..]; intros Hh.
  - apply htree_children in Hh as [[-> _]|(_ & Hl & _)]; [|by apply IH].
    by apply path_from_NULL in Hp.
  - apply htree_children in Hh as [[_ ->]|(_ & _ & Hr)]; [|by apply IH].
    by apply path_from_NULL in Hp.
Qed.

Lemma htree_char m target :
  htree m → c_of m = Ret target → target ≠ PNODE →
  ∃ f, m = mkNode f target NULL NULL ∧ 0 < f ∧ 0 ≤ target < ASIZE.
Proof.
  intros [f c Hc Hf|l r _ _]; simpl; intros [= <-]; [|done].
  intros _. by exists f.
Qed.

Lemma htree_leaves_char n c f : htree n → (c, f) ∈ leaves n → 0 ≤ c < ASIZE.
Proof.
  induction 1 as [f' c' Hc Hf|l r Hl IHl Hr IHr].
  - simpl. intros [= -> ->]%list_elem_of_singleton. done.
  - rewrite leaves_parent by (by apply htree_node).
    intros [?|?]%elem_of_app; eauto.
Qed.

Lemma path_to_leaf n p c f :
  path_to n p (mkNode f c NULL NULL) → htree n → (c, f) ∈ leaves n.
Proof.
  remember (mkNode f c NULL NULL) as m eqn:Em.
  induction 1 as [n Hn|f' c' l r p m Hp IH|f' c' l r p m Hp IH]; intros Hh.
  - subst n. simpl. apply list_elem_of_here.
  - apply htree_children in Hh as Hc. destruct Hc as [[-> _]|(-> & Hl & Hr)].
    { by apply path_from_NULL in Hp. }
    rewrite leaves_node by (by apply htree_node).
    apply elem_of_app. left. eauto.
  - apply htree_children in Hh as Hc. destruct Hc as [[_ ->]|(-> & Hl & Hr)].
    { by apply path_from_NULL in Hp. }
    rewrite leaves_node by (by apply htree_node).
    apply elem_of_app. right. eauto.
Qed.

(** A character at a leaf is found. *)
Lemma find_path_leaf n c f :
  htree n → (c, f) ∈ leaves n → is_Some (find_path n c).
Proof.
  intros Hh Hin. pose proof (htree_leaves_char _ _ _ Hh Hin) as Hc.
  induction Hh as [f' c' Hc' Hf|l r Hl IHl Hr IHr].
  - simpl in *. apply list_elem_of_singleton in Hin as [= -> ->].
    rewrite bool_decide_eq_true_2 by done. eauto.
  - rewrite leaves_parent in Hin by (by apply htree_node).
    unfold parent_of. simpl.
    rewrite bool_decide_eq_false_2 by (unfold PNODE; lia).
    apply elem_of_app in Hin as [Hin|Hin].
    + destruct (IHl Hin) as [[pl ml] ->]. eauto.
    + destruct (find_path l c) as [[pl ml]|]; [eauto|].
      destruct (IHr Hin) as [[pr mr] ->]. eauto.
Qed.

Lemma leaves_of_leaves_from i l : leaves_of (leaves_from i l) = entries_from i l.
Proof.
  revert i. induction l as [|x l IH]; intros i; [done|].
  simpl. case_bool_decide; [|done]. rewrite leaves_of_cons. simpl. by rewrite IH.
Qed.

Lemma elem_of_entries_from c f i l :
  (c, f) ∈ entries_from i l ↔ i ≤ c ∧ l !! Z.to_nat (c - i) = Some f ∧ f ≠ 0.
Proof.
  revert i. induction l as [|x l IH]; intros i; simpl.
  - split; [by intros ?%elem_of_nil|]. intros (_ & H & _).
    by rewrite lookup_nil in H.
  - assert (Hrec : (c, f) ∈ entries_from (i + 1) l ↔
                   i < c ∧ (x :: l) !! Z.to_nat (c - i) = Some f ∧ f ≠ 0).
    { rewrite IH. split.
      - intros (? & Hl & ?). split; [lia|]. split; [|done].
        replace (Z.to_nat (c - i)) with (S (Z.to_nat (c - (i + 1)))) by lia. done.
      - intros (? & Hl & ?). split; [lia|]. split; [|done].
        replace (Z.to_nat (c - i)) with (S (Z.to_nat (c - (i + 1)))) in Hl by lia.
        done. }
    case_bool_decide as Hx.
    + rewrite elem_of_cons, Hrec. split.
      * intros [[= -> ->]|(? & ? & ?)].
        -- split; [lia|]. split; [|done]. by rewrite Z.sub_diag.
        -- split; [lia|done].
      * intros (Hc & Hl & Hf).
        destruct (decide (c = i)) as [->|]; [|right; split; [lia|done]].
        left. rewrite Z.sub_diag in Hl. simpl in Hl. by simplify_eq.
    + rewrite Hrec. split.
      * intros (? & ? & ?). split; [lia|done].
      * intros (Hc & Hl & Hf). split; [|done].
        destruct (decide (c = i)) as [->|]; [|lia].
        rewrite Z.sub_diag in Hl. simpl in Hl. by simplify_eq.
Qed.

Lemma leaves_from_htree i l :
  0 ≤ i → i + Z.of_nat (length l) ≤ ASIZE → Forall (λ x, 0 ≤ x) l →
  Forall htree (leaves_from i l).
Proof.
  intros Hi Hl Hpos. revert i Hi Hl.
  induction Hpos as [|x l Hx _ IH]; intros i Hi Hl; [constructor|].
  simpl in *. case_bool_decide.
  - constructor; [constructor; lia|apply IH; lia].
  - apply IH; lia.
Qed.

Lemma htree_Permutation l l' : l ≡ₚ l' → Forall htree l' → Forall htree l.
Proof. intros Hp. by rewrite Hp. Qed.

Lemma leaves_of_Permutation l l' : l ≡ₚ l' → leaves_of l ≡ₚ leaves_of l'.
Proof.
  induction 1 as [|x l l' _ IH|x y l|l l' l'' _ IH1 _ IH2].
  - done.
  - rewrite !leaves_of_cons. by rewrite IH.
  - rewrite !leaves_of_cons, !app_assoc.
    by rewrite (Permutation_app_comm (leaves y)).
  - by rewrite IH1.
Qed.

(** The tree that [populateTree] returns for a valid table: a tree of
    leaves and parents whose leaves are the characters of the table. *)
Lemma built_tree tab w0 index w :
  valid_table tab → sorted_index tab w0 index w →
  ∃ root index' w',
    populateTree index w = (Ret (root, index'), w') ∧
    htree root ∧ leaves root ≡ₚ table_entries tab ∧
    mallocs w' = (mallocs w + (Z.to_nat (symbolCount tab) - 1))%nat.
Proof.
  intros Hvalid Hindex.
  destruct (sorted_index_table _ _ _ _ Hvalid Hindex) as (Hlen & Hperm & Hsorted & _).
  destruct (table_frontier _ _ Hvalid Hperm Hsorted) as (Hf & Hl & Ht).
  pose proof (symbolCount_le tab) as Hle. pose proof (vt_size _ Hvalid) as Hsize.
  pose proof (vt_symbols _ Hvalid) as Hsym.
  destruct index as [l n]. simpl in *. subst n. rewrite <- Hl in *.
  destruct (populateTree_frontier l w) as (root & Hm & Hpop);
    [done|lia|unfold ASIZE in *; lia|].
  eexists _, _, _. split; [exact Hpop|].
  assert (Hh : Forall htree l).
  { apply (htree_Permutation _ _ Hperm).
    apply leaves_from_htree; [lia|lia|apply Hvalid]. }
  split; [|split].
  - apply (merges_htree _ _ _ Hh) in Hm. by apply Forall_cons in Hm as [? _].
  - apply (merges_leaves _ _ _ Hh) in Hm.
    rewrite leaves_of_cons in Hm. simpl in Hm. rewrite app_nil_r in Hm.
    rewrite Hm, (leaves_of_Permutation _ _ Hperm).
    unfold table_leaves, table_entries. by rewrite leaves_of_leaves_from.
  - simpl. lia.
Qed.

(** ** The encoding of a character of the table *)

Lemma no_nul_bits p : no_nul (bit <$> p).
Proof. apply Forall_fmap, Forall_forall. by intros []. Qed.

Lemma table_entry tab i x :
  0 ≤ i → tab !! Z.to_nat i = Some x → x ≠ 0 → (i, x) ∈ table_entries tab.
Proof.
  intros. apply elem_of_entries_from. split; [done|]. by rewrite Z.sub_0_r.
Qed.

Lemma table_entry_inv tab i x :
  (i, x) ∈ table_entries tab → tab !! Z.to_nat i = Some x.
Proof. intros (_ & H & _)%elem_of_entries_from. by rewrite Z.sub_0_r in H. Qed.

(** On a buffer as [createBuffer] makes it, the search for a character
    of the table finds its leaf and leaves its path, reversed, in the
    buffer. *)
Lemma symbol_encoding root tab i x e :
  htree root → leaves root ≡ₚ table_entries tab →
  0 ≤ i → tab !! Z.to_nat i = Some x → x ≠ 0 →
  buf e = createBuffer (treeHeight root) →
  ∃ p tr,
    path_to root p (mkNode x i NULL NULL) ∧
    Z.of_nat (length p) ≤ treeHeight root ∧
    Forall (event_within (Z.of_nat (length p))) tr ∧
    findEncoding root i e
    = Ret (mkNode x i NULL NULL,
           mkEnc (Z.of_nat (length p))
             (mkBuffer (reverse (bit <$> p)
                        ++ NUL :: replicate (Z.to_nat (treeHeight root) - length p) NUL)
                (size (buf e)))
             (tr ++ trace e)).
Proof.
  intros Hh Hleaves Hi Hx Hx0 Hbuf.
  assert (Hin : (i, x) ∈ leaves root).
  { rewrite Hleaves. by apply table_entry. }
  destruct (find_path_leaf _ _ _ Hh Hin) as [[p m] Hfind].
  destruct (find_path_path_to _ _ _ _ Hfind) as [Hpath Hc].
  pose proof (path_to_htree _ _ _ Hpath Hh) as Hm.
  destruct (htree_char _ _ Hm Hc) as (f & -> & _); [unfold PNODE; lia|].
  assert (f = x) as ->.
  { pose proof (path_to_leaf _ _ _ _ Hpath Hh) as Hf.
    rewrite Hleaves in Hf. apply table_entry_inv in Hf. congruence. }
  pose proof (path_to_height _ _ _ Hpath) as Hheight.
  pose proof (findEncoding_find_path root i e) as Hfe. rewrite Hfind in Hfe.
  rewrite Hbuf in Hfe. simpl in Hfe. rewrite length_replicate in Hfe.
  destruct Hfe as (tr & Hfe & Htr); [lia|].
  exists p, tr. split; [done|]. split; [done|]. split; [done|].
  rewrite Hfe, Hbuf. simpl. do 5 f_equal.
  rewrite drop_replicate.
  replace (Z.to_nat (treeHeight root + 1) - length p)%nat
    with (S (Z.to_nat (treeHeight root) - length p)) by lia.
  done.
Qed.

(** ** The shape of the tree *)

Lemma htree_full n :
  htree n → Forall (λ m, children m = 0%nat ∨ children m = 2%nat) (nodes n).
Proof.
  induction 1 as [f c Hc Hf|l r Hl IHl Hr IHr].
  - simpl. repeat constructor.
  - unfold parent_of. simpl nodes. constructor.
    + right. simpl.
      rewrite !bool_decide_eq_false_2; [done|by apply htree_node..].
    + by apply Forall_app.
Qed.

(** The path to a leaf is not the beginning of the path to another node. *)
Lemma path_to_prefix n p1 m1 :
  path_to n p1 m1 → ∀ p2 m2 f c,
  m1 = mkNode f c NULL NULL → path_to n p2 m2 → p1 `prefix_of` p2 → m2 = m1.
Proof.
  induction 1 as [n Hn|f' c' l r p m Hp IH|f' c' l r p m Hp IH];
    intros p2 m2 f c Hm Hp2 Hpre.
  - subst n. inversion Hp2; subst; [done|..];
      exfalso; eapply path_from_NULL; eassumption.
  - destruct Hpre as [k ->]. inversion Hp2; subst.
    eapply IH; [done..|]. by exists k.
  - destruct Hpre as [k ->]. inversion Hp2; subst.
    eapply IH; [done..|]. by exists k.
Qed.

#[global] Instance bit_inj : Inj (=) (=) bit.
Proof. by intros [] []. Qed.

Lemma bits_prefix p1 p2 :
  (bit <$> p1) `prefix_of` (bit <$> p2) → p1 `prefix_of` p2.
Proof.
  intros [k Hk]. apply fmap_app_inv in Hk as (l1 & l2 & H1 & _ & ->).
  apply (inj (fmap bit)) in H1 as ->. by exists l2.
Qed.

Lemma entries_from_NoDup i l : NoDup (entries_from i l).
Proof.
  revert i. induction l as [|x l IH]; intros i; simpl; [constructor|].
  case_bool_decide; [|done]. constructor; [|done].
  intros (Hi & _)%elem_of_entries_from. lia.
Qed.

(** With every character at one leaf only, a leaf has one path. *)
Lemma path_to_unique n :
  htree n → NoDup (leaves n) → ∀ p p' f c,
  path_to n p (mkNode f c NULL NULL) → path_to n p' (mkNode f c NULL NULL) →
  p = p'.
Proof.
  induction 1 as [f0 c0 Hc Hf|l r Hl IHl Hr IHr]; intros Hnd p p' f c Hp Hp'.
  - inversion Hp; subst; inversion Hp'; subst; try done;
      exfalso; eapply path_from_NULL; eassumption.
  - rewrite leaves_parent in Hnd by (by apply htree_node).
    apply NoDup_app in Hnd as (Hndl & Hdisj & Hndr).
    unfold parent_of in *.
    inversion Hp as [n Hn Heq|?????? Hq|?????? Hq]; subst.
    { apply htree_node in Hl. by destruct Hl. }
    all: inversion Hp' as [n' Hn' Heq'|?????? Hq'|?????? Hq']; subst.
    all: try (apply htree_node in Hl; by destruct Hl).
    + f_equal. eauto.
    + exfalso. eapply Hdisj; eapply path_to_leaf; eauto.
    + exfalso. eapply Hdisj; eapply path_to_leaf; eauto.
    + f_equal. eauto.
Qed.

(** ** The report *)

(** One character that occurs, in the loop of [printHuffman]: it gets its
    line and the buffer is all NUL again afterwards. *)
Lemma printSymbol_entry root tab i x r :
  htree root → leaves root ≡ₚ table_entries tab →
  0 ≤ i → tab !! Z.to_nat i = Some x → x ≠ 0 →
  buf (r_enc r) = createBuffer (treeHeight root) →
  ∃ r' l, printSymbol tab root i r = Ret r' ∧
          buf (r_enc r') = createBuffer (treeHeight root) ∧
          r_lines r' = r_lines r ++ [l] ∧ line_of root l (i, x).
Proof.
  intros Hh Hl Hi Hx Hx0 Hbuf.
  destruct (symbol_encoding root tab i x (r_enc r))
    as (p & tr & Hpath & Hheight & Htr & Hfe); try done.
  unfold printSymbol. rewrite (aget_Some _ _ x) by done.
  cbn [mbind outcome_bind obind].
  rewrite bool_decide_eq_true_2 by done.
  rewrite Hfe. cbn [mbind outcome_bind obind]. simpl buf. simpl str.
  pose proof (no_nul_bits (reverse p)) as Hnn. rewrite fmap_reverse in Hnn.
  rewrite reverseString_app by done. cbn [mbind outcome_bind obind c_of freq_of].
  rewrite reverse_involutive.
  rewrite strlen_app by apply no_nul_bits. cbn [mbind outcome_bind obind].
  rewrite memset0_app. cbn [mbind outcome_bind obind].
  eexists _, _. split; [reflexivity|]. simpl.
  split; [|split; [reflexivity|]].
  - rewrite Hbuf. unfold createBuffer. simpl. f_equal.
    rewrite length_fmap.
    change (NUL :: replicate (Z.to_nat (treeHeight root) - length p) NUL)
      with (replicate (S (Z.to_nat (treeHeight root) - length p)) NUL).
    rewrite <- replicate_add. f_equal. lia.
  - rewrite cstring_app, length_fmap by apply no_nul_bits. by exists p.
Qed.

Lemma printSymbol_absent root tab i r :
  0 ≤ i → tab !! Z.to_nat i = Some 0 → printSymbol tab root i r = Ret r.
Proof.
  intros Hi Hx. unfold printSymbol. rewrite (aget_Some _ _ 0) by done.
  cbn [mbind outcome_bind obind]. by rewrite bool_decide_eq_false_2 by lia.
Qed.

(** The loop of [printHuffman] over a part [l] of the table. *)
Lemma printHuffman_loop root l : ∀ pre suf r,
  htree root → leaves root ≡ₚ table_entries (pre ++ l ++ suf) →
  buf (r_enc r) = createBuffer (treeHeight root) →
  ∃ r' new,
    for_loop (length l) (Z.of_nat (length pre))
      (printSymbol (pre ++ l ++ suf) root) r = Ret r' ∧
    buf (r_enc r') = createBuffer (treeHeight root) ∧
    r_lines r' = r_lines r ++ new ∧
    Forall2 (line_of root) new (entries_from (Z.of_nat (length pre)) l).
Proof.
  induction l as [|x l IH]; intros pre suf r Hh Hl Hbuf.
  - exists r, []. simpl. rewrite app_nil_r. done.
  - assert (Hx : (pre ++ (x :: l) ++ suf) !! Z.to_nat (Z.of_nat (length pre)) = Some x).
    { rewrite Nat2Z.id, lookup_app_r by lia.
      by replace (length pre - length pre)%nat with 0%nat by lia. }
    specialize (IH (pre ++ [x]) suf).
    rewrite length_app in IH. simpl length in IH.
    replace (Z.of_nat (length pre + 1)) with (Z.of_nat (length pre) + 1) in IH by lia.
    rewrite <- app_assoc in IH. simpl app in IH.
    change (length (x :: l)) with (S (length l)).
    cbn [for_loop entries_from].
    case_bool_decide as Hx0.
    + destruct (printSymbol_entry root (pre ++ (x :: l) ++ suf)
                  (Z.of_nat (length pre)) x r)
        as (r1 & ln & Hstep & Hbuf1 & Hlines1 & Hline); try done; [lia|].
      destruct (IH r1 Hh Hl Hbuf1) as (r' & new & Hloop & Hbuf' & Hlines' & Hnew).
      exists r', (ln :: new).
      rewrite Hstep. cbn [mbind outcome_bind obind].
      split; [exact Hloop|]. split; [done|]. split.
      * rewrite Hlines', Hlines1, <- app_assoc. done.
      * by constructor.
    + subst x.
      destruct (IH r Hh Hl Hbuf) as (r' & new & Hloop & Hbuf' & Hlines' & Hnew).
      exists r', new.
      rewrite printSymbol_absent by (done || lia). cbn [mbind outcome_bind obind].
      done.
Qed.

(** [printHuffman], on the tree of a table, reports one line for each
    character that occurs, in the order of the table. *)
Lemma printHuffman_report root tab :
  Z.of_nat (length tab) = ASIZE →
  htree root → leaves root ≡ₚ table_entries tab →
  ∃ lines bytes,
    printHuffman tab root = Ret (lines, bytes) ∧
    Forall2 (line_of root) lines (table_entries tab).
Proof.
  intros Hlen Hh Hl. unfold printHuffman.
  destruct (printHuffman_loop root tab [] []
              {| r_enc := {| cnt := 0; buf := createBuffer (treeHeight root);
                             trace := [] |};
                 r_bits := 0; r_lines := [] |})
    as (r' & new & Hloop & _ & Hlines & Hnew); try done.
  { by rewrite app_nil_r. }
  rewrite app_nil_r in Hloop. simpl in Hloop.
  replace (Z.to_nat ASIZE) with (length tab) by lia.
  change (Z.of_nat 0) with 0 in Hloop.
  rewrite Hloop. cbn [mbind outcome_bind obind].
  eexists _, _. split; [reflexivity|]. simpl in Hlines. by rewrite Hlines.
Qed.

(** ** Counting the characters of a file *)

Lemma sumZ_lookup_le (l : list Z) (k : nat) x :
  Forall (λ x, 0 ≤ x) l → l !! k = Some x → x ≤ sumZ l.
Proof.
  intros Hl. revert k. induction Hl as [|y l Hy Hl IH]; intros k; [done|].
  assert (0 ≤ sumZ l) by (clear -Hl; induction Hl; simpl; lia).
  destruct k as [|k]; simpl.
  - intros [= ->]. lia.
  - intros Hk. specialize (IH k Hk). lia.
Qed.

Lemma sumZ_insert (l : list Z) (k : nat) x y :
  l !! k = Some x → sumZ (<[k := y]> l) = sumZ l - x + y.
Proof.
  revert k. induction l as [|z l IH]; intros k; [done|].
  destruct k as [|k]; simpl.
  - intros [= ->]. lia.
  - intros Hk. rewrite (IH k Hk). lia.
Qed.

(** Counting a text of ASCII characters, short enough for every count to
    be an [int], stays inside the table and adds to the count of each
    character the number of times it occurs. *)
Lemma count_chars_ascii bytes : ∀ tab,
  Z.of_nat (length tab) = ASIZE →
  Forall (λ x, 0 ≤ x) tab →
  sumZ tab + Z.of_nat (length bytes) ≤ INT_MAX →
  Forall (λ b, char_of b < ASIZE) bytes →
  ∃ tab',
    count_chars tab bytes = Ret tab' ∧
    Z.of_nat (length tab') = ASIZE ∧
    Forall (λ x, 0 ≤ x) tab' ∧
    sumZ tab' = sumZ tab + Z.of_nat (length bytes) ∧
    ∀ c : nat, tab' !! c = (λ x, x + count_in bytes (Z.of_nat c)) <$> tab !! c.
Proof.
  induction bytes as [|b bytes IH]; intros tab Hlen Hpos Hsum Hascii.
  - exists tab. split; [done|]. split; [done|]. split; [done|].
    split; [simpl; lia|]. intros c. unfold count_in. simpl.
    destruct (tab !! c); simpl; [f_equal; lia|done].
  - apply Forall_cons in Hascii as [Hb Hascii]. simpl in Hsum.
    assert (Hc : 0 ≤ char_of b) by (unfold char_of; lia).
    destruct (lookup_lt_is_Some_2 tab (Z.to_nat (char_of b))) as [x Hx]; [lia|].
    pose proof (sumZ_lookup_le _ _ _ Hpos Hx) as Hle.
    assert (H0 : 0 ≤ x) by (eapply Forall_lookup_1 in Hpos; eauto).
    simpl count_chars. unfold count_char. fold (char_of b).
    rewrite (aget_Some _ _ x) by done. cbn [mbind outcome_bind obind].
    rewrite wrap_int_small by (unfold INT_MAX in *; lia).
    unfold aset. rewrite bool_decide_eq_true_2 by lia.
    cbn [mbind outcome_bind obind].
    destruct (IH (<[Z.to_nat (char_of b) := x + 1]> tab))
      as (tab' & Hcount & Hlen' & Hpos' & Hsum' & Hlook).
    { by rewrite length_insert. }
    { apply Forall_insert; [done|lia]. }
    { rewrite (sumZ_insert _ _ x) by done. lia. }
    { done. }
    exists tab'. split; [done|]. split; [done|]. split; [done|]. split.
    { rewrite Hsum', (sumZ_insert _ _ x) by done. simpl. lia. }
    intros c. rewrite Hlook. unfold count_in. rewrite filter_cons.
    destruct (decide (c = Z.to_nat (char_of b))) as [->|Hne].
    + rewrite list_lookup_insert_eq by lia. rewrite Hx. simpl.
      rewrite decide_True by lia. simpl. f_equal. lia.
    + rewrite list_lookup_insert_ne by done.
      rewrite decide_False by lia. done.
Qed.

Lemma sumZ_replicate n : sumZ (replicate n 0) = 0.
Proof. induction n as [|n IH]; simpl; lia. Qed.

(** The table that [getFreqsFromFile] gives [main] for a text of ASCII
    characters of at most [INT_MAX] bytes. *)
Lemma getFreqsFromFile_ascii bytes :
  Z.of_nat (length bytes) ≤ INT_MAX →
  Forall (λ b, char_of b < ASIZE) bytes →
  ∃ tab,
    getFreqsFromFile 2 (Some bytes) (replicate (Z.to_nat ASIZE) 0) = Ret tab ∧
    Z.of_nat (length tab) = ASIZE ∧
    Forall (λ x, 0 ≤ x) tab ∧
    sumZ tab = Z.of_nat (length bytes) ∧
    ∀ c, 0 ≤ c < ASIZE → tab !! Z.to_nat c = Some (count_in bytes c).
Proof.
  intros Hlen Hascii.
  destruct (count_chars_ascii bytes (replicate (Z.to_nat ASIZE) 0))
    as (tab & Hcount & Hl & Hpos & Hsum & Hlook); try done.
  { apply Forall_replicate. lia. }
  exists tab. split; [done|]. split; [done|]. split; [done|]. split.
  { rewrite Hsum, sumZ_replicate. lia. }
  intros c Hc. rewrite Hlook, lookup_replicate_2 by (unfold ASIZE in *; lia).
  simpl. f_equal. rewrite Z2Nat.id by lia. lia.
Qed.

(** ** The whole program *)

(** On a text of ASCII characters, at least two of them different, of at
    most [INT_MAX] bytes, [main] reports one line for each character of
    the text, with its path in the tree and its count, after allocating
    the leaves and one parent less. *)
Lemma main_ascii_text qsort bytes tab w :
  sorts_nodes qsort →
  Z.of_nat (length bytes) ≤ INT_MAX →
  Forall (λ b, char_of b < ASIZE) bytes →
  getFreqsFromFile 2 (Some bytes) (replicate (Z.to_nat ASIZE) 0) = Ret tab →
  2 ≤ symbolCount tab →
  ∃ root lines nbytes,
    main qsort 2 (Some bytes) w
    = (Ret (lines, nbytes),
       mkWorld (mallocs w + Z.to_nat (symbolCount tab)
                + (Z.to_nat (symbolCount tab) - 1))) ∧
    htree root ∧
    leaves root ≡ₚ table_entries tab ∧
    Forall2 (line_of root) lines (table_entries tab).
Proof.
  intros Hqsort Hlen Hascii Hfile Hsym.
  destruct (getFreqsFromFile_ascii bytes Hlen Hascii)
    as (tab' & Hfile' & Hsize & Hpos & Hsum & _).
  rewrite Hfile in Hfile'. injection Hfile' as <-.
  assert (Hvalid : valid_table tab) by (split; [done|done|lia|done]).
  destruct (Hqsort (table_leaves tab) (symbolCount tab))
    as (na' & Hsort & Hperm & Hsorted); [apply leaves_from_node|].
  assert (Hindex : sorted_index tab w (mkIndex na' (symbolCount tab))
                     (mkWorld (mallocs w + Z.to_nat (symbolCount tab)))).
  { exists (table_leaves tab). simpl. split.
    - rewrite calcNodeCnt_table by done. by rewrite bool_decide_eq_false_2 by lia.
    - split; [by apply createNodeIndex_table|done]. }
  destruct (built_tree _ _ _ _ Hvalid Hindex) as (root & index' & w' & Hpop & Hh & Hl & Hmallocs).
  destruct w' as [k]. simpl in Hmallocs. subst k.
  destruct (printHuffman_report root tab Hsize Hh Hl) as (lines & nbytes & Hprint & Hlines).
  exists root, lines, nbytes. split; [|done].
  unfold main.
  erewrite Mbind_Ret; [|unfold lift; by rewrite Hfile].
  erewrite Mbind_Ret.
  2: { unfold lift. rewrite calcNodeCnt_table by done.
       by rewrite bool_decide_eq_false_2 by lia. }
  erewrite Mbind_Ret; [|by apply createNodeIndex_table].
  erewrite Mbind_Ret; [|unfold lift; by rewrite Hsort].
  erewrite Mbind_Ret; [|exact Hpop].
  unfold lift. by rewrite Hprint.
Qed.

(** ** The contract of getInsertionPoint *)

Lemma filter_below (key : Z) (l1 l2 : list node) :
  Forall (λ n, nfreq n < key) l1 → Forall (λ n, key < nfreq n) l2 →
  filter (λ n, nfreq n < key) (l1 ++ l2) = l1.
Proof.
  intros H1 H2. rewrite filter_app.
  replace (filter (λ n, nfreq n < key) l2) with (@nil node).
  - rewrite app_nil_r. induction H1 as [|x l Hx _ IH]; [done|].
    rewrite filter_cons. case_decide; [|done]. by rewrite IH.
  - induction H2 as [|x l Hx _ IH]; [done|].
    rewrite filter_cons. case_decide; [lia|done].
Qed.

Lemma index_split (index : nodeIndex) (start : Z) :
  0 ≤ start ≤ len index → len index = Z.of_nat (length (a index)) →
  index = mkIndex (take (Z.to_nat start) (a index) ++ searched index start)
            (Z.of_nat (length (take (Z.to_nat start) (a index) ++ searched index start))) ∧
  start = Z.of_nat (length (take (Z.to_nat start) (a index))).
Proof.
  intros Hs Hlen. unfold searched. rewrite take_drop, length_take.
  destruct index as [l n]. simpl in *. split; [by subst n|lia].
Qed.

(** * Properties of the specification *)

(** ** The examples are well formed *)

Lemma example_table_valid : valid_table example_table.
Proof. apply (bool_decide_unpack _). vm_compute. exact I. Defined.

Lemma example_index_sorted :
  sorted_index example_table (mkWorld 0) example_index (mkWorld 6).
Proof.
  exists (a example_index). split; [reflexivity|]. split; [reflexivity|].
  split; [reflexivity|]. apply (bool_decide_unpack _). vm_compute. exact I.
Defined.

Lemma example_index_frontier : frontier (a example_index).
Proof. apply (bool_decide_unpack _). vm_compute. exact I. Defined.

Example single_file_table :
  getFreqsFromFile 2 (Some single_file) (replicate (Z.to_nat ASIZE) 0)
  = Ret single_table.
Proof. reflexivity. Qed.

(** C1 (frequency conservation).  For every valid frequency table with
    at least two characters, and whatever order [qsort] leaves equal
    frequencies in: after each of the merge steps of [populateTree] (the
    first [k] iterations, for every [k] up to the last) the frequencies
    of the entries still to be merged, those at the indices [k] to
    [len - 1], add up to the sum of the table; and the frequency of the
    root that [populateTree] returns is that sum. *)
Theorem frequency_conservation tab w0 index w :
  valid_table tab → sorted_index tab w0 index w →
  (∀ k : nat, Z.of_nat k ≤ symbolCount tab - 1 →
     ∃ index_k w_k, after_merges k index w = (Ret index_k, w_k) ∧
                    total (live_range k index_k) = sumZ tab) ∧
  (∃ root index' w', populateTree index w = (Ret (root, index'), w') ∧
                     freq_of root = Ret (sumZ tab)).
Proof.
  intros Hvalid Hindex.
  destruct (sorted_index_table _ _ _ _ Hvalid Hindex) as (Hlen & Hperm & Hsorted & _).
  destruct (table_frontier _ _ Hvalid Hperm Hsorted) as (Hf & Hl & Ht).
  pose proof (symbolCount_le tab) as Hle. pose proof (vt_size _ Hvalid) as Hsize.
  pose proof (vt_symbols _ Hvalid) as Hsym. unfold ASIZE in Hsize.
  destruct index as [l n]. simpl in *. subst n. rewrite <- Hl in *.
  split.
  - intros k Hk.
    destruct (after_merges_frontier k l w) as (live' & Hm & Hloop); [done|lia|lia|].
    eexists _, _. split; [exact Hloop|].
    rewrite live_range_after by (by apply merges_length).
    rewrite (merges_total _ _ _ Hm). done.
  - destruct (populateTree_frontier l w) as (root & Hm & Hpop); [done|lia|lia|].
    eexists _, _, _. split; [exact Hpop|].
    pose proof (merges_total _ _ _ Hm) as Hroot.
    pose proof (merges_frontier _ _ _ Hf Hm) as [Hnode _ _ _].
    apply Forall_cons in Hnode as [Hnode _].
    rewrite freq_of_nfreq by done. f_equal. simpl in Hroot. lia.
Qed.

Lemma frequency_conservation_witness :
  (∃ index_k w_k, after_merges 2 example_index (mkWorld 6) = (Ret index_k, w_k) ∧
                  total (live_range 2 index_k) = sumZ example_table) ∧
  (∃ root index' w', populateTree example_index (mkWorld 6) = (Ret (root, index'), w') ∧
                     freq_of root = Ret (sumZ example_table)).
Proof.
  destruct (frequency_conservation example_table (mkWorld 0) example_index (mkWorld 6)
              example_table_valid example_index_sorted) as [Hk Hroot].
  split; [|exact Hroot].
  apply (Hk 2%nat). vm_compute. discriminate.
Defined.

(** C2 (number of merge steps).  For every valid frequency table with at
    least two characters, the loop of [populateTree] makes exactly
    [symbolCount - 1] merge steps: that many iterations run, each of
    them allocates its one parent, and they take the sorted array to an
    array whose only node is the root, in the last place; this root is
    what [populateTree] returns. *)
Theorem merge_step_count tab w0 index w :
  valid_table tab → sorted_index tab w0 index w →
  let steps := (Z.to_nat (symbolCount tab) - 1)%nat in
  ∃ root,
    is_node root ∧
    nsteps merge steps (a index) [root] ∧
    after_merges steps index w
    = (Ret (mkIndex (replicate steps NULL ++ [root]) (symbolCount tab)),
       mkWorld (mallocs w + steps)) ∧
    populateTree index w
    = (Ret (root, mkIndex (replicate steps NULL ++ [root]) (symbolCount tab)),
       mkWorld (mallocs w + steps)).
Proof.
  intros Hvalid Hindex steps.
  destruct (sorted_index_table _ _ _ _ Hvalid Hindex) as (Hlen & Hperm & Hsorted & _).
  destruct (table_frontier _ _ Hvalid Hperm Hsorted) as (Hf & Hl & Ht).
  pose proof (symbolCount_le tab) as Hle. pose proof (vt_size _ Hvalid) as Hsize.
  pose proof (vt_symbols _ Hvalid) as Hsym. unfold ASIZE in Hsize.
  destruct index as [l n]. simpl in *. subst n.
  assert (Hsteps : steps = (length l - 1)%nat) by (unfold steps; lia).
  rewrite Hsteps, <- Hl.
  destruct (populateTree_frontier l w) as (root & Hm & Hpop); [done|lia|lia|].
  exists root.
  pose proof (merges_frontier _ _ _ Hf Hm) as [Hnode _ _ _].
  apply Forall_cons in Hnode as [Hnode _].
  split; [done|]. split; [done|]. split; [|done].
  destruct (after_merges_frontier (length l - 1) l w) as (live' & Hm' & Hloop);
    [done|lia|lia|].
  rewrite Hloop. do 3 f_equal.
  rewrite populateTree_after_merges in Hpop.
  erewrite Mbind_Ret in Hpop.
  2: { simpl len. replace (Z.to_nat (Z.of_nat (length l) - 1)) with (length l - 1)%nat by lia.
       exact Hloop. }
  pose proof (merges_length _ _ _ Hm') as Hl'.
  destruct live' as [|r [|??]]; simpl in Hl'; try lia.
  unfold mbind, M_bind, Mbind, lift in Hpop. simpl a in Hpop. simpl len in Hpop.
  replace (Z.of_nat (length l) - 1) with
    (Z.of_nat (length (replicate (length l - 1) NULL))) in Hpop.
  2: { rewrite length_replicate. lia. }
  rewrite aget_middle in Hpop. injection Hpop as ->. done.
Qed.

Lemma merge_step_count_witness :
  ∃ root,
    is_node root ∧
    nsteps merge 5 (a example_index) [root] ∧
    after_merges 5 example_index (mkWorld 6)
    = (Ret (mkIndex (replicate 5 NULL ++ [root]) 6), mkWorld 11) ∧
    populateTree example_index (mkWorld 6)
    = (Ret (root, mkIndex (replicate 5 NULL ++ [root]) 6), mkWorld 11).
Proof.
  exact (merge_step_count example_table (mkWorld 0) example_index (mkWorld 6)
           example_table_valid example_index_sorted).
Defined.

(** C3 (sortedness).  Starting from a frontier (nodes of positive
    frequency, sorted ascending, whose frequencies add up within an
    [int]) in an array of at most 2^30 entries: at every iteration
    boundary of the loop of [populateTree], that is after the first [k]
    iterations for every [k] up to the last, the entries at the indices
    [k] to [len - 1] are nodes sorted ascending by frequency. *)
Theorem sortedness_preserved index w (k : nat) :
  frontier (a index) →
  len index = Z.of_nat (length (a index)) → len index ≤ 2 ^ 30 →
  Z.of_nat k ≤ len index - 1 →
  ∃ index_k w_k,
    after_merges k index w = (Ret index_k, w_k) ∧
    len index_k = len index ∧
    Z.of_nat (length (live_range k index_k)) = len index - Z.of_nat k ∧
    Forall is_node (live_range k index_k) ∧
    StronglySorted freq_le (live_range k index_k).
Proof.
  intros Hf Hlen Hsmall Hk. destruct index as [l n]. simpl in *. subst n.
  destruct (after_merges_frontier k l w) as (live' & Hm & Hloop); [done|lia|lia|].
  pose proof (merges_length _ _ _ Hm) as Hl.
  pose proof (merges_frontier _ _ _ Hf Hm) as [Hnode _ Hsorted _].
  eexists _, _. split; [exact Hloop|].
  rewrite live_range_after by done.
  split; [done|]. split; [lia|]. done.
Qed.

Lemma sortedness_preserved_witness :
  ∃ index_k w_k,
    after_merges 3 example_index (mkWorld 6) = (Ret index_k, w_k) ∧
    len index_k = 6 ∧
    Z.of_nat (length (live_range 3 index_k)) = 6 - 3 ∧
    Forall is_node (live_range 3 index_k) ∧
    StronglySorted freq_le (live_range 3 index_k).
Proof.
  apply (sortedness_preserved example_index (mkWorld 6) 3 example_index_frontier);
    [reflexivity | vm_compute; discriminate | vm_compute; discriminate].
Defined.

(** C4, as stated, fails: with the frequencies 2, 3, 5, 5, 5 sorted and
    the key 5 (the sum of the first two), some entry equals the key and
    [getInsertionPoint] returns 2, the first middle that matches, although
    a node of frequency 5 belongs at 4 as well, where the rightmost entry
    equal to the key is. *)
Lemma getInsertionPoint_not_rightmost :
  StronglySorted freq_le (searched tie_index 0) ∧
  Exists (λ n, nfreq n = 5) (searched tie_index 0) ∧
  getInsertionPoint 5 tie_index 0 = Ret 2 ∧
  belongs_at 5 tie_index 0 4 ∧ freq_at tie_index 4 = 5 ∧
  ¬ (∀ q, belongs_at 5 tie_index 0 q → q ≤ 2).
Proof.
  assert (Hb : belongs_at 5 tie_index 0 4).
  { split; [simpl; lia|]. split; apply (bool_decide_unpack _); vm_compute; exact I. }
  split; [apply (bool_decide_unpack _); vm_compute; exact I|].
  split; [apply (bool_decide_unpack _); vm_compute; exact I|].
  split; [reflexivity|]. split; [done|]. split; [reflexivity|].
  intros H. specialize (H 4 Hb). lia.
Qed.

(** C4, amended.  For every array of at most 2^30 entries whose entries
    from [start] to [len - 1] are nodes sorted ascending by frequency,
    and every key, [getInsertionPoint] returns; if some searched entry
    has the frequency [key], the result is the index of such an entry
    (one that the bisection meets, not always the rightmost); if none
    has, the result is [low - 1], where [low] is the lower bound of the
    key: the searched entries up to the result are below the key and
    those after it are above. *)
Theorem getInsertionPoint_contract key index start :
  0 ≤ start ≤ len index →
  len index = Z.of_nat (length (a index)) → len index ≤ 2 ^ 30 →
  Forall is_node (searched index start) →
  StronglySorted freq_le (searched index start) →
  ∃ ip, getInsertionPoint key index start = Ret ip ∧
    (Exists (λ n, nfreq n = key) (searched index start) →
       start ≤ ip ≤ len index - 1 ∧ freq_at index ip = key ∧
       belongs_at key index start ip) ∧
    (¬ Exists (λ n, nfreq n = key) (searched index start) →
       ip = low key index start - 1 ∧
       Forall (λ n, nfreq n < key)
         (take (Z.to_nat (ip + 1 - start)) (searched index start)) ∧
       Forall (λ n, key < nfreq n)
         (drop (Z.to_nat (ip + 1 - start)) (searched index start))).
Proof.
  intros Hs Hlen Hsmall Hnode Hsorted.
  destruct (index_split index start Hs Hlen) as [Hidx Hstart].
  unfold low, belongs_at.
  set (live := searched index start) in *.
  set (pre := take (Z.to_nat start) (a index)) in *.
  assert (Hl : len index = Z.of_nat (length (pre ++ live))) by (by rewrite Hidx).
  destruct (getInsertionPoint_split pre live key Hnode Hsorted)
    as (l1 & l2 & Heq & Hip & Hcase); [lia|].
  rewrite <- Hidx, <- Hstart in Hip.
  eexists. split; [exact Hip|].
  destruct (split_bounds _ _ _ _ Hsorted Heq Hcase) as [Hle Hge].
  assert (Htake : take (Z.to_nat (start + Z.of_nat (length l1) - 1 + 1 - start)) live = l1).
  { rewrite Heq. apply take_app_length'. lia. }
  assert (Hdrop : drop (Z.to_nat (start + Z.of_nat (length l1) - 1 + 1 - start)) live = l2).
  { rewrite Heq. apply drop_app_length'. lia. }
  rewrite Htake, Hdrop.
  assert (Hll : length live = (length l1 + length l2)%nat).
  { by rewrite Heq, length_app. }
  rewrite length_app in Hl.
  destruct Hcase as [(l1' & m & -> & Hm)|[Hlt Hgt]].
  - split.
    + intros _. rewrite length_app in *. simpl in *.
      split; [lia|]. split; [|split; [lia|done]].
      rewrite Hidx.
      replace (start + Z.of_nat (length l1' + 1) - 1)
        with (Z.of_nat (length pre + length l1')) by lia.
      rewrite <- Hm. apply freq_at_app.
      rewrite Heq, <- app_assoc. rewrite lookup_app_r by lia.
      by replace (length l1' - length l1')%nat with 0%nat by lia.
    + intros Hno. destruct Hno. rewrite Heq.
      apply Exists_app. left. apply Exists_app. right. by constructor.
  - split.
    + intros Hex. rewrite Heq in Hex. apply Exists_app in Hex as [Hex|Hex].
      * apply Exists_exists in Hex as (n & Hin & Hn).
        rewrite Forall_forall in Hlt. specialize (Hlt n Hin). simpl in Hlt. lia.
      * apply Exists_exists in Hex as (n & Hin & Hn).
        rewrite Forall_forall in Hgt. specialize (Hgt n Hin). simpl in Hgt. lia.
    + intros _. split; [|done].
      rewrite Heq, filter_below by done. lia.
Qed.

Lemma getInsertionPoint_contract_witness :
  (∃ ip, getInsertionPoint 5 tie_index 0 = Ret ip ∧
         0 ≤ ip ≤ len tie_index - 1 ∧ freq_at tie_index ip = 5 ∧
         belongs_at 5 tie_index 0 ip) ∧
  (∃ ip, getInsertionPoint 4 tie_index 0 = Ret ip ∧
         ip = low 4 tie_index 0 - 1 ∧
         Forall (λ n, nfreq n < 4)
           (take (Z.to_nat (ip + 1 - 0)) (searched tie_index 0)) ∧
         Forall (λ n, 4 < nfreq n)
           (drop (Z.to_nat (ip + 1 - 0)) (searched tie_index 0))).
Proof.
  assert (Hnode : Forall is_node (searched tie_index 0)).
  { apply (bool_decide_unpack _). vm_compute. exact I. }
  assert (Hsorted : StronglySorted freq_le (searched tie_index 0)).
  { apply (bool_decide_unpack _). vm_compute. exact I. }
  split.
  - destruct (getInsertionPoint_contract 5 tie_index 0) as (ip & Hip & Hmatch & _);
      [simpl; lia | reflexivity | simpl; lia | exact Hnode | exact Hsorted |].
    exists ip. split; [exact Hip|]. apply Hmatch.
    apply (bool_decide_unpack _). vm_compute. exact I.
  - destruct (getInsertionPoint_contract 4 tie_index 0) as (ip & Hip & _ & Hnone);
      [simpl; lia | reflexivity | simpl; lia | exact Hnode | exact Hsorted |].
    exists ip. split; [exact Hip|]. apply Hnone.
    apply (bool_decide_unpack _). vm_compute. exact I.
Defined.

(** C5 (the encoding is the path).  For every valid table and the tree
    that [populateTree] returns for it, and every character [i] of the
    table (its count [x] is not zero): on a buffer as [printHuffman]
    keeps it, [findEncoding] returns the leaf of [i], never [NULL], and
    after [reverseString] the string in the buffer is the path from the
    root to that leaf, the only one, with the character 0 for a descent
    to the left and 1 for a descent to the right; its length is the
    number of descents, the depth of the leaf. *)
Theorem encoding_is_path tab w0 index w :
  valid_table tab → sorted_index tab w0 index w →
  ∃ root index' w',
    populateTree index w = (Ret (root, index'), w') ∧
    ∀ i x e,
      0 ≤ i → tab !! Z.to_nat i = Some x → x ≠ 0 →
      buf e = createBuffer (treeHeight root) →
      ∃ p e' s,
        findEncoding root i e = Ret (mkNode x i NULL NULL, e') ∧
        reverseString (str (buf e')) = Ret s ∧
        path_to root p (mkNode x i NULL NULL) ∧
        (∀ p', path_to root p' (mkNode x i NULL NULL) → p' = p) ∧
        cstring s = bit <$> p ∧
        strlen s = Ret (Z.of_nat (length p)).
Proof.
  intros Hvalid Hindex.
  destruct (built_tree _ _ _ _ Hvalid Hindex) as (root & index' & w' & Hpop & Hh & Hl & Hmallocs).
  exists root, index', w'. split; [done|].
  intros i x e Hi Hx Hx0 Hbuf.
  destruct (symbol_encoding root tab i x e) as (p & tr & Hpath & Hheight & Htr & Hfe);
    try done.
  eexists p, _, _. split; [exact Hfe|]. simpl.
  pose proof (no_nul_bits (reverse p)) as Hnn. rewrite fmap_reverse in Hnn.
  split; [by apply reverseString_app|].
  rewrite reverse_involutive.
  split; [done|]. split.
  - intros p' Hp'. eapply path_to_unique; eauto.
    rewrite Hl. apply entries_from_NoDup.
  - split.
    + apply cstring_app, no_nul_bits.
    + rewrite strlen_app by apply no_nul_bits. by rewrite length_fmap.
Qed.

Lemma encoding_is_path_witness :
  ∃ root index' w',
    populateTree example_index (mkWorld 6) = (Ret (root, index'), w') ∧
    ∃ p e' s,
      findEncoding root 65 (mkEnc 0 (createBuffer (treeHeight root)) [])
      = Ret (mkNode 5 65 NULL NULL, e') ∧
      reverseString (str (buf e')) = Ret s ∧
      path_to root p (mkNode 5 65 NULL NULL) ∧
      (∀ p', path_to root p' (mkNode 5 65 NULL NULL) → p' = p) ∧
      cstring s = bit <$> p ∧
      strlen s = Ret (Z.of_nat (length p)).
Proof.
  destruct (encoding_is_path example_table (mkWorld 0) example_index (mkWorld 6)
              example_table_valid example_index_sorted)
    as (root & index' & w' & Hpop & Henc).
  exists root, index', w'. split; [exact Hpop|].
  apply (Henc 65 5); [lia | reflexivity | lia | reflexivity].
Defined.

(** C6 (prefix-freeness).  For every valid table, every node of the tree
    that [populateTree] returns has no child or two children; and for
    two different characters of the table, the encoding that
    [findEncoding] and [reverseString] leave in the buffer for the one is
    not a prefix of the encoding for the other. *)
Theorem prefix_free tab w0 index w :
  valid_table tab → sorted_index tab w0 index w →
  ∃ root index' w',
    populateTree index w = (Ret (root, index'), w') ∧
    Forall (λ m, children m = 0%nat ∨ children m = 2%nat) (nodes root) ∧
    ∀ i x ei j y ej,
      0 ≤ i → tab !! Z.to_nat i = Some x → x ≠ 0 →
      0 ≤ j → tab !! Z.to_nat j = Some y → y ≠ 0 →
      i ≠ j →
      buf ei = createBuffer (treeHeight root) →
      buf ej = createBuffer (treeHeight root) →
      ∃ ni ei' si nj ej' sj,
        findEncoding root i ei = Ret (ni, ei') ∧
        reverseString (str (buf ei')) = Ret si ∧
        findEncoding root j ej = Ret (nj, ej') ∧
        reverseString (str (buf ej')) = Ret sj ∧
        ¬ cstring si `prefix_of` cstring sj.
Proof.
  intros Hvalid Hindex.
  destruct (built_tree _ _ _ _ Hvalid Hindex) as (root & index' & w' & Hpop & Hh & Hl & Hmallocs).
  exists root, index', w'. split; [done|]. split; [by apply htree_full|].
  intros i x ei j y ej Hi Hx Hx0 Hj Hy Hy0 Hij Hbi Hbj.
  destruct (symbol_encoding root tab i x ei) as (pi & tri & Hpi & _ & _ & Hfi);
    try done.
  destruct (symbol_encoding root tab j y ej) as (pj & trj & Hpj & _ & _ & Hfj);
    try done.
  eexists _, _, _, _, _, _. split; [exact Hfi|].
  pose proof (no_nul_bits (reverse pi)) as Hni. rewrite fmap_reverse in Hni.
  pose proof (no_nul_bits (reverse pj)) as Hnj. rewrite fmap_reverse in Hnj.
  simpl. split; [by apply reverseString_app|].
  split; [exact Hfj|]. simpl. split; [by apply reverseString_app|].
  rewrite !reverse_involutive, !cstring_app by apply no_nul_bits.
  intros Hpre%bits_prefix.
  pose proof (path_to_prefix _ _ _ Hpi _ _ _ _ eq_refl Hpj Hpre) as Heq.
  by simplify_eq.
Qed.

Lemma prefix_free_witness :
  ∃ root index' w',
    populateTree example_index (mkWorld 6) = (Ret (root, index'), w') ∧
    Forall (λ m, children m = 0%nat ∨ children m = 2%nat) (nodes root) ∧
    ∃ ni ei' si nj ej' sj,
      findEncoding root 65 (mkEnc 0 (createBuffer (treeHeight root)) [])
      = Ret (ni, ei') ∧
      reverseString (str (buf ei')) = Ret si ∧
      findEncoding root 70 (mkEnc 0 (createBuffer (treeHeight root)) [])
      = Ret (nj, ej') ∧
      reverseString (str (buf ej')) = Ret sj ∧
      ¬ cstring si `prefix_of` cstring sj.
Proof.
  destruct (prefix_free example_table (mkWorld 0) example_index (mkWorld 6)
              example_table_valid example_index_sorted)
    as (root & index' & w' & Hpop & Hfull & Henc).
  exists root, index', w'. split; [exact Hpop|]. split; [exact Hfull|].
  apply (Henc 65 5 _ 70 45);
    [lia | reflexivity | lia | lia | reflexivity | lia | lia
     | reflexivity | reflexivity].
Defined.

(** C7 (too few characters).  For every table of [ASIZE] counts of which
    fewer than two are not zero, [calcNodeCnt] ends the program with
    [EXIT_FAILURE] and the message of too few nodes; and [main], on a
    file with this table, ends that way with the world as it was: no
    node, leaf or parent, has been allocated. *)
Theorem too_few_nodes tab :
  Z.of_nat (length tab) = ASIZE → symbolCount tab < 2 →
  calcNodeCnt tab
  = Exit EXIT_FAILURE ("ERROR: too few nodes to build tree" +:+ nl) ∧
  ∀ qsort argc file w,
    getFreqsFromFile argc file (replicate (Z.to_nat ASIZE) 0) = Ret tab →
    main qsort argc file w
    = (Exit EXIT_FAILURE ("ERROR: too few nodes to build tree" +:+ nl), w).
Proof.
  intros Hlen Hcnt.
  assert (Hcalc : calcNodeCnt tab
                  = Exit EXIT_FAILURE ("ERROR: too few nodes to build tree" +:+ nl)).
  { rewrite calcNodeCnt_table by done. by rewrite bool_decide_eq_true_2. }
  split; [done|].
  intros qsort argc file w Hfile. unfold main.
  unfold mbind at 1, M_bind, Mbind, lift. rewrite Hfile.
  unfold mbind at 1. rewrite Hcalc. done.
Qed.

Lemma too_few_nodes_witness :
  calcNodeCnt single_table
  = Exit EXIT_FAILURE ("ERROR: too few nodes to build tree" +:+ nl) ∧
  main (λ na _ _, Ret na) 2 (Some single_file) (mkWorld 0)
  = (Exit EXIT_FAILURE ("ERROR: too few nodes to build tree" +:+ nl), mkWorld 0).
Proof.
  destruct (too_few_nodes single_table) as [Hcalc Hmain];
    [reflexivity | vm_compute; reflexivity |].
  split; [exact Hcalc|]. apply Hmain. reflexivity.
Defined.

(** C8, as stated, fails: the two characters 65 and 233, once each, are
    byte values from 0 to 255 with positive counts, yet the program does
    not build a tree for them.  Counting the byte 233 writes outside the
    array of [ASIZE] = 128 ints, so that [main] on such a file has no
    defined behaviour; and [calcNodeCnt], which reads the [ASIZE] first
    counts only, ends on a table of 256 counts with these two characters
    with the message of too few nodes.  With a third character, B, the
    table is accepted as one of two characters and the character 233
    gets no leaf. *)
Lemma byte_above_ascii_not_accepted :
  symbolCount wide_table = 2 ∧
  Forall (λ x, 0 ≤ x) wide_table ∧
  count_chars (replicate (Z.to_nat ASIZE) 0) latin1_file = Undef ∧
  (∀ qsort w, main qsort 2 (Some latin1_file) w = (Undef, w)) ∧
  calcNodeCnt wide_table
  = Exit EXIT_FAILURE ("ERROR: too few nodes to build tree" +:+ nl) ∧
  symbolCount wide_table3 = 3 ∧
  calcNodeCnt wide_table3 = Ret 2 ∧
  createNodeIndex wide_table3 2 (mkWorld 0)
  = (Ret [mkNode 1 65 NULL NULL; mkNode 1 66 NULL NULL], mkWorld 2).
Proof.
  split; [reflexivity|].
  split; [apply (bool_decide_unpack _); vm_compute; exact I|].
  split; [reflexivity|]. split; [intros qsort w; reflexivity|].
  split; [reflexivity|]. split; [reflexivity|]. split; reflexivity.
Qed.

(** C8, amended.  For every table of [ASIZE] = 128 counts, one for each
    character from 0 to 127, none negative, at least two of them
    positive, with a sum within an [int]: [calcNodeCnt] accepts it and
    returns the number of characters that occur, [createNodeIndex] makes
    their leaves, and, however the leaves are sorted by frequency,
    [populateTree] returns a tree whose leaves are exactly the
    characters that occur, with their counts; [printHuffman] reports a
    line with the encoding of each of them, and [findEncoding] with
    [reverseString] produces that encoding on the clean buffer. *)
Theorem ascii_table_accepted tab w0 :
  valid_table tab →
  calcNodeCnt tab = Ret (symbolCount tab) ∧
  ∃ w,
    createNodeIndex tab (symbolCount tab) w0 = (Ret (table_leaves tab), w) ∧
    ∀ index,
      len index = symbolCount tab →
      a index ≡ₚ table_leaves tab →
      StronglySorted freq_le (a index) →
      ∃ root index' w',
        populateTree index w = (Ret (root, index'), w') ∧
        leaves root ≡ₚ table_entries tab ∧
        (∃ lines nbytes,
           printHuffman tab root = Ret (lines, nbytes) ∧
           Forall2 (line_of root) lines (table_entries tab)) ∧
        ∀ i x e,
          0 ≤ i → tab !! Z.to_nat i = Some x → x ≠ 0 →
          buf e = createBuffer (treeHeight root) →
          ∃ p e' s,
            findEncoding root i e = Ret (mkNode x i NULL NULL, e') ∧
            reverseString (str (buf e')) = Ret s ∧
            path_to root p (mkNode x i NULL NULL) ∧
            cstring s = bit <$> p.
Proof.
  intros Hvalid. pose proof (vt_size _ Hvalid) as Hsize.
  pose proof (vt_symbols _ Hvalid) as Hsym.
  assert (Hcalc : calcNodeCnt tab = Ret (symbolCount tab)).
  { rewrite calcNodeCnt_table by done. by rewrite bool_decide_eq_false_2 by lia. }
  split; [done|].
  eexists. split; [by apply createNodeIndex_table|].
  intros index Hlen Hperm Hsorted.
  assert (Hindex : sorted_index tab w0 index
                     (mkWorld (mallocs w0 + Z.to_nat (symbolCount tab)))).
  { exists (table_leaves tab). rewrite Hlen. split; [done|].
    split; [by apply createNodeIndex_table|done]. }
  destruct (built_tree _ _ _ _ Hvalid Hindex)
    as (root & index' & w' & Hpop & Hh & Hl & _).
  exists root, index', w'. split; [done|]. split; [done|].
  split; [by apply printHuffman_report|].
  intros i x e Hi Hx Hx0 Hbuf.
  destruct (symbol_encoding root tab i x e) as (p & tr & Hpath & Hheight & Htr & Hfe);
    try done.
  eexists p, _, _. split; [exact Hfe|]. simpl.
  pose proof (no_nul_bits (reverse p)) as Hnn. rewrite fmap_reverse in Hnn.
  split; [by apply reverseString_app|]. split; [done|].
  rewrite reverse_involutive. apply cstring_app, no_nul_bits.
Qed.

Lemma ascii_table_accepted_witness :
  calcNodeCnt example_table = Ret (symbolCount example_table) ∧
  ∃ w,
    createNodeIndex example_table (symbolCount example_table) (mkWorld 0)
    = (Ret (table_leaves example_table), w) ∧
    ∃ root index' w',
      populateTree example_index w = (Ret (root, index'), w') ∧
      leaves root ≡ₚ table_entries example_table ∧
      (∃ lines nbytes,
         printHuffman example_table root = Ret (lines, nbytes) ∧
         Forall2 (line_of root) lines (table_entries example_table)) ∧
      ∃ p e' s,
        findEncoding root 70 (mkEnc 0 (createBuffer (treeHeight root)) [])
        = Ret (mkNode 45 70 NULL NULL, e') ∧
        reverseString (str (buf e')) = Ret s ∧
        path_to root p (mkNode 45 70 NULL NULL) ∧
        cstring s = bit <$> p.
Proof.
  destruct (ascii_table_accepted example_table (mkWorld 0) example_table_valid)
    as (Hcalc & w & Hidx & Hbuild).
  split; [exact Hcalc|]. exists w. split; [exact Hidx|].
  destruct (Hbuild example_index) as (root & index' & w' & Hpop & Hl & Hrep & Henc).
  - reflexivity.
  - reflexivity.
  - apply (bool_decide_unpack _). vm_compute. exact I.
  - exists root, index', w'. split; [exact Hpop|]. split; [exact Hl|].
    split; [exact Hrep|].
    apply (Henc 70 45); [lia | reflexivity | lia | reflexivity].
Defined.

(** C9 (range of the insertion point).  In an iteration of the loop of
    [populateTree] ([start + 1 <= len - 1]) on an array of at most 2^30
    entries whose entries from [start] to [len - 1] are nodes of positive
    frequency sorted ascending, the two first of which add up within an
    [int]: [getInsertionPoint], called with that sum, returns a value
    from [start + 1] to [len - 1]; the iteration then runs without an
    access outside the array, which keeps its length; the parent is at
    the insertion point afterwards; and the nodes that were live after
    the two children are all still there, in their order, with the
    parent among them. *)
Theorem insertion_point_in_range index start w :
  0 ≤ start → start + 1 ≤ len index - 1 →
  len index = Z.of_nat (length (a index)) → len index ≤ 2 ^ 30 →
  Forall is_node (searched index start) →
  Forall (λ n, 0 < nfreq n) (searched index start) →
  StronglySorted freq_le (searched index start) →
  freq_at index start + freq_at index (start + 1) ≤ INT_MAX →
  let key := freq_at index start + freq_at index (start + 1) in
  ∃ ip parent index',
    getInsertionPoint key index start = Ret ip ∧
    start + 1 ≤ ip ≤ len index - 1 ∧
    mergeStep start index w = (Ret index', bump w) ∧
    len index' = len index ∧
    length (a index') = length (a index) ∧
    a index' !! Z.to_nat ip = Some parent ∧
    freq_of parent = Ret key ∧
    ∃ l1 l2,
      searched index (start + 2) = l1 ++ l2 ∧
      searched index' (start + 1) = l1 ++ parent :: l2 ∧
      ip = start + 1 + Z.of_nat (length l1).
Proof.
  intros Hs Hiter Hlen Hsmall Hnode Hpos Hsorted Hsum key. subst key.
  destruct index as [l n]. unfold searched in *. simpl in *. subst n.
  pose proof (take_drop (Z.to_nat start) l) as Hl.
  assert (Hstart : start = Z.of_nat (length (take (Z.to_nat start) l))).
  { rewrite length_take. lia. }
  set (pre := take (Z.to_nat start) l) in *. clearbody pre.
  destruct (drop (Z.to_nat start) l) as [|x [|y rest]] eqn:Hlive.
  1,2: subst l; rewrite length_app in Hiter; simpl in Hiter; lia.
  clear Hlive. subst l start.
  pose proof (freq_at_app pre (x :: y :: rest)
                (Z.of_nat (length (pre ++ x :: y :: rest))) 0 x eq_refl) as Hfx.
  pose proof (freq_at_app pre (x :: y :: rest)
                (Z.of_nat (length (pre ++ x :: y :: rest))) 1 y eq_refl) as Hfy.
  rewrite Nat.add_0_r in Hfx.
  replace (Z.of_nat (length pre + 1)) with (Z.of_nat (length pre) + 1) in Hfy by lia.
  rewrite Hfx, Hfy in *.
  rewrite length_app in *.
  destruct (mergeStep_frontier pre x y rest w)
    as (l1 & l2 & Hrest & Hl1 & Hl2 & Hip & Hstep); try done.
  set (shifted := bool_decide (l1 ≠ [])) in *.
  pose proof (vacated_length pre shifted) as Hv.
  eexists _, (parent_of x y), _. split; [exact Hip|].
  assert (Hlen2 : length rest = (length l1 + length l2)%nat).
  { by rewrite Hrest, length_app. }
  split; [simpl in *; lia|]. split; [exact Hstep|]. split; [done|].
  simpl a. split.
  { rewrite !length_app, Hv. simpl. lia. }
  split.
  { rewrite app_assoc.
    replace (Z.to_nat (Z.of_nat (length pre + 1 + length l1)))
      with (length (vacated pre shifted ++ l1) + 0)%nat.
    2: { rewrite length_app, Hv. lia. }
    by rewrite lookup_app_r, Nat.add_sub' by lia. }
  split; [done|].
  exists l1, l2. split; [|split; [|lia]].
  - rewrite (cons_middle x), (cons_middle y), !app_assoc, <- Hrest.
    apply drop_app_length'. rewrite !length_app. simpl. lia.
  - apply drop_app_length'. rewrite Hv. lia.
Qed.

Lemma insertion_point_in_range_witness :
  ∃ ip parent index',
    getInsertionPoint 14 example_index 0 = Ret ip ∧
    0 + 1 ≤ ip ≤ len example_index - 1 ∧
    mergeStep 0 example_index (mkWorld 6) = (Ret index', bump (mkWorld 6)) ∧
    len index' = len example_index ∧
    length (a index') = length (a example_index) ∧
    a index' !! Z.to_nat ip = Some parent ∧
    freq_of parent = Ret 14 ∧
    ∃ l1 l2,
      searched example_index (0 + 2) = l1 ++ l2 ∧
      searched index' (0 + 1) = l1 ++ parent :: l2 ∧
      ip = 0 + 1 + Z.of_nat (length l1).
Proof.
  apply (insertion_point_in_range example_index 0 (mkWorld 6)).
  - lia.
  - simpl. lia.
  - reflexivity.
  - simpl. lia.
  - apply (bool_decide_unpack _). vm_compute. exact I.
  - apply (bool_decide_unpack _). vm_compute. exact I.
  - apply (bool_decide_unpack _). vm_compute. exact I.
  - vm_compute. discriminate.
Defined.

(** C10 (the buffer is large enough).  For every valid table, the tree
    that [populateTree] returns for it and every character of the table,
    on the buffer of [treeHeight root + 1] bytes that [createBuffer]
    makes and whatever [cnt] holds on entry: every value that
    [findEncoding] gives to [cnt] is at most the depth of the leaf of the
    character, which is at most [treeHeight root]; every write
    [b->str[cnt++]] is at an index below that depth, so within the
    buffer; [cnt] ends at the depth; and the buffer keeps its size and
    still holds a string that ends in NUL, of that length. *)
Theorem encoding_within_buffer tab w0 index w :
  valid_table tab → sorted_index tab w0 index w →
  ∃ root index' w',
    populateTree index w = (Ret (root, index'), w') ∧
    ∀ i x e,
      0 ≤ i → tab !! Z.to_nat i = Some x → x ≠ 0 →
      buf e = createBuffer (treeHeight root) →
      ∃ p e' tr,
        findEncoding root i e = Ret (mkNode x i NULL NULL, e') ∧
        path_to root p (mkNode x i NULL NULL) ∧
        Z.of_nat (length p) ≤ treeHeight root ∧
        trace e' = tr ++ trace e ∧
        (∀ v, SetCnt v ∈ tr → 0 ≤ v ≤ Z.of_nat (length p)) ∧
        (∀ k ch, WriteStr k ch ∈ tr →
           0 ≤ k < Z.of_nat (length p) ∧
           k < Z.of_nat (length (str (buf e)))) ∧
        cnt e' = Z.of_nat (length p) ∧
        Z.of_nat (length (str (buf e'))) = treeHeight root + 1 ∧
        strlen (str (buf e')) = Ret (Z.of_nat (length p)) ∧
        last (str (buf e')) = Some NUL.
Proof.
  intros Hvalid Hindex.
  destruct (built_tree _ _ _ _ Hvalid Hindex) as (root & index' & w' & Hpop & Hh & Hl & Hmallocs).
  exists root, index', w'. split; [done|].
  intros i x e Hi Hx Hx0 Hbuf.
  destruct (symbol_encoding root tab i x e) as (p & tr & Hpath & Hheight & Htr & Hfe);
    try done.
  eexists p, _, tr. split; [exact Hfe|]. simpl.
  pose proof (no_nul_bits (reverse p)) as Hnn. rewrite fmap_reverse in Hnn.
  rewrite Forall_forall in Htr.
  split; [done|]. split; [done|]. split; [done|]. split.
  { intros v Hv. apply (Htr _ Hv). }
  split.
  { intros k ch Hk. pose proof (Htr _ Hk) as Hw. simpl in Hw.
    rewrite Hbuf. simpl. rewrite length_replicate. lia. }
  split; [done|]. split.
  { rewrite length_app, length_reverse, length_fmap. simpl.
    rewrite length_replicate. lia. }
  split.
  { rewrite strlen_app by done. by rewrite length_reverse, length_fmap. }
  rewrite last_app. simpl.
  destruct (Z.to_nat (treeHeight root) - length p)%nat as [|k] eqn:E; [done|].
  rewrite replicate_S_end, last_cons, last_snoc. done.
Qed.

Lemma encoding_within_buffer_witness :
  ∃ root index' w',
    populateTree example_index (mkWorld 6) = (Ret (root, index'), w') ∧
    ∃ p e' tr,
      findEncoding root 66 (mkEnc 7 (createBuffer (treeHeight root)) [])
      = Ret (mkNode 9 66 NULL NULL, e') ∧
      path_to root p (mkNode 9 66 NULL NULL) ∧
      Z.of_nat (length p) ≤ treeHeight root ∧
      trace e' = tr ++ [] ∧
      (∀ v, SetCnt v ∈ tr → 0 ≤ v ≤ Z.of_nat (length p)) ∧
      (∀ k ch, WriteStr k ch ∈ tr →
         0 ≤ k < Z.of_nat (length p) ∧
         k < Z.of_nat (length (str (createBuffer (treeHeight root))))) ∧
      cnt e' = Z.of_nat (length p) ∧
      Z.of_nat (length (str (buf e'))) = treeHeight root + 1 ∧
      strlen (str (buf e')) = Ret (Z.of_nat (length p)) ∧
      last (str (buf e')) = Some NUL.
Proof.
  destruct (encoding_within_buffer example_table (mkWorld 0) example_index (mkWorld 6)
              example_table_valid example_index_sorted)
    as (root & index' & w' & Hpop & Henc).
  exists root, index', w'. split; [exact Hpop|].
  apply (Henc 66 9 (mkEnc 7 (createBuffer (treeHeight root)) []));
    [lia | reflexivity | lia | reflexivity].
Defined.

(** * Further properties of the program *)

(** ** Strings *)

Lemma strlen_no_nul s : no_nul s → strlen s = Undef.
Proof.
  induction 1 as [|ch s Hch _ IH]; simpl; [done|].
  rewrite bool_decide_eq_false_2 by done. by rewrite IH.
Qed.

(** X1 (reverseString).  On a buffer that holds a string [w] before its
    first NUL, [reverseString] reverses [w] in place and leaves the NUL
    and all that follows as they were, so that reversing twice gives the
    buffer back; a string of no character, or of one, is left as it is.
    On an array with no NUL at all the length is sought past its end. *)
Theorem reverseString_reverses w rest :
  no_nul w →
  reverseString (w ++ NUL :: rest) = Ret (reverse w ++ NUL :: rest) ∧
  (s ← reverseString (w ++ NUL :: rest); reverseString s) = Ret (w ++ NUL :: rest) ∧
  ((length w ≤ 1)%nat → reverseString (w ++ NUL :: rest) = Ret (w ++ NUL :: rest)) ∧
  reverseString w = Undef.
Proof.
  intros Hw.
  assert (Hr : no_nul (reverse w)).
  { unfold no_nul in *. by rewrite Forall_reverse. }
  split; [by apply reverseString_app|]. split; [|split].
  - rewrite reverseString_app by done. cbn [mbind outcome_bind obind].
    rewrite reverseString_app by done. by rewrite reverse_involutive.
  - intros Hlen. rewrite reverseString_app by done.
    destruct w as [|x [|y w]]; simpl in Hlen; [done|done|lia].
  - unfold reverseString. by rewrite strlen_no_nul.
Qed.

Lemma reverseString_reverses_witness :
  reverseString ("a" :: "b" :: "c" :: NUL :: ["x"; NUL])%char
  = Ret ("c" :: "b" :: "a" :: NUL :: ["x"; NUL])%char.
Proof.
  refine (proj1 (reverseString_reverses ["a"; "b"; "c"]%char ["x"; NUL]%char _)).
  apply (bool_decide_unpack _). vm_compute. exact I.
Defined.

(** ** The height of a tree *)

Lemma treeHeight_node f c l r : 0 ≤ treeHeight (mkNode f c l r).
Proof.
  simpl. pose proof (treeHeight_lower l). pose proof (treeHeight_lower r).
  case_bool_decide; lia.
Qed.

Lemma treeHeight_NULL n : treeHeight n = -1 → n = NULL.
Proof.
  destruct n as [|f c l r]; [done|].
  pose proof (treeHeight_node f c l r). lia.
Qed.

(** X2 (treeHeight).  The height of a tree that is not empty is the
    length of its longest path: no path from the root is longer, and one
    path of that length leads to a node without children. *)
Theorem treeHeight_longest_path n :
  n ≠ NULL →
  (∀ p m, path_to n p m → Z.of_nat (length p) ≤ treeHeight n) ∧
  ∃ p m, path_to n p m ∧ Z.of_nat (length p) = treeHeight n ∧ children m = 0%nat.
Proof.
  intros Hn. split; [intros p m; apply path_to_height|].
  induction n as [|f c l IHl r IHr]; [done|]. clear Hn.
  destruct (decide (treeHeight l > treeHeight r)) as [Hlr|Hlr].
  - assert (Hl : l ≠ NULL).
    { intros ->. pose proof (treeHeight_lower r). simpl in Hlr. lia. }
    destruct (IHl Hl) as (p & m & Hp & Hlen & Hm).
    exists (false :: p), m. split; [by constructor|]. split; [|done].
    simpl treeHeight. rewrite bool_decide_eq_true_2 by done. simpl length. lia.
  - destruct (decide (r = NULL)) as [->|Hr].
    + assert (l = NULL) as ->.
      { apply treeHeight_NULL. pose proof (treeHeight_lower l). simpl in Hlr. lia. }
      exists [], (mkNode f c NULL NULL). split; [by constructor|]. done.
    + destruct (IHr Hr) as (p & m & Hp & Hlen & Hm).
      exists (true :: p), m. split; [by constructor|]. split; [|done].
      simpl treeHeight. rewrite bool_decide_eq_false_2 by done. simpl length. lia.
Qed.

Lemma treeHeight_longest_path_witness :
  (∀ p m, path_to (parent_of (mkNode 1 97 NULL NULL) (mkNode 2 98 NULL NULL)) p m →
          Z.of_nat (length p) ≤ 1) ∧
  ∃ p m, path_to (parent_of (mkNode 1 97 NULL NULL) (mkNode 2 98 NULL NULL)) p m ∧
         Z.of_nat (length p) = 1 ∧ children m = 0%nat.
Proof.
  apply (treeHeight_longest_path
           (parent_of (mkNode 1 97 NULL NULL) (mkNode 2 98 NULL NULL))).
  discriminate.
Defined.

Lemma treeHeight_max f c l r :
  treeHeight (mkNode f c l r) = Z.max (treeHeight l) (treeHeight r) + 1.
Proof. simpl. case_bool_decide; lia. Qed.

Lemma htree_leaves_length n : htree n → (1 ≤ length (leaves n))%nat.
Proof.
  induction 1 as [f c Hc Hf|l r Hl IHl Hr IHr]; [simpl; lia|].
  rewrite leaves_parent, length_app by (by apply htree_node). lia.
Qed.

Lemma htree_height_leaves n :
  htree n → treeHeight n + 1 ≤ Z.of_nat (length (leaves n)).
Proof.
  induction 1 as [f c Hc Hf|l r Hl IHl Hr IHr]; [simpl; lia|].
  rewrite leaves_parent, length_app by (by apply htree_node).
  pose proof (htree_leaves_length _ Hl). pose proof (htree_leaves_length _ Hr).
  unfold parent_of. rewrite treeHeight_max. lia.
Qed.

Lemma htree_height_parent n :
  htree n → (2 ≤ length (leaves n))%nat → 1 ≤ treeHeight n.
Proof.
  intros [f c Hc Hf|l r Hl Hr]; [simpl; lia|]. intros _.
  pose proof (htree_node _ Hl) as Hnl. pose proof (htree_node _ Hr) as Hnr.
  destruct l as [|fl cl ll rl]; [done|]. destruct r as [|fr cr lr rr]; [done|].
  pose proof (treeHeight_node fl cl ll rl). pose proof (treeHeight_node fr cr lr rr).
  unfold parent_of. rewrite treeHeight_max. lia.
Qed.

Lemma entries_from_length i l : Z.of_nat (length (entries_from i l)) = symbolCount l.
Proof. rewrite <- leaves_of_leaves_from, <- (leaves_from_length i l).
  f_equal. revert i. induction l as [|x l IH]; intros i; [done|].
  simpl. case_bool_decide; [|done]. rewrite leaves_of_cons. simpl. by rewrite IH.
Qed.

(** X3 (the buffer of printHuffman).  For every valid table, the tree
    that [populateTree] returns has a height from 1 to the number of
    characters less one, so at most [ASIZE - 1]; the buffer that
    [printHuffman] takes from [createBuffer] for it holds that height
    plus one NUL characters, and its [short] field [size] is that number,
    without wrap-around. *)
Theorem buffer_of_tree tab w0 index w :
  valid_table tab → sorted_index tab w0 index w →
  ∃ root index' w',
    populateTree index w = (Ret (root, index'), w') ∧
    1 ≤ treeHeight root ≤ symbolCount tab - 1 ∧
    symbolCount tab ≤ ASIZE ∧
    str (createBuffer (treeHeight root))
    = replicate (Z.to_nat (treeHeight root + 1)) NUL ∧
    size (createBuffer (treeHeight root)) = treeHeight root + 1.
Proof.
  intros Hvalid Hindex.
  destruct (built_tree _ _ _ _ Hvalid Hindex)
    as (root & index' & w' & Hpop & Hh & Hl & _).
  exists root, index', w'. split; [done|].
  pose proof (htree_height_leaves _ Hh) as Hup.
  pose proof (Permutation_length Hl) as Hlen.
  pose proof (entries_from_length 0 tab) as He. fold (table_entries tab) in He.
  pose proof (vt_symbols _ Hvalid). pose proof (vt_size _ Hvalid) as Hsize.
  pose proof (symbolCount_le tab).
  assert (1 ≤ treeHeight root) by (apply htree_height_parent; [done|lia]).
  split; [lia|]. split; [lia|]. split; [done|].
  unfold createBuffer, wrap_short. simpl. unfold ASIZE in *.
  rewrite Z.mod_small; lia.
Qed.

Lemma buffer_of_tree_witness :
  ∃ root index' w',
    populateTree example_index (mkWorld 6) = (Ret (root, index'), w') ∧
    1 ≤ treeHeight root ≤ symbolCount example_table - 1 ∧
    symbolCount example_table ≤ ASIZE ∧
    str (createBuffer (treeHeight root))
    = replicate (Z.to_nat (treeHeight root + 1)) NUL ∧
    size (createBuffer (treeHeight root)) = treeHeight root + 1.
Proof.
  exact (buffer_of_tree example_table (mkWorld 0) example_index (mkWorld 6)
           example_table_valid example_index_sorted).
Defined.

(** ** The format string *)

Lemma string_length_app s1 s2 :
  String.length (s1 +:+ s2) = (String.length s1 + String.length s2)%nat.
Proof. induction s1 as [|ch s1 IH]; simpl; [done|]. by rewrite IH. Qed.

Lemma string_app_assoc (s1 s2 s3 : string) :
  (s1 +:+ s2) +:+ s3 = s1 +:+ s2 +:+ s3.
Proof.
  induction s1 as [|ch s1 IH]; [done|].
  change (String ch ((s1 +:+ s2) +:+ s3) = String ch (s1 +:+ s2 +:+ s3)).
  by rewrite IH.
Qed.

Lemma pretty_N_go_length (k : nat) : ∀ x s,
  (x < 10 ^ N.of_nat k)%N →
  (String.length (pretty_N_go x s) ≤ String.length s + k)%nat.
Proof.
  induction k as [|k IH]; intros x s Hx.
  - assert (x = 0%N) as -> by (simpl in Hx; lia). rewrite pretty_N_go_0. lia.
  - destruct (decide (x = 0%N)) as [->|Hx0]; [rewrite pretty_N_go_0; lia|].
    rewrite pretty_N_go_step by lia.
    etrans; [apply IH|simpl; lia].
    rewrite Nat2N.inj_succ, N.pow_succ_r' in Hx.
    apply N.Div0.div_lt_upper_bound. lia.
Qed.

Lemma pretty_short_length (x : Z) :
  - 2 ^ 15 ≤ x < 2 ^ 15 → (String.length (pretty x) ≤ 6)%nat.
Proof.
  intros Hx. unfold pretty, pretty_Z.
  destruct x as [|p|p]; [simpl; lia|..].
  - unfold pretty, pretty_positive, pretty, pretty_N.
    case_decide; [simpl; lia|].
    pose proof (pretty_N_go_length 5 (N.pos p) "") as H5. simpl in H5.
    assert (N.pos p < 100000)%N by lia. specialize (H5 ltac:(done)). lia.
  - rewrite string_length_app. simpl.
    unfold pretty, pretty_positive, pretty, pretty_N.
    case_decide; [simpl; lia|].
    pose proof (pretty_N_go_length 5 (N.pos p) "") as H5. simpl in H5.
    assert (N.pos p < 100000)%N by lia. specialize (H5 ltac:(done)). lia.
Qed.

(** X4 (setFormatString).  For a node that carries a character (a value
    of [unsigned char]) and a buffer whose [size] is a [short],
    [setFormatString] never writes past the [FORMATSTRLEN] characters of
    the format string: it returns a format of at most 29 characters,
    which shows the character as itself when it is printable and as
    three digits otherwise, and sets the width of the encoding to
    [size]. *)
Theorem setFormatString_fits n b c :
  c_of n = Ret c → 0 ≤ c ≤ 255 → - 2 ^ 15 ≤ size b < 2 ^ 15 →
  ∃ formatstr,
    setFormatString n b = Ret formatstr ∧
    Z.of_nat (String.length formatstr) + 1 ≤ 30 ∧
    formatstr
    = (if bool_decide (32 ≤ c ≤ 126) then "'%c' :%" else "%03d :%")
      +:+ pretty (size b) +:+ "s" +:+ " (%3lu * %4d)" +:+ nl.
Proof.
  intros Hc Hrange Hsize. unfold setFormatString. rewrite Hc.
  cbn [mbind outcome_bind obind]. unfold isprint.
  rewrite bool_decide_eq_true_2 by lia. cbn [mbind outcome_bind obind].
  pose proof (pretty_short_length (size b) Hsize) as Hlen.
  destruct (decide (32 ≤ c ≤ 126)) as [Hp|Hp].
  - rewrite !(bool_decide_eq_true_2 (32 ≤ c ≤ 126)) by done. cbn [negb].
    unfold into_formatstr.
    rewrite bool_decide_eq_true_2
      by (rewrite !string_length_app; simpl; unfold FORMATSTRLEN; lia).
    cbn [mbind outcome_bind obind].
    rewrite bool_decide_eq_true_2
      by (rewrite !string_length_app; simpl; unfold FORMATSTRLEN; lia).
    eexists. split; [reflexivity|].
    split; [rewrite !string_length_app; simpl; lia|].
    by rewrite !string_app_assoc.
  - rewrite !(bool_decide_eq_false_2 (32 ≤ c ≤ 126)) by done. cbn [negb].
    unfold into_formatstr.
    rewrite bool_decide_eq_true_2
      by (rewrite !string_length_app; simpl; unfold FORMATSTRLEN; lia).
    cbn [mbind outcome_bind obind].
    rewrite bool_decide_eq_true_2
      by (rewrite !string_length_app; simpl; unfold FORMATSTRLEN; lia).
    eexists. split; [reflexivity|].
    split; [rewrite !string_length_app; simpl; lia|].
    by rewrite !string_app_assoc.
Qed.

Lemma setFormatString_fits_witness :
  ∃ formatstr,
    setFormatString (mkNode 5 65 NULL NULL) (createBuffer 4) = Ret formatstr ∧
    Z.of_nat (String.length formatstr) + 1 ≤ 30 ∧
    formatstr = "'%c' :%5s (%3lu * %4d)" +:+ nl.
Proof.
  destruct (setFormatString_fits (mkNode 5 65 NULL NULL) (createBuffer 4) 65)
    as (formatstr & Hrun & Hlen & Hfmt).
  - reflexivity.
  - lia.
  - vm_compute. split; [discriminate|reflexivity].
  - exists formatstr. split; [exact Hrun|]. split; [exact Hlen|].
    rewrite Hfmt. vm_compute. reflexivity.
Defined.

(** ** The release of the tree *)

Lemma freeNodes_nodes n : freeNodes n ≡ₚ nodes n.
Proof.
  induction n as [|f c l IHl r IHr]; [done|].
  cbn [freeNodes nodes]. rewrite IHl, IHr.
  rewrite app_assoc. symmetry. apply Permutation_cons_append.
Qed.

Lemma freeNodes_last n : n ≠ NULL → last (freeNodes n) = Some n.
Proof.
  destruct n as [|f c l r]; [done|]. intros _.
  cbn [freeNodes]. rewrite app_assoc. apply last_snoc.
Qed.

Lemma freeNodes_subtree n : ∀ pre m post,
  freeNodes n = pre ++ m :: post → ∃ pre', pre ++ [m] = pre' ++ freeNodes m.
Proof.
  induction n as [|f c l IHl r IHr]; intros pre m post Hfree.
  { by destruct pre. }
  cbn [freeNodes] in Hfree.
  apply app_eq_app in Hfree as [k [[Hl Hpost]|[Hpre Hr]]].
  - destruct k as [|m' k].
    + simpl in Hpost. rewrite app_nil_r in Hl. subst pre.
      destruct (freeNodes r) as [|m' k] eqn:Hfr.
      * injection Hpost as -> _. exists []. cbn [freeNodes]. by rewrite Hfr.
      * injection Hpost as <- _. destruct (IHr [] m k eq_refl) as [pre' Hpre'].
        exists (freeNodes l ++ pre'). by rewrite <- !app_assoc, <- Hpre'.
    + injection Hpost as <- _. by apply (IHl pre m k).
  - apply app_eq_app in Hr as [k' [[Hr Hpost]|[Hk Hn]]].
    + destruct k' as [|m' k'].
      * injection Hpost as -> _. exists []. rewrite app_nil_r in Hr. subst.
        cbn [freeNodes]. by rewrite <- !app_assoc.
      * injection Hpost as <- _. destruct (IHr k m k' Hr) as [pre' Hpre'].
        exists (freeNodes l ++ pre'). subst pre. by rewrite <- !app_assoc, Hpre'.
    + destruct k' as [|m' k'].
      * injection Hn as <- _. exists []. rewrite app_nil_r in Hk. subst.
        cbn [freeNodes]. by rewrite <- !app_assoc.
      * injection Hn as _ Hn. by destruct k'.
Qed.

Lemma htree_nodes_length n :
  htree n → length (nodes n) = (2 * length (leaves n) - 1)%nat.
Proof.
  induction 1 as [f c Hc Hf|l r Hl IHl Hr IHr]; [done|].
  pose proof (htree_leaves_length _ Hl). pose proof (htree_leaves_length _ Hr).
  rewrite leaves_parent by (by apply htree_node).
  unfold parent_of. cbn [nodes length]. rewrite !length_app. lia.
Qed.

(** X5 (freeNodes).  [freeNodes] frees every node of a tree once, each
    one right after the nodes of its two subtrees, and the root last.
    At the end of [main] this gives back all the nodes that
    [createNodeIndex] and [populateTree] took: as many calls of [free]
    as there were allocations, twice the number of characters less
    one. *)
Theorem freeNodes_releases tab w0 index w :
  valid_table tab → sorted_index tab w0 index w →
  ∃ root index' w',
    populateTree index w = (Ret (root, index'), w') ∧
    freeNodes root ≡ₚ nodes root ∧
    last (freeNodes root) = Some root ∧
    (∀ pre m post, freeNodes root = pre ++ m :: post →
       ∃ pre', pre ++ [m] = pre' ++ freeNodes m) ∧
    length (freeNodes root) = (mallocs w' - mallocs w0)%nat ∧
    Z.of_nat (length (freeNodes root)) = 2 * symbolCount tab - 1.
Proof.
  intros Hvalid Hindex.
  destruct (built_tree _ _ _ _ Hvalid Hindex)
    as (root & index' & w' & Hpop & Hh & Hl & Hw').
  destruct (sorted_index_table _ _ _ _ Hvalid Hindex) as (_ & _ & _ & ->).
  exists root, index', w'. split; [done|].
  split; [apply freeNodes_nodes|].
  split; [by apply freeNodes_last, htree_node|].
  split; [apply freeNodes_subtree|].
  pose proof (Permutation_length Hl) as Hlen.
  pose proof (entries_from_length 0 tab) as He. fold (table_entries tab) in He.
  pose proof (vt_symbols _ Hvalid).
  rewrite (Permutation_length (freeNodes_nodes root)), htree_nodes_length by done.
  rewrite Hw'. simpl. lia.
Qed.

Lemma freeNodes_releases_witness :
  ∃ root index' w',
    populateTree example_index (mkWorld 6) = (Ret (root, index'), w') ∧
    last (freeNodes root) = Some root ∧
    length (freeNodes root) = 11%nat ∧ mallocs w' = 11%nat.
Proof.
  destruct (freeNodes_releases example_table (mkWorld 0) example_index (mkWorld 6)
              example_table_valid example_index_sorted)
    as (root & index' & w' & Hpop & _ & Hlast & _ & Hlen & Hcount).
  exists root, index', w'. split; [exact Hpop|]. split; [exact Hlast|].
  change (symbolCount example_table) with 6 in Hcount.
  simpl in Hlen. split; lia.
Defined.

(** ** The comparison of two nodes *)

(** X6 (nodeComp).  For two nodes whose frequencies differ by a value of
    [int], as the counts of characters of a file do, the sign of
    [nodeComp] is the order of their frequencies, and exchanging the
    arguments changes the sign: [qsort] is given a comparison by
    frequency.  On a vacant entry of the array a field of no node is
    read. *)
Theorem nodeComp_sign x y :
  is_node x → is_node y → - INT_MAX ≤ nfreq x - nfreq y ≤ INT_MAX →
  ∃ d, nodeComp x y = Ret d ∧ nodeComp y x = Ret (- d) ∧
       (d < 0 ↔ nfreq x < nfreq y) ∧
       (d = 0 ↔ nfreq x = nfreq y) ∧
       (0 < d ↔ nfreq y < nfreq x) ∧
       (d ≤ 0 ↔ freq_le x y) ∧
       nodeComp NULL y = Undef ∧ nodeComp x NULL = Undef.
Proof.
  intros Hx Hy Hd. destruct x as [|fx cx lx rx]; [done|].
  destruct y as [|fy cy ly ry]; [done|]. simpl in Hd.
  exists (fx - fy). unfold nodeComp, freq_le. simpl.
  rewrite !wrap_int_small by (unfold INT_MAX in *; lia).
  repeat split; try lia. f_equal. lia.
Qed.

Lemma nodeComp_sign_witness :
  nodeComp (mkNode 5 65 NULL NULL) (mkNode 9 66 NULL NULL) = Ret (-4) ∧
  nodeComp (mkNode 9 66 NULL NULL) (mkNode 5 65 NULL NULL) = Ret 4.
Proof.
  destruct (nodeComp_sign (mkNode 5 65 NULL NULL) (mkNode 9 66 NULL NULL))
    as (d & Hxy & Hyx & _).
  - discriminate.
  - discriminate.
  - vm_compute. split; discriminate.
  - assert (d = -4) as -> by (vm_compute in Hxy; congruence).
    split; [exact Hxy|exact Hyx].
Defined.

(** ** The characters of a file *)

Lemma symbolCount_fmap {A} (g : A → Z) (l : list A) :
  symbolCount (g <$> l) = Z.of_nat (length (filter (λ c, g c ≠ 0) l)).
Proof.
  unfold symbolCount. f_equal. induction l as [|c l IH]; [done|].
  rewrite fmap_cons, !filter_cons. case_decide; simpl; by rewrite IH.
Qed.

Lemma count_in_pos bytes c : count_in bytes c ≠ 0 ↔ c ∈ char_of <$> bytes.
Proof.
  unfold count_in. rewrite list_elem_of_fmap. split.
  - intros Hc. destruct (filter _ bytes) as [|b l] eqn:Hf; [done|].
    assert (b ∈ filter (λ b, char_of b = c) bytes) as Hb
      by (rewrite Hf; apply list_elem_of_here).
    apply list_elem_of_filter in Hb as [Hb1 Hb2]. by exists b.
  - intros (b & -> & Hb).
    assert (b ∈ filter (λ b', char_of b' = char_of b) bytes) as Hb'
      by (by apply list_elem_of_filter).
    destruct (filter _ bytes); [by apply elem_of_nil in Hb'|simpl; lia].
Qed.

Lemma char_of_range b : 0 ≤ char_of b ≤ 255.
Proof.
  unfold char_of. pose proof (Byte.to_N_bounded b). lia.
Qed.

Lemma table_of_counts bytes tab :
  Z.of_nat (length tab) = ASIZE →
  (∀ c, 0 ≤ c < ASIZE → tab !! Z.to_nat c = Some (count_in bytes c)) →
  tab = count_in bytes <$> seqZ 0 ASIZE.
Proof.
  intros Hlen Htab. apply list_eq. intros i.
  rewrite list_lookup_fmap.
  destruct (decide (Z.of_nat i < ASIZE)) as [Hi|Hi].
  - rewrite lookup_seqZ_lt by done. simpl. rewrite Z.add_0_l.
    rewrite <- (Htab (Z.of_nat i)) by lia. by rewrite Nat2Z.id.
  - rewrite lookup_seqZ_ge by lia. apply lookup_ge_None. lia.
Qed.

Lemma symbolCount_distinct bytes tab :
  Forall (λ b, char_of b < ASIZE) bytes →
  Z.of_nat (length tab) = ASIZE →
  (∀ c, 0 ≤ c < ASIZE → tab !! Z.to_nat c = Some (count_in bytes c)) →
  symbolCount tab = Z.of_nat (length (remove_dups (char_of <$> bytes))).
Proof.
  intros Hascii Hlen Htab.
  rewrite (table_of_counts bytes tab Hlen Htab), symbolCount_fmap.
  f_equal. apply Permutation_length, NoDup_Permutation.
  - apply NoDup_filter, NoDup_seqZ.
  - apply NoDup_remove_dups.
  - intros c. rewrite list_elem_of_filter, elem_of_seqZ, elem_of_remove_dups,
      count_in_pos.
    split; [tauto|]. intros Hc. split; [done|].
    apply list_elem_of_fmap in Hc as (b & -> & Hb).
    rewrite Forall_forall in Hascii. pose proof (Hascii b Hb).
    pose proof (char_of_range b). lia.
Qed.

(** X7 (getFreqsFromFile).  For a text of ASCII characters whose length
    is an [int], [getFreqsFromFile] fills the table with the number of
    times each character occurs: the counts add up to the length of the
    text, and as many of them are not zero as the text has distinct
    characters. *)
Theorem getFreqsFromFile_counts bytes :
  Z.of_nat (length bytes) ≤ INT_MAX →
  Forall (λ b, char_of b < ASIZE) bytes →
  ∃ tab,
    getFreqsFromFile 2 (Some bytes) (replicate (Z.to_nat ASIZE) 0) = Ret tab ∧
    tab = count_in bytes <$> seqZ 0 ASIZE ∧
    sumZ tab = Z.of_nat (length bytes) ∧
    symbolCount tab = Z.of_nat (length (remove_dups (char_of <$> bytes))).
Proof.
  intros Hlen Hascii.
  destruct (getFreqsFromFile_ascii bytes Hlen Hascii)
    as (tab & Hrun & Hsize & _ & Hsum & Htab).
  exists tab. split; [done|].
  split; [by apply table_of_counts|]. split; [done|].
  by apply symbolCount_distinct.
Qed.

Lemma getFreqsFromFile_counts_witness :
  ∃ tab,
    getFreqsFromFile 2 (Some [x41; x42; x41]) (replicate (Z.to_nat ASIZE) 0)
    = Ret tab ∧
    tab !! 65%nat = Some 2 ∧ tab !! 66%nat = Some 1 ∧
    sumZ tab = 3 ∧ symbolCount tab = 2.
Proof.
  destruct (getFreqsFromFile_counts [x41; x42; x41])
    as (tab & Hrun & Htab & Hsum & Hcount).
  - vm_compute. discriminate.
  - apply (bool_decide_unpack _). vm_compute. exact I.
  - exists tab. split; [exact Hrun|].
    split; [by rewrite Htab|]. split; [by rewrite Htab|].
    split; [exact Hsum|exact Hcount].
Defined.

Lemma count_chars_length bytes : ∀ tab,
  Z.of_nat (length tab) = ASIZE →
  Forall (λ b, char_of b < ASIZE) bytes →
  ∃ tab', count_chars tab bytes = Ret tab' ∧ Z.of_nat (length tab') = ASIZE.
Proof.
  induction bytes as [|b bytes IH]; intros tab Hlen Hascii; [by exists tab|].
  apply Forall_cons in Hascii as [Hb Hascii].
  pose proof (char_of_range b) as Hrange. fold (char_of b) in *.
  cbn [count_chars]. unfold count_char. fold (char_of b).
  destruct (lookup_lt_is_Some_2 tab (Z.to_nat (char_of b))) as [x Hx]; [lia|].
  unfold aget. rewrite bool_decide_eq_true_2, Hx by lia.
  cbn [mbind outcome_bind obind]. unfold aset.
  rewrite bool_decide_eq_true_2 by lia. cbn [mbind outcome_bind obind].
  apply IH; [by rewrite length_insert|done].
Qed.

Lemma count_chars_app l1 l2 : ∀ tab,
  count_chars tab (l1 ++ l2) = tab' ← count_chars tab l1; count_chars tab' l2.
Proof.
  induction l1 as [|b l1 IH]; intros tab; [done|].
  cbn [app count_chars]. destruct (count_char tab b) as [tab'| | |]; [|done..].
  cbn [mbind outcome_bind obind]. apply IH.
Qed.

(** X8 (getFreqsFromFile, main).  A file that holds a byte of 128 or
    more after any number of ASCII characters is not counted: the count
    of that byte is sought past the end of the table of [ASIZE] counts,
    whatever follows it in the file, and nothing of [main] is defined. *)
Theorem byte_above_ascii_undefined pre b post :
  Forall (λ b, char_of b < ASIZE) pre → ASIZE ≤ char_of b →
  getFreqsFromFile 2 (Some (pre ++ b :: post)) (replicate (Z.to_nat ASIZE) 0)
  = Undef ∧
  ∀ qsort w, main qsort 2 (Some (pre ++ b :: post)) w = (Undef, w).
Proof.
  intros Hpre Hb.
  assert (getFreqsFromFile 2 (Some (pre ++ b :: post))
            (replicate (Z.to_nat ASIZE) 0) = Undef) as Hrun.
  { unfold getFreqsFromFile. rewrite bool_decide_eq_false_2 by lia.
    rewrite count_chars_app.
    destruct (count_chars_length pre (replicate (Z.to_nat ASIZE) 0))
      as (tab & -> & Hlen); [by rewrite length_replicate, Z2Nat.id|done|].
    cbn [mbind outcome_bind obind count_chars]. unfold count_char.
    fold (char_of b). unfold aget.
    rewrite bool_decide_eq_true_2 by (unfold ASIZE in *; lia).
    by rewrite (lookup_ge_None_2 tab) by lia. }
  split; [done|]. intros qsort w. unfold main.
  unfold mbind at 1, M_bind, Mbind, lift. by rewrite Hrun.
Qed.

Lemma byte_above_ascii_undefined_witness :
  getFreqsFromFile 2 (Some [x41; xe9; x42]) (replicate (Z.to_nat ASIZE) 0) = Undef.
Proof.
  refine (proj1 (byte_above_ascii_undefined [x41] xe9 [x42] _ _)).
  - apply (bool_decide_unpack _). vm_compute. exact I.
  - vm_compute. discriminate.
Defined.

(** ** The ways in which main ends early *)

(** X9 (main).  A text of ASCII characters with fewer than two distinct
    characters, the empty file among them, ends [main] with the message
    of too few nodes and the status [EXIT_FAILURE], before any node is
    allocated and whatever [qsort] would do. *)
Theorem main_few_characters qsort bytes w :
  Z.of_nat (length bytes) ≤ INT_MAX →
  Forall (λ b, char_of b < ASIZE) bytes →
  (length (remove_dups (char_of <$> bytes)) < 2)%nat →
  main qsort 2 (Some bytes) w
  = (Exit EXIT_FAILURE ("ERROR: too few nodes to build tree" +:+ nl), w).
Proof.
  intros Hlen Hascii Hfew.
  destruct (getFreqsFromFile_ascii bytes Hlen Hascii)
    as (tab & Hrun & Hsize & _ & _ & Htab).
  pose proof (symbolCount_distinct bytes tab Hascii Hsize Htab) as Hcount.
  unfold main.
  erewrite Mbind_Ret; [|unfold lift; by rewrite Hrun].
  unfold mbind at 1, M_bind, Mbind, lift.
  rewrite calcNodeCnt_table by done.
  by rewrite bool_decide_eq_true_2 by lia.
Qed.

Lemma main_few_characters_witness :
  main (λ na _ _, Ret na) 2 (Some [x61; x61; x61]) (mkWorld 0)
  = (Exit EXIT_FAILURE ("ERROR: too few nodes to build tree" +:+ nl), mkWorld 0) ∧
  main (λ na _ _, Ret na) 2 (Some []) (mkWorld 0)
  = (Exit EXIT_FAILURE ("ERROR: too few nodes to build tree" +:+ nl), mkWorld 0).
Proof.
  split.
  - apply (main_few_characters (λ na _ _, Ret na) [x61; x61; x61] (mkWorld 0)).
    + vm_compute. discriminate.
    + apply (bool_decide_unpack _). vm_compute. exact I.
    + vm_compute. lia.
  - apply (main_few_characters (λ na _ _, Ret na) [] (mkWorld 0)).
    + vm_compute. discriminate.
    + constructor.
    + vm_compute. lia.
Defined.

(** X10 (main, getFreqsFromFile).  With a first argument on the command
    line: when the file cannot be opened [main] ends with the status 1
    and the message about the file, also when there are more arguments
    than one; when the file opens and there are more arguments, it ends
    with the status 1 and the two lines about the arguments.  In both
    cases nothing of the file is read, so that its contents do not
    matter, and no node is allocated. *)
Theorem main_bad_invocation qsort argc w :
  2 ≤ argc →
  main qsort argc None w
  = (Exit 1 ("Error opening file - check name and directory." +:+ nl), w) ∧
  (argc ≠ 2 →
   ∀ bytes,
     main qsort argc (Some bytes) w
     = (Exit 1 ("Invalid number of arguments supplied." +:+ nl +:+
                "This program only requires an ASCII textfile." +:+ nl), w)).
Proof.
  intros _. split; [done|]. intros Hargc bytes. unfold main.
  unfold mbind at 1, M_bind, Mbind, lift, getFreqsFromFile.
  by rewrite bool_decide_eq_true_2.
Qed.

Lemma main_bad_invocation_witness :
  main (λ na _ _, Ret na) 3 (Some [x41; xe9]) (mkWorld 0)
  = (Exit 1 ("Invalid number of arguments supplied." +:+ nl +:+
             "This program only requires an ASCII textfile." +:+ nl), mkWorld 0).
Proof.
  apply (proj2 (main_bad_invocation (λ na _ _, Ret na) 3 (mkWorld 0) ltac:(lia))).
  discriminate.
Defined.

(** ** The array of leaves *)

Lemma Mbind_Undef {A B} (m : M A) (f : A → M B) w :
  (m w).1 = Undef → ((m ≫= f) w).1 = Undef.
Proof.
  intros Hm. unfold mbind, M_bind, Mbind.
  destruct (m w) as [[] w']; simpl in *; done.
Qed.

Lemma for_loop_Undef {S} (body : Z → S → M S) n : ∀ i s w,
  (body i s w).1 = Undef → (for_loop (Datatypes.S n) i body s w).1 = Undef.
Proof. intros i s w Hbody. cbn [for_loop]. by apply Mbind_Undef. Qed.

(** The loop of [createNodeIndex] over a part of the table with more
    characters than the array has entries left. *)
Lemma createNodeIndex_loop_overflow l : ∀ pre suf (done : list node) (rest : nat) w,
  (rest < length (leaves_from (Z.of_nat (length pre)) l))%nat →
  (for_loop (length l) (Z.of_nat (length pre)) (indexChar (pre ++ l ++ suf))
     (done ++ replicate rest NULL, Z.of_nat (length done)) w).1 = Undef.
Proof.
  induction l as [|x l IH]; intros pre suf done rest w Hrest.
  { simpl in Hrest. lia. }
  specialize (IH (pre ++ [x]) suf).
  rewrite length_app in IH. simpl length in IH.
  replace (Z.of_nat (length pre + 1)) with (Z.of_nat (length pre) + 1) in IH by lia.
  rewrite <- app_assoc in IH. simpl app in IH.
  simpl leaves_from in Hrest.
  case_bool_decide as Hx.
  - destruct rest as [|rest].
    + simpl length. apply for_loop_Undef. simpl app. unfold indexChar.
      unfold mbind, M_bind, Mbind, lift, mret, M_ret, Mret, createNode.
      rewrite aget_middle. rewrite bool_decide_eq_true_2 by done.
      simpl replicate. rewrite app_nil_r. unfold aset.
      by rewrite bool_decide_eq_false_2 by lia.
    + simpl for_loop. simpl app. unfold indexChar at 1.
      unfold mbind, M_bind, Mbind, lift, mret, M_ret, Mret, createNode.
      rewrite aget_middle. rewrite bool_decide_eq_true_2 by done.
      simpl replicate. rewrite aset_middle.
      specialize (IH (done ++ [mkNode x (Z.of_nat (length pre)) NULL NULL]) rest
                    (mkWorld (S (mallocs w)))).
      rewrite length_app in IH. simpl length in IH.
      rewrite <- app_assoc in IH. simpl app in IH.
      replace (Z.of_nat (length done) + 1) with (Z.of_nat (length done + 1)) by lia.
      apply IH. simpl in Hrest. lia.
  - simpl for_loop. simpl app. unfold indexChar at 1.
    unfold mbind, M_bind, Mbind, lift, mret, M_ret, Mret, createNode.
    rewrite aget_middle. rewrite bool_decide_eq_false_2 by lia.
    by apply IH.
Qed.

(** X11 (createNodeIndex).  [createNodeIndex] relies on [len] being at
    least the number of characters of the table.  Then the leaves are
    at the start of the array, in the order of their characters, one
    allocation each, and the entries that [calloc] cleared stay after
    them; with a smaller [len] a leaf is written past the end of the
    array. *)
Theorem createNodeIndex_length tab len w :
  Z.of_nat (length tab) = ASIZE → 1 ≤ len →
  (symbolCount tab ≤ len →
   createNodeIndex tab len w
   = (Ret (table_leaves tab ++ replicate (Z.to_nat (len - symbolCount tab)) NULL),
      mkWorld (mallocs w + Z.to_nat (symbolCount tab)))) ∧
  (len < symbolCount tab → (createNodeIndex tab len w).1 = Undef).
Proof.
  intros Hlen Hpos.
  pose proof (leaves_from_length 0 tab) as Hl.
  split; intros Hcount; unfold createNodeIndex;
    replace (Z.to_nat ASIZE) with (length tab) by lia.
  - pose proof (createNodeIndex_loop tab [] [] [] (Z.to_nat len) w) as Hloop.
    rewrite app_nil_r in Hloop.
    change (Z.of_nat (length (@nil Z))) with 0 in Hloop.
    change ([] ++ tab) with tab in Hloop.
    change (Z.of_nat (length (@nil node))) with 0 in Hloop.
    erewrite Mbind_Ret; [|apply Hloop; lia].
    simpl. unfold mret, M_ret, Mret, table_leaves.
    replace (Z.to_nat len - length (leaves_from 0 tab))%nat
      with (Z.to_nat (len - symbolCount tab)) by lia.
    replace (length (leaves_from 0 tab)) with (Z.to_nat (symbolCount tab)) by lia.
    done.
  - pose proof (createNodeIndex_loop_overflow tab [] [] [] (Z.to_nat len) w) as Hloop.
    rewrite app_nil_r in Hloop.
    change (Z.of_nat (length (@nil Z))) with 0 in Hloop.
    change ([] ++ tab) with tab in Hloop.
    change (Z.of_nat (length (@nil node))) with 0 in Hloop.
    by apply Mbind_Undef, Hloop; lia.
Qed.

Lemma createNodeIndex_length_witness :
  createNodeIndex example_table 8 (mkWorld 0)
  = (Ret (a example_index ++ [NULL; NULL]), mkWorld 6) ∧
  (createNodeIndex example_table 5 (mkWorld 0)).1 = Undef.
Proof.
  destruct (createNodeIndex_length example_table 8 (mkWorld 0)) as [Hfit _];
    [reflexivity|lia|].
  destruct (createNodeIndex_length example_table 5 (mkWorld 0)) as [_ Hover];
    [reflexivity|lia|].
  split.
  - rewrite Hfit by (vm_compute; discriminate). reflexivity.
  - apply Hover. vm_compute. reflexivity.
Defined.

(** ** A search that finds no node *)

Lemma path_to_nodes n p m : path_to n p m → m ∈ nodes n.
Proof.
  induction 1 as [n Hn|f c l r p m _ IH|f c l r p m _ IH].
  - destruct n; [done|]. apply list_elem_of_here.
  - cbn [nodes]. apply list_elem_of_further, elem_of_app. by left.
  - cbn [nodes]. apply list_elem_of_further, elem_of_app. by right.
Qed.

Lemma find_path_None n target :
  find_path n target = None ↔ ∀ x, x ∈ nodes n → c_of x ≠ Ret target.
Proof.
  induction n as [|f c l IHl r IHr]; simpl.
  { split; [|done]. by intros _ x ?%elem_of_nil. }
  case_bool_decide as Hc.
  - split; [done|]. intros Hall. destruct (Hall (mkNode f c l r)).
    + apply list_elem_of_here.
    + simpl. by rewrite Hc.
  - destruct (find_path l target) as [[p m]|] eqn:Hl.
    { split; [done|]. intros Hall.
      assert (Some (p, m) = None) as Habs; [|done].
      apply IHl. intros x Hx. apply Hall, list_elem_of_further, elem_of_app.
      by left. }
    destruct (find_path r target) as [[p m]|] eqn:Hr.
    { split; [done|]. intros Hall.
      assert (Some (p, m) = None) as Habs; [|done].
      apply IHr. intros x Hx. apply Hall, list_elem_of_further, elem_of_app.
      by right. }
    split; [|done]. intros _ x Hx.
    apply elem_of_cons in Hx as [->|Hx]; [simpl; congruence|].
    apply elem_of_app in Hx as [Hx|Hx]; [by apply IHl|by apply IHr].
Qed.

(** X12 (findEncoding).  With a buffer of more characters than the tree
    is high, [findEncoding] returns for every tree and every target:
    [NULL] exactly when no node of the tree carries the target, and
    otherwise a node of the tree that carries it.  A search that ends
    with [NULL] has written nothing to the buffer and leaves the counter
    at 0. *)
Theorem findEncoding_result n target s :
  treeHeight n < Z.of_nat (length (str (buf s))) →
  ∃ m s',
    findEncoding n target s = Ret (m, s') ∧
    (m = NULL ↔ ∀ x, x ∈ nodes n → c_of x ≠ Ret target) ∧
    (m ≠ NULL → m ∈ nodes n ∧ c_of m = Ret target) ∧
    (m = NULL → buf s' = buf s ∧ cnt s' = 0).
Proof.
  intros Hsize. pose proof (findEncoding_find_path n target s) as Hfind.
  pose proof (find_path_None n target) as Hnone.
  destruct (find_path n target) as [[p m]|] eqn:Hp.
  - pose proof (find_path_node _ _ _ _ Hp) as Hm.
    destruct (find_path_path_to _ _ _ _ Hp) as [Hpath Hc].
    pose proof (path_to_height _ _ _ Hpath).
    destruct Hfind as (tr & Hrun & _); [lia|].
    eexists m, _. split; [exact Hrun|]. split; [|split; [|done]].
    + split; [done|]. intros Hall. by apply Hnone in Hall.
    + intros _. split; [by eapply path_to_nodes|done].
  - destruct Hfind as (tr & Hrun & _).
    eexists NULL, _. split; [exact Hrun|]. split; [|split; [done|done]].
    split; [|done]. intros _. by apply Hnone.
Qed.

Lemma findEncoding_result_witness :
  ∃ s', findEncoding (parent_of (mkNode 1 97 NULL NULL) (mkNode 2 98 NULL NULL)) 99
          (mkEnc 7 (createBuffer 1) []) = Ret (NULL, s') ∧
        buf s' = createBuffer 1 ∧ cnt s' = 0.
Proof.
  destruct (findEncoding_result
              (parent_of (mkNode 1 97 NULL NULL) (mkNode 2 98 NULL NULL)) 99
              (mkEnc 7 (createBuffer 1) []))
    as (m & s' & Hrun & Hnull & _ & Hbuf).
  - vm_compute. reflexivity.
  - assert (m = NULL) as ->.
    { apply Hnull. intros x Hx. unfold parent_of in Hx. cbn [nodes app] in Hx.
      repeat (apply elem_of_cons in Hx as [->|Hx]; [discriminate|]).
      by apply elem_of_nil in Hx. }
    exists s'. split; [exact Hrun|]. by apply Hbuf.
Defined.

(** ** The number of bytes of the report *)

Lemma depths_unfold f c l r d :
  depths d (mkNode f c l r)
  = if bool_decide (l = NULL ∧ r = NULL) then [(d, (c, f))]
    else depths (S d) l ++ depths (S d) r.
Proof. by destruct l, r. Qed.

Lemma leaves_unfold f c l r :
  leaves (mkNode f c l r)
  = if bool_decide (l = NULL ∧ r = NULL) then [(c, f)] else leaves l ++ leaves r.
Proof. by destruct l, r. Qed.

Lemma depths_leaves n : ∀ d, (snd <$> depths d n) = leaves n.
Proof.
  induction n as [|f c l IHl r IHr]; intros d; [done|].
  rewrite depths_unfold, leaves_unfold. case_bool_decide; [done|].
  by rewrite fmap_app, IHl, IHr.
Qed.

Lemma depths_node f c l r d :
  is_node l → depths d (mkNode f c l r) = depths (S d) l ++ depths (S d) r.
Proof. intros Hl. by destruct l. Qed.

Lemma depths_path n : htree n → ∀ d k c f,
  (k, (c, f)) ∈ depths d n →
  ∃ p, path_to n p (mkNode f c NULL NULL) ∧ k = (d + length p)%nat.
Proof.
  induction 1 as [f c Hc Hf|l r Hl IHl Hr IHr]; intros d k c' f' Hk.
  - apply list_elem_of_singleton in Hk. injection Hk as -> -> ->.
    exists []. split; [by constructor|]. simpl. lia.
  - unfold parent_of in *. rewrite depths_node in Hk by (by apply htree_node).
    apply elem_of_app in Hk as [Hk|Hk].
    + destruct (IHl _ _ _ _ Hk) as (p & Hp & ->).
      exists (false :: p). split; [by constructor|]. simpl. lia.
    + destruct (IHr _ _ _ _ Hk) as (p & Hp & ->).
      exists (true :: p). split; [by constructor|]. simpl. lia.
Qed.

Lemma sumZ_app l1 l2 : sumZ (l1 ++ l2) = sumZ l1 + sumZ l2.
Proof. induction l1 as [|x l1 IH]; simpl; lia. Qed.

Lemma sumZ_Permutation l1 l2 : l1 ≡ₚ l2 → sumZ l1 = sumZ l2.
Proof. induction 1; simpl; lia. Qed.

(** The lines of a report, one for each leaf of the tree, stand for the
    bits of the text in the code of the tree. *)
Lemma line_bits_cost root lines entries :
  htree root → NoDup (leaves root) → leaves root ≡ₚ entries →
  Forall2 (line_of root) lines entries →
  line_bits lines = cost root.
Proof.
  intros Hh Hnd Hperm Hlines.
  pose proof (depths_leaves root 0) as Hd. rewrite <- Hd in Hperm.
  symmetry in Hperm. apply Permutation_map_inv in Hperm as (ds & -> & Hds).
  unfold cost, bits_of. rewrite (sumZ_Permutation _ _ (fmap_Permutation _ _ _ Hds)).
  unfold line_bits. f_equal.
  assert (Hin : ∀ e, e ∈ ds → e ∈ depths 0 root).
  { intros e He. by rewrite Hds. }
  clear Hds Hd. induction ds as [|[k [c f]] ds IH] in lines, Hlines, Hin |- *.
  { by apply Forall2_nil_inv_r in Hlines as ->. }
  apply Forall2_cons_inv_r in Hlines as (ln & lines' & Hln & Hlines & ->).
  rewrite !fmap_cons. f_equal.
  - destruct Hln as (p & Hp & ->). simpl in *.
    destruct (depths_path root Hh 0 k c f) as (p' & Hp' & ->).
    { apply Hin, list_elem_of_here. }
    by rewrite (path_to_unique root Hh Hnd p p' f c Hp Hp').
  - apply IH; [done|]. intros e He. by apply Hin, list_elem_of_further.
Qed.

(** What one character that occurs adds to the bits, in the loop of
    [printHuffman]. *)
Lemma printSymbol_bits tab root i r r' :
  printSymbol tab root i r = Ret r' →
  ∃ new, r_lines r' = r_lines r ++ new ∧
    r_bits r'
    = foldl (λ b l, wrap_ulong (b + wrap_ulong (l_strlen l * wrap_ulong (l_freq l))))
        (r_bits r) new.
Proof.
  unfold printSymbol. intros Hrun.
  destruct (aget tab i) as [x| | |]; [|done..]. cbn [mbind outcome_bind obind] in Hrun.
  case_bool_decide.
  2: { injection Hrun as <-. exists []. by rewrite app_nil_r. }
  destruct (findEncoding root i (r_enc r)) as [[n e]| | |]; [|done..].
  cbn [mbind outcome_bind obind] in Hrun.
  destruct (reverseString (str (buf e))) as [s| | |]; [|done..].
  cbn [mbind outcome_bind obind] in Hrun.
  destruct (c_of n) as [c| | |]; [|done..]. cbn [mbind outcome_bind obind] in Hrun.
  destruct (freq_of n) as [f| | |]; [|done..]. cbn [mbind outcome_bind obind] in Hrun.
  destruct (strlen s) as [k| | |]; [|done..]. cbn [mbind outcome_bind obind] in Hrun.
  destruct (memset0 s k) as [s'| | |]; [|done..]. cbn [mbind outcome_bind obind] in Hrun.
  injection Hrun as <-. by eexists [_].
Qed.

Lemma printHuffman_loop_bits tab root n : ∀ i r r',
  for_loop n i (printSymbol tab root) r = Ret r' →
  ∃ new, r_lines r' = r_lines r ++ new ∧
    r_bits r'
    = foldl (λ b l, wrap_ulong (b + wrap_ulong (l_strlen l * wrap_ulong (l_freq l))))
        (r_bits r) new.
Proof.
  induction n as [|n IH]; intros i r r' Hrun.
  { injection Hrun as <-. exists []. by rewrite app_nil_r. }
  cbn [for_loop] in Hrun.
  destruct (printSymbol tab root i r) as [r1| | |] eqn:Hstep; [|done..].
  cbn [mbind outcome_bind obind] in Hrun.
  destruct (printSymbol_bits _ _ _ _ _ Hstep) as (new1 & Hl1 & Hb1).
  destruct (IH _ _ _ Hrun) as (new & Hl & Hb).
  exists (new1 ++ new). rewrite Hl, Hl1, <- app_assoc. split; [done|].
  by rewrite Hb, Hb1, foldl_app.
Qed.

Lemma sumZ_cons x l : sumZ (x :: l) = x + sumZ l.
Proof. done. Qed.

Lemma line_bits_cons l lines :
  line_bits (l :: lines) = l_strlen l * l_freq l + line_bits lines.
Proof. done. Qed.

Lemma line_bits_nonneg lines :
  Forall (λ l, 0 ≤ l_strlen l ∧ 0 ≤ l_freq l ≤ INT_MAX) lines → 0 ≤ line_bits lines.
Proof.
  induction 1 as [|l lines [? [? ?]] _ IH]; [done|]. rewrite line_bits_cons. nia.
Qed.

(** The bits add up without wrap-around when their sum is below 2^64. *)
Lemma bits_no_wrap lines : ∀ b,
  0 ≤ b → Forall (λ l, 0 ≤ l_strlen l ∧ 0 ≤ l_freq l ≤ INT_MAX) lines →
  b + line_bits lines < 2 ^ 64 →
  foldl (λ b l, wrap_ulong (b + wrap_ulong (l_strlen l * wrap_ulong (l_freq l))))
    b lines
  = b + line_bits lines.
Proof.
  induction lines as [|l lines IH]; intros b Hb Hpos Hsum.
  { unfold line_bits. simpl. lia. }
  apply Forall_cons in Hpos as [[Hk [Hf Hf']] Hpos].
  pose proof (line_bits_nonneg lines Hpos).
  rewrite line_bits_cons in *.
  assert (0 ≤ l_strlen l * l_freq l) by nia.
  cbn [foldl].
  assert (wrap_ulong (b + wrap_ulong (l_strlen l * wrap_ulong (l_freq l)))
          = b + l_strlen l * l_freq l) as ->.
  { unfold wrap_ulong. rewrite (Z.mod_small (l_freq l)) by (unfold INT_MAX in *; lia).
    rewrite (Z.mod_small (_ * _)) by lia. apply Z.mod_small. lia. }
  rewrite IH by (done || lia). lia.
Qed.

Lemma entries_from_sum i l : sumZ (snd <$> entries_from i l) = sumZ l.
Proof.
  revert i. induction l as [|x l IH]; intros i; [done|].
  cbn [entries_from]. case_bool_decide as Hx.
  - rewrite fmap_cons, !sumZ_cons, IH. done.
  - rewrite sumZ_cons, IH. lia.
Qed.

Lemma lines_freq root lines entries :
  Forall2 (line_of root) lines entries → l_freq <$> lines = snd <$> entries.
Proof.
  induction 1 as [|l e lines entries (p & _ & ->) _ IH]; [done|].
  rewrite !fmap_cons, IH. done.
Qed.

Lemma line_bits_bounds H lines :
  Forall (λ l, 1 ≤ l_strlen l ≤ H ∧ 0 ≤ l_freq l) lines →
  sumZ (l_freq <$> lines) ≤ line_bits lines ≤ H * sumZ (l_freq <$> lines).
Proof.
  induction 1 as [|l lines [? ?] _ IH]; [unfold line_bits; simpl; lia|].
  rewrite line_bits_cons, fmap_cons, sumZ_cons, Z.mul_add_distr_l.
  assert (l_strlen l * l_freq l ≤ H * l_freq l) by nia.
  assert (l_freq l ≤ l_strlen l * l_freq l) by nia. lia.
Qed.

(** [printHuffman], on the tree of a valid table: the report, and the
    number of bytes at its end. *)
Lemma printHuffman_cost root tab :
  valid_table tab → htree root → leaves root ≡ₚ table_entries tab →
  ∃ lines nbytes,
    printHuffman tab root = Ret (lines, nbytes) ∧
    Forall2 (line_of root) lines (table_entries tab) ∧
    line_bits lines = cost root ∧
    sumZ tab ≤ cost root ≤ treeHeight root * sumZ tab ∧
    8 * (nbytes - 1) < cost root ≤ 8 * nbytes.
Proof.
  intros Hvalid Hh Hl.
  destruct (printHuffman_report root tab (vt_size _ Hvalid) Hh Hl)
    as (lines & nbytes & Hprint & Hlines).
  exists lines, nbytes. split; [done|]. split; [done|].
  assert (Hnd : NoDup (leaves root)) by (rewrite Hl; apply entries_from_NoDup).
  pose proof (line_bits_cost root lines _ Hh Hnd Hl Hlines) as Hcost.
  split; [done|].
  pose proof (lines_freq _ _ _ Hlines) as Hfreq.
  unfold table_entries in Hfreq. pose proof (entries_from_sum 0 tab) as Hsum.
  rewrite <- Hfreq in Hsum.
  pose proof (vt_total _ Hvalid) as Htotal.
  assert (Hroot : (2 ≤ length (leaves root))%nat).
  { rewrite (Permutation_length Hl).
    pose proof (entries_from_length 0 tab) as He. fold (table_entries tab) in He.
    pose proof (vt_symbols _ Hvalid). lia. }
  assert (Hbounds : Forall (λ l, 1 ≤ l_strlen l ≤ treeHeight root
                                 ∧ 0 ≤ l_freq l ≤ INT_MAX) lines).
  { apply Forall_forall. intros l Hin.
    apply list_elem_of_lookup in Hin as [k Hk].
    destruct (Forall2_lookup_l _ _ _ _ _ Hlines Hk) as ([c f] & He & p & Hp & ->).
    apply list_elem_of_lookup_2 in He.
    apply table_entry_inv in He as Hf. simpl in *.
    pose proof (path_to_height _ _ _ Hp).
    assert (0 ≤ f ≤ sumZ tab).
    { split; [|apply sumZ_lookup_le with (k := Z.to_nat c); [apply Hvalid|done]].
      pose proof (vt_counts _ Hvalid) as Hc. rewrite Forall_lookup in Hc.
      by apply (Hc (Z.to_nat c)). }
    split; [|lia]. split; [|done].
    destruct p as [|b p]; [|simpl; lia].
    inversion Hp; subst. simpl in Hroot. lia. }
  pose proof (line_bits_bounds (treeHeight root) lines) as Hlb.
  rewrite Hsum, Hcost in Hlb.
  split. { apply Hlb. eapply Forall_impl; [exact Hbounds|]. simpl. lia. }
  assert (Hheight : treeHeight root ≤ ASIZE).
  { pose proof (htree_height_leaves _ Hh) as Hup.
    rewrite (Permutation_length Hl) in Hup.
    pose proof (entries_from_length 0 tab) as He. fold (table_entries tab) in He.
    pose proof (symbolCount_le tab). pose proof (vt_size _ Hvalid). lia. }
  assert (Hbits : 0 ≤ cost root < 2 ^ 64).
  { destruct Hlb as [Hlo Hhi].
    { eapply Forall_impl; [exact Hbounds|]. simpl. lia. }
    assert (0 ≤ sumZ tab).
    { rewrite <- Hsum. clear -Hbounds.
      induction Hbounds as [|l lines ? _ IH]; [done|].
      rewrite fmap_cons, sumZ_cons. lia. }
    unfold ASIZE, INT_MAX in *. nia. }
  unfold printHuffman in Hprint.
  destruct (for_loop _ _ _ _) as [r| | |] eqn:Hloop; [|done..].
  cbn [mbind outcome_bind obind] in Hprint.
  destruct (printHuffman_loop_bits _ _ _ _ _ _ Hloop) as (new & Hnew & Hb).
  simpl in Hnew, Hb. injection Hprint as Hr <-. rewrite Hr in Hnew. subst new.
  rewrite bits_no_wrap in Hb; [| done | | rewrite Hcost; lia].
  2: { eapply Forall_impl; [exact Hbounds|]. simpl. lia. }
  rewrite Z.add_0_l, Hcost in Hb. rewrite Hb. unfold BITSPERBYTE.
  pose proof (Z.quot_rem' (cost root) 8) as Hqr.
  pose proof (Z.rem_bound_pos (cost root) 8 ltac:(lia) ltac:(lia)).
  case_bool_decide; lia.
Qed.

(** X13 (printHuffman).  For every valid table, the number that
    [printHuffman] prints at the end of the report is the number of
    bytes of the encoded text: the bits of the lines, each the length
    of an encoding times the count of its character, added without
    wrap-around and divided by 8, rounded up.  These bits are the sum
    over the leaves of the tree of depth times count; every character
    takes at least one bit and at most as many as the tree is high. *)
Theorem printHuffman_bytes tab w0 index w :
  valid_table tab → sorted_index tab w0 index w →
  ∃ root index' w' lines nbytes,
    populateTree index w = (Ret (root, index'), w') ∧
    printHuffman tab root = Ret (lines, nbytes) ∧
    Forall2 (line_of root) lines (table_entries tab) ∧
    line_bits lines = cost root ∧
    sumZ tab ≤ cost root ≤ treeHeight root * sumZ tab ∧
    8 * (nbytes - 1) < cost root ≤ 8 * nbytes.
Proof.
  intros Hvalid Hindex.
  destruct (built_tree _ _ _ _ Hvalid Hindex)
    as (root & index' & w' & Hpop & Hh & Hl & _).
  destruct (printHuffman_cost root tab Hvalid Hh Hl)
    as (lines & nbytes & Hprint & Hlines & Hbits & Hcost & Hbytes).
  by exists root, index', w', lines, nbytes.
Qed.

Lemma printHuffman_bytes_witness :
  ∃ root index' w' lines nbytes,
    populateTree example_index (mkWorld 6) = (Ret (root, index'), w') ∧
    printHuffman example_table root = Ret (lines, nbytes) ∧
    Forall2 (line_of root) lines (table_entries example_table) ∧
    line_bits lines = cost root ∧
    sumZ example_table ≤ cost root ≤ treeHeight root * sumZ example_table ∧
    8 * (nbytes - 1) < cost root ≤ 8 * nbytes.
Proof.
  exact (printHuffman_bytes example_table (mkWorld 0) example_index (mkWorld 6)
           example_table_valid example_index_sorted).
Defined.

(** ** The whole program on a text *)

Lemma insert_by_sorted cmp (le : relation node) x l :
  Transitive le → Total le →
  (∀ y z, y ∈ x :: l → z ∈ x :: l →
     ∃ d, cmp y z = Ret d ∧ (d ≤ 0 ↔ le y z) ∧ (0 ≤ d ↔ le z y)) →
  StronglySorted le l →
  ∃ l', insert_by cmp x l = Ret l' ∧ l' ≡ₚ x :: l ∧ StronglySorted le l'.
Proof.
  intros Htrans Htotal Hcmp Hsorted.
  induction Hsorted as [|y l Hl IH Hy].
  { exists [x]. split; [done|]. split; [done|]. repeat constructor. }
  cbn [insert_by].
  destruct (Hcmp x y) as (d & -> & Hd & _);
    [apply list_elem_of_here|apply list_elem_of_further, list_elem_of_here|].
  cbn [mbind outcome_bind obind]. case_bool_decide as Hle.
  - exists (x :: y :: l). split; [done|]. split; [done|].
    apply Hd in Hle. constructor; [by constructor|].
    constructor; [done|]. eapply Forall_impl; [exact Hy|].
    intros z Hz. by trans y.
  - destruct IH as (l' & -> & Hperm & Hsorted').
    { intros a b Ha Hb. apply Hcmp.
      - apply elem_of_cons in Ha as [->|Ha]; [apply list_elem_of_here|].
        by do 2 apply list_elem_of_further.
      - apply elem_of_cons in Hb as [->|Hb]; [apply list_elem_of_here|].
        by do 2 apply list_elem_of_further. }
    cbn [mbind outcome_bind obind]. exists (y :: l'). split; [done|].
    split; [rewrite Hperm; apply Permutation_swap|].
    constructor; [done|]. rewrite Hperm. constructor; [|done].
    destruct (Htotal x y) as [Hxy|Hyx]; [|done]. by apply Hd in Hxy.
Qed.

Lemma sort_by_sorted cmp (le : relation node) l :
  Transitive le → Total le →
  (∀ y z, y ∈ l → z ∈ l →
     ∃ d, cmp y z = Ret d ∧ (d ≤ 0 ↔ le y z) ∧ (0 ≤ d ↔ le z y)) →
  ∃ l', sort_by cmp l = Ret l' ∧ l' ≡ₚ l ∧ StronglySorted le l'.
Proof.
  intros Htrans Htotal Hcmp. induction l as [|x l IH].
  { exists []. split; [done|]. split; [done|]. constructor. }
  destruct IH as (s & Hs & Hperm & Hsorted).
  { intros y z Hy Hz. apply Hcmp; by apply list_elem_of_further. }
  cbn [sort_by]. rewrite Hs. cbn [mbind outcome_bind obind].
  destruct (insert_by_sorted cmp le x s Htrans Htotal) as (l' & Hl' & Hperm' & Hsorted').
  - intros y z Hy Hz. rewrite Hperm in Hy, Hz. by apply Hcmp.
  - done.
  - exists l'. split; [done|]. split; [|done]. by rewrite Hperm', Hperm.
Qed.

Lemma insertion_qsort_sorts : qsort_sorts insertion_qsort.
Proof. intros l n cmp le _ Htrans Htotal Hcmp. by apply sort_by_sorted. Qed.

(** The comparison of two leaves of a table. *)
Lemma nodeComp_leaves tab x y :
  Forall (λ x, 0 ≤ x) tab → sumZ tab ≤ INT_MAX →
  x ∈ table_leaves tab → y ∈ table_leaves tab →
  ∃ d, nodeComp x y = Ret d ∧ (d ≤ 0 ↔ freq_le x y) ∧ (0 ≤ d ↔ freq_le y x).
Proof.
  intros Hpos Htotal Hx Hy.
  assert (Hleaf : ∀ z, z ∈ table_leaves tab → is_node z ∧ 0 ≤ nfreq z ≤ INT_MAX).
  { intros z Hz. split.
    - pose proof (leaves_from_node 0 tab) as Hn. rewrite Forall_forall in Hn. auto.
    - pose proof (leaves_from_pos 0 tab Hpos) as Hp. rewrite Forall_forall in Hp.
      pose proof (Hp z Hz). split; [lia|].
      apply list_elem_of_split in Hz as (l1 & l2 & Hsplit).
      pose proof (leaves_from_total 0 tab) as Ht. fold (table_leaves tab) in Ht.
      rewrite Hsplit, total_app in Ht. simpl in Ht.
      assert (Forall (λ n, 0 < nfreq n) (l1 ++ z :: l2)) as Hall
        by (rewrite <- Hsplit; by apply leaves_from_pos).
      apply Forall_app in Hall as [H1 H2]. apply Forall_cons in H2 as [_ H2].
      pose proof (total_pos _ H1). pose proof (total_pos _ H2). lia. }
  destruct (Hleaf x Hx) as [Hnx Hfx]. destruct (Hleaf y Hy) as [Hny Hfy].
  destruct x as [|fx cx lx rx]; [done|]. destruct y as [|fy cy ly ry]; [done|].
  simpl in *. exists (fx - fy). unfold nodeComp, freq_le. simpl.
  rewrite wrap_int_small by (unfold INT_MAX in *; lia).
  split; [done|]. lia.
Qed.

Lemma htree_freq n : htree n → nfreq n = sumZ (snd <$> leaves n).
Proof.
  induction 1 as [f c Hc Hf|l r Hl IHl Hr IHr]; [simpl; lia|].
  rewrite leaves_parent, fmap_app, sumZ_app by (by apply htree_node).
  simpl. lia.
Qed.

Lemma entries_from_counts (g : Z → Z) (n : nat) : ∀ i,
  entries_from i (g <$> seqZ i (Z.of_nat n))
  = (λ c, (c, g c)) <$> filter (λ c, g c ≠ 0) (seqZ i (Z.of_nat n)).
Proof.
  induction n as [|n IH]; intros i; [done|].
  rewrite seqZ_cons by lia.
  replace (Z.pred (Z.of_nat (S n))) with (Z.of_nat n) by lia.
  replace (Z.succ i) with (i + 1) by lia.
  rewrite fmap_cons, filter_cons. cbn [entries_from]. rewrite IH.
  case_bool_decide; case_decide; done.
Qed.

(** X14 (main).  On a text of ASCII characters with at least two
    distinct characters, whose length is an [int], and with a [qsort]
    that sorts as the C standard says, [main] returns.  It builds one
    tree, whose root counts the whole text and whose leaves are the
    characters of the text with the number of times each occurs; it
    reports one line for each of these characters, in ascending order,
    with the path to its leaf as its encoding, and then the number of
    bytes that the bits of these lines take.  It allocates one node for
    each character and one for each merge. *)
Theorem main_report qsort bytes w :
  qsort_sorts qsort →
  Z.of_nat (length bytes) ≤ INT_MAX →
  Forall (λ b, char_of b < ASIZE) bytes →
  (2 ≤ length (remove_dups (char_of <$> bytes)))%nat →
  let chars := filter (λ c, c ∈ char_of <$> bytes) (seqZ 0 ASIZE) in
  let entries := (λ c, (c, count_in bytes c)) <$> chars in
  ∃ root lines nbytes,
    main qsort 2 (Some bytes) w
    = (Ret (lines, nbytes), mkWorld (mallocs w + (2 * length chars - 1))) ∧
    length chars = length (remove_dups (char_of <$> bytes)) ∧
    htree root ∧ nfreq root = Z.of_nat (length bytes) ∧
    leaves root ≡ₚ entries ∧
    Forall2 (line_of root) lines entries ∧
    8 * (nbytes - 1) < line_bits lines ≤ 8 * nbytes.
Proof.
  intros Hqsort Hlen Hascii Hdistinct chars entries.
  destruct (getFreqsFromFile_ascii bytes Hlen Hascii)
    as (tab & Hfile & Hsize & Hpos & Hsum & Htab).
  pose proof (symbolCount_distinct bytes tab Hascii Hsize Htab) as Hcount.
  pose proof (table_of_counts bytes tab Hsize Htab) as Hcounts.
  assert (Hvalid : valid_table tab) by (split; [done|done|lia|lia]).
  assert (Hentries : table_entries tab = entries).
  { unfold table_entries. rewrite Hcounts.
    change ASIZE with (Z.of_nat 128). rewrite entries_from_counts.
    unfold entries, chars. f_equal. apply list_filter_iff.
    intros c. apply count_in_pos. }
  assert (Hchars : Z.of_nat (length chars) = symbolCount tab).
  { pose proof (entries_from_length 0 tab) as He. fold (table_entries tab) in He.
    rewrite Hentries in He. unfold entries in He. by rewrite length_fmap in He. }
  destruct (Hqsort (table_leaves tab) (symbolCount tab) nodeComp freq_le)
    as (na' & Hsort & Hperm & Hsorted).
  { by rewrite <- leaves_from_length with (i := 0). }
  { apply _. }
  { apply _. }
  { intros x y. apply nodeComp_leaves; [done|lia]. }
  assert (Hindex : sorted_index tab w (mkIndex na' (symbolCount tab))
                     (mkWorld (mallocs w + Z.to_nat (symbolCount tab)))).
  { exists (table_leaves tab). simpl. split.
    - rewrite calcNodeCnt_table by done. by rewrite bool_decide_eq_false_2 by lia.
    - split; [by apply createNodeIndex_table|done]. }
  destruct (built_tree _ _ _ _ Hvalid Hindex)
    as (root & index' & w' & Hpop & Hh & Hl & Hmallocs).
  destruct w' as [k]. simpl in Hmallocs. subst k.
  destruct (printHuffman_cost root tab Hvalid Hh Hl)
    as (lines & nbytes & Hprint & Hlines & Hbits & _ & Hbytes).
  exists root, lines, nbytes. rewrite <- Hentries.
  split; [|split; [lia|]]; [|split; [done|]]; [|split; [|split; [done|]]];
    [| |split; [done|by rewrite Hbits]].
  - unfold main.
    erewrite Mbind_Ret; [|unfold lift; by rewrite Hfile].
    erewrite Mbind_Ret.
    2: { unfold lift. rewrite calcNodeCnt_table by done.
         by rewrite bool_decide_eq_false_2 by lia. }
    erewrite Mbind_Ret; [|by apply createNodeIndex_table].
    erewrite Mbind_Ret; [|unfold lift; by rewrite Hsort].
    erewrite Mbind_Ret; [|exact Hpop].
    unfold lift. rewrite Hprint. do 2 f_equal. lia.
  - rewrite (htree_freq _ Hh), <- Hsum.
    rewrite (sumZ_Permutation _ _ (fmap_Permutation _ _ _ Hl)).
    apply entries_from_sum.
Qed.

Lemma main_report_witness :
  ∃ root lines nbytes,
    main insertion_qsort 2 (Some [x62; x61; x63; x61; x62; x61]) (mkWorld 0)
    = (Ret (lines, nbytes), mkWorld 5) ∧
    htree root ∧ nfreq root = 6 ∧
    leaves root ≡ₚ [(97, 3); (98, 2); (99, 1)] ∧
    Forall2 (line_of root) lines [(97, 3); (98, 2); (99, 1)] ∧
    8 * (nbytes - 1) < line_bits lines ≤ 8 * nbytes.
Proof.
  destruct (main_report insertion_qsort [x62; x61; x63; x61; x62; x61] (mkWorld 0))
    as (root & lines & nbytes & Hmain & _ & Hh & Hfreq & Hl & Hlines & Hbytes).
  - exact insertion_qsort_sorts.
  - vm_compute. discriminate.
  - apply (bool_decide_unpack _). vm_compute. exact I.
  - vm_compute. lia.
  - exists root, lines, nbytes.
    split; [exact Hmain|]. split; [exact Hh|]. split; [exact Hfreq|].
    split; [exact Hl|]. split; [exact Hlines|exact Hbytes].
Defined.

(** ** The number of probes of getInsertionPoint *)






(** ** Kraft's sum *)

Lemma kraft_cons H d ds : kraft H (d :: ds) = 2 ^ Z.of_nat (H - d) + kraft H ds.
Proof. done. Qed.

Lemma kraft_app H l1 l2 : kraft H (l1 ++ l2) = kraft H l1 + kraft H l2.
Proof. unfold kraft. by rewrite fmap_app, sumZ_app. Qed.

Lemma kraft_Permutation H l1 l2 : l1 ≡ₚ l2 → kraft H l1 = kraft H l2.
Proof. intros Hp. unfold kraft. apply sumZ_Permutation. by apply fmap_Permutation. Qed.

#[global] Instance kraft_Proper H : Proper ((≡ₚ) ==> (=)) (kraft H).
Proof. intros l1 l2. apply kraft_Permutation. Qed.

Lemma kraft_S H ds :
  Forall (λ d, (d ≤ H)%nat) ds → kraft (S H) ds = 2 * kraft H ds.
Proof.
  induction 1 as [|d ds Hd _ IH]; [done|]. rewrite !kraft_cons, IH.
  replace (S H - d)%nat with (S (H - d)) by lia.
  rewrite Nat2Z.inj_succ, Z.pow_succ_r by lia. lia.
Qed.

Lemma kraft_parity h ds :
  Forall (λ d, (d ≤ h)%nat) ds →
  ∃ m, kraft h ds = 2 * m + Z.of_nat (length (filter (λ d, d = h) ds)).
Proof.
  induction 1 as [|d ds Hd _ [m IH]]; [by exists 0|].
  rewrite kraft_cons, IH, filter_cons. case_decide as Hdh.
  - exists m. subst d. rewrite Nat.sub_diag. simpl length. lia.
  - destruct (h - d)%nat as [|k] eqn:Hk; [lia|].
    exists (m + 2 ^ Z.of_nat k).
    rewrite Nat2Z.inj_succ, Z.pow_succ_r by lia. lia.
Qed.

Lemma kraft_zero ds :
  Forall (λ d, (d ≤ 0)%nat) ds → kraft 0 ds = Z.of_nat (length ds).
Proof.
  induction 1 as [|d ds Hd _ IH]; [done|]. rewrite kraft_cons, IH.
  simpl length. replace (0 - d)%nat with 0%nat by lia. simpl. lia.
Qed.

(** In a complete code of two characters or more the deepest characters
    are below the root, and there are two of them at least. *)
Lemma deepest_pair ds :
  complete ds → (2 ≤ length ds)%nat →
  (1 ≤ max_list ds)%nat ∧ (2 ≤ length (filter (λ d, d = max_list ds) ds))%nat.
Proof.
  intros Hc Hlen. set (h := max_list ds).
  assert (Hh : Forall (λ d, (d ≤ h)%nat) ds).
  { apply Forall_forall. intros d Hd. by apply max_list_elem_of_le. }
  pose proof (Hc h Hh) as Hk.
  assert (1 ≤ h)%nat as Hpos.
  { destruct (decide (h = 0)%nat) as [Hh0|]; [|lia].
    rewrite Hh0 in Hk, Hh. rewrite kraft_zero in Hk by done. simpl in Hk. lia. }
  split; [done|].
  destruct (kraft_parity h ds Hh) as [m Hm]. rewrite Hk in Hm.
  replace h with (S (h - 1)) in Hm at 1 by lia.
  rewrite Nat2Z.inj_succ, Z.pow_succ_r in Hm by lia.
  assert (h ∈ filter (λ d, d = h) ds) as Hin.
  { apply list_elem_of_filter. split; [done|].
    apply max_list_elem_of. by destruct ds. }
  destruct (filter (λ d, d = h) ds) as [|d1 [|d2 l]]; simpl in *;
    [by apply elem_of_nil in Hin|lia|lia].
Qed.

(** ** The exchange of two characters of a code *)

Lemma wcost_cons d w P : wcost ((d, w) :: P) = Z.of_nat d * w + wcost P.
Proof. done. Qed.

Lemma wcost_Permutation P Q : P ≡ₚ Q → wcost P = wcost Q.
Proof. intros Hp. unfold wcost. apply sumZ_Permutation. by apply fmap_Permutation. Qed.

#[global] Instance wcost_Proper : Proper ((≡ₚ) ==> (=)) wcost.
Proof. intros P Q. apply wcost_Permutation. Qed.

(** The smallest count can take a deepest place of a code, at no cost. *)
Lemma place_deepest (P : list (nat * Z)) h a W :
  Forall (λ e, (e.1 ≤ h)%nat) P → h ∈ fst <$> P →
  snd <$> P ≡ₚ a :: W → Forall (λ w, a ≤ w) W →
  ∃ Q, fst <$> P ≡ₚ h :: (fst <$> Q) ∧ snd <$> Q ≡ₚ W ∧
       wcost ((h, a) :: Q) ≤ wcost P.
Proof.
  intros Hh Hin Hperm Ha. symmetry in Hperm.
  apply Permutation_map_inv in Hperm as (P' & Heq & HP).
  destruct P' as [|[da a'] Q0]; [done|]. injection Heq as <- ->.
  destruct (decide (da = h)) as [->|Hda].
  { exists Q0. split; [by rewrite HP|]. split; [done|]. by rewrite (wcost_Permutation _ _ HP). }
  rewrite HP in Hin, Hh. rewrite fmap_cons in Hin.
  apply elem_of_cons in Hin as [Hin|Hin]; [done|].
  apply list_elem_of_fmap in Hin as ([h' c] & Hh' & Hc). simpl in Hh'. subst h'.
  apply elem_of_Permutation in Hc as [Q1 HQ1].
  exists ((da, c) :: Q1). split; [|split].
  - rewrite HP, HQ1. rewrite !fmap_cons. simpl. apply Permutation_swap.
  - rewrite HQ1. by rewrite !fmap_cons.
  - rewrite (wcost_Permutation _ _ HP), HQ1, !wcost_cons.
    apply Forall_cons in Hh as [Hda' _]. simpl in Hda'.
    rewrite HQ1, fmap_cons in Ha. apply Forall_cons in Ha as [Hac _]. simpl in Hac.
    nia.
Qed.

(** The two smallest counts of a complete code can be merged into one
    character, which saves their sum. *)
Lemma exchange (P : list (nat * Z)) a b W :
  complete (fst <$> P) → (2 ≤ length P)%nat →
  snd <$> P ≡ₚ a :: b :: W → a ≤ b → Forall (λ w, b ≤ w) W →
  ∃ P', complete (fst <$> P') ∧ snd <$> P' ≡ₚ (a + b) :: W ∧
        wcost P' + a + b ≤ wcost P.
Proof.
  intros Hc Hlen Hperm Hab HW.
  destruct (deepest_pair (fst <$> P) Hc) as [Hpos Hpair];
    [by rewrite length_fmap|].
  set (h := max_list (fst <$> P)) in *.
  assert (Hh : Forall (λ e, (e.1 ≤ h)%nat) P).
  { apply Forall_forall. intros e He. apply max_list_elem_of_le.
    apply list_elem_of_fmap. by exists e. }
  destruct (place_deepest P h a (b :: W)) as (Q & HfP & HsQ & HcQ); [done| |done| |].
  { apply max_list_elem_of. destruct P; [simpl in Hlen; lia|done]. }
  { constructor; [done|]. eapply Forall_impl; [exact HW|]. simpl. lia. }
  assert (HhQ : Forall (λ e, (e.1 ≤ h)%nat) Q).
  { apply Forall_forall. intros e He.
    assert (e.1 ∈ fst <$> P) as Hin.
    { rewrite HfP. apply list_elem_of_further, list_elem_of_fmap. by exists e. }
    apply list_elem_of_fmap in Hin as (e' & -> & He').
    rewrite Forall_forall in Hh. by apply Hh. }
  destruct (place_deepest Q h b W) as (Q' & HfQ & HsQ' & HcQ'); [done| |done|done|].
  { rewrite HfP, filter_cons in Hpair. rewrite decide_True in Hpair by done.
    simpl in Hpair.
    destruct (filter (λ d, d = h) (fst <$> Q)) as [|d l] eqn:Hf; [simpl in Hpair; lia|].
    assert (d ∈ filter (λ d, d = h) (fst <$> Q)) as Hd
      by (rewrite Hf; apply list_elem_of_here).
    apply list_elem_of_filter in Hd as [-> Hd]. done. }
  assert (Hdepths : fst <$> P ≡ₚ h :: h :: (fst <$> Q')) by (by rewrite HfP, HfQ).
  assert (HhQ' : Forall (λ d, (d ≤ h)%nat) (fst <$> Q')).
  { apply Forall_forall. intros d Hd.
    apply max_list_elem_of_le. rewrite Hdepths. by do 2 apply list_elem_of_further. }
  exists (((h - 1)%nat, a + b) :: Q'). split; [|split].
  - intros H HH. rewrite fmap_cons in *. simpl in *.
    apply Forall_cons in HH as [HH1 HH2]. rewrite kraft_cons.
    destruct (decide (h ≤ H)%nat) as [HhH|HhH].
    + rewrite <- (Hc H).
      2: { rewrite Hdepths. by repeat constructor. }
      rewrite (kraft_Permutation _ _ _ Hdepths), !kraft_cons.
      replace (H - (h - 1))%nat with (S (H - h)) by lia.
      rewrite Nat2Z.inj_succ, Z.pow_succ_r by lia. lia.
    + assert (h = S H) as HhS by lia.
      pose proof (Hc h) as Hk. rewrite (kraft_Permutation _ _ _ Hdepths) in Hk.
      rewrite !kraft_cons, HhS in Hk. rewrite kraft_S in Hk by done.
      rewrite Nat.sub_diag, Nat2Z.inj_succ, Z.pow_succ_r in Hk by lia.
      replace (H - (h - 1))%nat with 0%nat by lia.
      specialize (Hk ltac:(rewrite Hdepths, HhS; repeat constructor;
                           eapply Forall_impl; [exact HH2|simpl; lia])).
      simpl in *. lia.
  - rewrite fmap_cons. simpl. by rewrite HsQ'.
  - rewrite wcost_cons. rewrite !wcost_cons in HcQ.
    assert (wcost Q' + Z.of_nat h * b ≤ wcost Q) by (rewrite wcost_cons in HcQ'; lia).
    replace (Z.of_nat (h - 1)) with (Z.of_nat h - 1) by lia. lia.
Qed.

(** ** The code of a tree is complete *)

Lemma code_tree_node n : code_tree n → n ≠ NULL.
Proof. by intros []. Qed.

Lemma htree_code_tree n : htree n → code_tree n.
Proof. induction 1; by constructor. Qed.

Lemma depths_lower n : ∀ d, Forall (λ e, (d ≤ e.1)%nat) (depths d n).
Proof.
  induction n as [|f c l IHl r IHr]; intros d; [constructor|].
  rewrite depths_unfold. case_bool_decide; [by repeat constructor|].
  apply Forall_app. split; (eapply Forall_impl; [apply IHl || apply IHr|]);
    simpl; lia.
Qed.

Lemma depths_nonempty n d : code_tree n → depths d n ≠ [].
Proof.
  intros Hn. revert d. induction Hn as [f c|f c l r Hl IHl Hr IHr]; intros d; [done|].
  rewrite depths_node by (by apply code_tree_node).
  intros [Hnil _]%app_eq_nil. by apply (IHl (S d)).
Qed.

Lemma code_tree_complete n :
  code_tree n → ∀ d H,
  Forall (λ d', (d' ≤ H)%nat) (fst <$> depths d n) →
  kraft H (fst <$> depths d n) = 2 ^ Z.of_nat (H - d).
Proof.
  induction 1 as [f c|f c l r Hl IHl Hr IHr]; intros d H HH.
  { simpl. unfold kraft. simpl. lia. }
  pose proof (code_tree_node _ Hl) as Hnl.
  rewrite depths_node in * by done. rewrite fmap_app in *.
  apply Forall_app in HH as [HHl HHr].
  rewrite kraft_app, IHl, IHr by done.
  assert (S d ≤ H)%nat as Hd.
  { pose proof (depths_nonempty l (S d) Hl) as Hne.
    pose proof (depths_lower l (S d)) as Hlow.
    destruct (depths (S d) l) as [|e ds]; [done|].
    apply Forall_cons in Hlow as [Hlow _].
    rewrite fmap_cons in HHl. apply Forall_cons in HHl as [HHl _]. lia. }
  replace (H - d)%nat with (S (H - S d)) by lia.
  rewrite Nat2Z.inj_succ, Z.pow_succ_r by lia. lia.
Qed.

Lemma depths_height n : ∀ d,
  Forall (λ e, Z.of_nat e.1 ≤ Z.of_nat d + treeHeight n) (depths d n).
Proof.
  induction n as [|f c l IHl r IHr]; intros d; [constructor|].
  rewrite depths_unfold, treeHeight_max. case_bool_decide as Hlr.
  - destruct Hlr as [-> ->]. repeat constructor. simpl. lia.
  - apply Forall_app. split; (eapply Forall_impl; [apply IHl || apply IHr|]);
      simpl; lia.
Qed.

(** The lengths of the encodings of a report are the depths of the
    leaves of the tree, in some order. *)
Lemma lines_depths root lines entries :
  htree root → NoDup (leaves root) → leaves root ≡ₚ entries →
  Forall2 (line_of root) lines entries →
  ∃ ds, ds ≡ₚ depths 0 root ∧ l_strlen <$> lines = (λ e, Z.of_nat e.1) <$> ds.
Proof.
  intros Hh Hnd Hperm Hlines.
  pose proof (depths_leaves root 0) as Hd. rewrite <- Hd in Hperm.
  symmetry in Hperm. apply Permutation_map_inv in Hperm as (ds & -> & Hds).
  exists ds. split; [done|].
  assert (Hin : ∀ e, e ∈ ds → e ∈ depths 0 root).
  { intros e He. by rewrite Hds. }
  clear Hds Hd. induction ds as [|[k [c f]] ds IH] in lines, Hlines, Hin |- *.
  { by apply Forall2_nil_inv_r in Hlines as ->. }
  apply Forall2_cons_inv_r in Hlines as (ln & lines' & Hln & Hlines & ->).
  rewrite !fmap_cons. f_equal.
  - destruct Hln as (p & Hp & ->). simpl in *.
    destruct (depths_path root Hh 0 k c f) as (p' & Hp' & ->).
    { apply Hin, list_elem_of_here. }
    by rewrite (path_to_unique root Hh Hnd p p' f c Hp Hp').
  - apply IH; [done|]. intros e He. by apply Hin, list_elem_of_further.
Qed.

(** X16 (printHuffman, populateTree).  The code that the report shows
    for a valid table is complete: the lengths of the encodings, which
    are at most the height of the tree, satisfy Kraft's inequality with
    equality, so that no shorter encoding could be given to one
    character without a longer one for another. *)
Theorem code_complete tab w0 index w :
  valid_table tab → sorted_index tab w0 index w →
  ∃ root index' w' lines nbytes,
    populateTree index w = (Ret (root, index'), w') ∧
    printHuffman tab root = Ret (lines, nbytes) ∧
    Forall (λ l, 0 ≤ l_strlen l ≤ treeHeight root) lines ∧
    sumZ ((λ l, 2 ^ (treeHeight root - l_strlen l)) <$> lines)
    = 2 ^ treeHeight root.
Proof.
  intros Hvalid Hindex.
  destruct (built_tree _ _ _ _ Hvalid Hindex)
    as (root & index' & w' & Hpop & Hh & Hl & _).
  destruct (printHuffman_report root tab (vt_size _ Hvalid) Hh Hl)
    as (lines & nbytes & Hprint & Hlines).
  exists root, index', w', lines, nbytes. split; [done|]. split; [done|].
  assert (Hnd : NoDup (leaves root)) by (rewrite Hl; apply entries_from_NoDup).
  destruct (lines_depths root lines _ Hh Hnd Hl Hlines) as (ds & Hds & Hlen).
  pose proof (depths_height root 0) as Hheight. rewrite <- Hds in Hheight.
  pose proof (treeHeight_lower root).
  assert (Hroot : 0 ≤ treeHeight root).
  { destruct Hh; apply treeHeight_node. }
  split.
  - apply Forall_forall. intros l Hin.
    assert (l_strlen l ∈ l_strlen <$> lines) as Hk
      by (apply list_elem_of_fmap; by exists l).
    rewrite Hlen in Hk. apply list_elem_of_fmap in Hk as (e & -> & He).
    rewrite Forall_forall in Hheight. pose proof (Hheight e He). simpl in *. lia.
  - transitivity (sumZ ((λ k, 2 ^ (treeHeight root - k)) <$> (l_strlen <$> lines))).
    { by rewrite <- list_fmap_compose. }
    rewrite Hlen, <- list_fmap_compose.
    pose proof (code_tree_complete root (htree_code_tree _ Hh) 0
                  (Z.to_nat (treeHeight root))) as Hk.
    rewrite <- Hds in Hk.
    rewrite Nat.sub_0_r, Z2Nat.id in Hk by done. rewrite <- Hk.
    2: { apply Forall_fmap. eapply Forall_impl; [exact Hheight|]. simpl. lia. }
    unfold kraft. rewrite <- list_fmap_compose. f_equal.
    apply Forall_fmap_ext. eapply Forall_impl; [exact Hheight|].
    intros e He. simpl in *. f_equal. lia.
Qed.

Lemma code_complete_witness :
  ∃ root index' w' lines nbytes,
    populateTree example_index (mkWorld 6) = (Ret (root, index'), w') ∧
    printHuffman example_table root = Ret (lines, nbytes) ∧
    Forall (λ l, 0 ≤ l_strlen l ≤ treeHeight root) lines ∧
    sumZ ((λ l, 2 ^ (treeHeight root - l_strlen l)) <$> lines)
    = 2 ^ treeHeight root.
Proof.
  exact (code_complete example_table (mkWorld 0) example_index (mkWorld 6)
           example_table_valid example_index_sorted).
Defined.

(** ** The code of the tree is optimal *)

Lemma depths_shift n : ∀ d,
  depths (S d) n = (λ e, (S e.1, e.2)) <$> depths d n.
Proof.
  induction n as [|f c l IHl r IHr]; intros d; [done|].
  rewrite !depths_unfold. case_bool_decide; [done|].
  by rewrite fmap_app, IHl, IHr.
Qed.

Lemma bits_of_app l1 l2 : bits_of (l1 ++ l2) = bits_of l1 + bits_of l2.
Proof. unfold bits_of. by rewrite fmap_app, sumZ_app. Qed.

Lemma bits_of_shift (ds : list (nat * (Z * Z))) :
  bits_of ((λ e, (S e.1, e.2)) <$> ds) = bits_of ds + sumZ (snd <$> (snd <$> ds)).
Proof.
  unfold bits_of. induction ds as [|[d [c f]] ds IH]; [done|].
  rewrite !fmap_cons, !sumZ_cons, IH. simpl. lia.
Qed.

Lemma cost_parent x y :
  htree x → htree y →
  cost (parent_of x y) = cost x + cost y + nfreq x + nfreq y.
Proof.
  intros Hx Hy. unfold cost, parent_of.
  rewrite depths_node by (by apply htree_node).
  rewrite bits_of_app, !depths_shift, !bits_of_shift, !depths_leaves.
  rewrite <- !htree_freq by done. lia.
Qed.

Lemma wcost_nonneg (P : list (nat * Z)) :
  Forall (λ w, 0 ≤ w) (snd <$> P) → 0 ≤ wcost P.
Proof.
  induction P as [|[d w] P IH]; [done|].
  rewrite fmap_cons, wcost_cons. intros [Hw HP]%Forall_cons. simpl in Hw.
  specialize (IH HP). nia.
Qed.

(** The merges of [populateTree] lead to a tree of the least cost: a
    code for the trees of a frontier, taken as characters that have
    their frequencies as counts, costs at least what the merges add. *)
Lemma greedy_optimal (k : nat) : ∀ F root,
  nsteps merge k F [root] → frontier F → Forall htree F →
  ∀ P : list (nat * Z),
    complete (fst <$> P) → snd <$> P ≡ₚ nfreq <$> F →
    cost root ≤ sumZ (cost <$> F) + wcost P.
Proof.
  induction k as [|k IH]; intros F root Hsteps Hf Hh P Hc Hw.
  - inversion Hsteps; subst. simpl.
    assert (0 ≤ wcost P); [|lia].
    apply wcost_nonneg. rewrite Hw. repeat constructor.
    pose proof (fr_pos _ Hf) as Hpos. apply Forall_cons in Hpos as [Hpos _]. lia.
  - inversion Hsteps as [|k' F0 F' root0 Hmerge Hrest]; subst.
    pose proof (merge_frontier _ _ Hf Hmerge) as Hf'.
    pose proof (merge_htree _ _ Hh Hmerge) as Hh'.
    destruct Hmerge as [x y l1 l2 H1 H2].
    pose proof (fr_sorted _ Hf) as Hsorted.
    apply StronglySorted_inv in Hsorted as [Hsorted Hx].
    apply StronglySorted_inv in Hsorted as [_ Hy].
    apply Forall_cons in Hx as [Hxy _]. unfold freq_le in Hxy.
    apply Forall_cons in Hh as [Hhx Hh]. apply Forall_cons in Hh as [Hhy Hh].
    rewrite !fmap_cons in Hw.
    destruct (exchange P (nfreq x) (nfreq y) (nfreq <$> (l1 ++ l2)))
      as (P' & Hc' & Hw' & Hcost); [done| |done|done| |].
    { apply Permutation_length in Hw. rewrite length_fmap in Hw.
      simpl in Hw. lia. }
    { by apply Forall_fmap. }
    specialize (IH _ _ Hrest Hf' Hh' P' Hc').
    rewrite fmap_app, fmap_cons in IH.
    rewrite <- Permutation_middle in IH. simpl nfreq in IH.
    rewrite fmap_app in Hw'. specialize (IH Hw').
    rewrite !fmap_app, !fmap_cons, !sumZ_app, !sumZ_cons in IH.
    rewrite cost_parent in IH by done.
    rewrite !fmap_cons, !sumZ_cons, !fmap_app, !sumZ_app. lia.
Qed.

Lemma leaves_from_cost i l : sumZ (cost <$> leaves_from i l) = 0.
Proof.
  revert i. induction l as [|x l IH]; intros i; [done|].
  cbn [leaves_from]. case_bool_decide; [|done].
  rewrite fmap_cons, sumZ_cons, IH. unfold cost, bits_of. simpl. lia.
Qed.

Lemma leaves_from_freq i l : nfreq <$> leaves_from i l = snd <$> entries_from i l.
Proof.
  revert i. induction l as [|x l IH]; intros i; [done|].
  cbn [leaves_from entries_from]. case_bool_decide; [|done].
  by rewrite !fmap_cons, IH.
Qed.

Lemma cost_wcost n : cost n = wcost ((λ e, (e.1, e.2.2)) <$> depths 0 n).
Proof.
  unfold cost, bits_of, wcost. by rewrite <- list_fmap_compose.
Qed.

(** A tree of a code, as depths and counts. *)
Lemma code_tree_depths t entries :
  code_tree t → leaves t ≡ₚ entries →
  complete (fst <$> ((λ e, (e.1, e.2.2)) <$> depths 0 t)) ∧
  snd <$> ((λ e, (e.1, e.2.2)) <$> depths 0 t) ≡ₚ snd <$> entries ∧
  wcost ((λ e, (e.1, e.2.2)) <$> depths 0 t) = cost t.
Proof.
  intros Hcode Hentries. split; [|split].
  - rewrite <- list_fmap_compose. intros H HH.
    change (fst ∘ (λ e : nat * (Z * Z), (e.1, e.2.2))) with (@fst nat (Z * Z)) in *.
    rewrite code_tree_complete by done. by rewrite Nat.sub_0_r.
  - rewrite <- list_fmap_compose.
    change (snd ∘ (λ e : nat * (Z * Z), (e.1, e.2.2)))
      with (@snd Z Z ∘ @snd nat (Z * Z)).
    by rewrite list_fmap_compose, depths_leaves, Hentries.
  - by rewrite cost_wcost.
Qed.

(** The tree of a valid table costs no more than any complete code for
    the counts of the table, and so no more than any tree of a code for
    its characters. *)
Lemma populateTree_optimal tab w0 index w :
  valid_table tab → sorted_index tab w0 index w →
  ∃ root index' w',
    populateTree index w = (Ret (root, index'), w') ∧
    htree root ∧ leaves root ≡ₚ table_entries tab ∧
    (∀ P : list (nat * Z),
       complete (fst <$> P) → snd <$> P ≡ₚ snd <$> table_entries tab →
       cost root ≤ wcost P) ∧
    ∀ t, code_tree t → leaves t ≡ₚ table_entries tab → cost root ≤ cost t.
Proof.
  intros Hvalid Hindex.
  destruct (sorted_index_table _ _ _ _ Hvalid Hindex) as (Hlen & Hperm & Hsorted & _).
  destruct (table_frontier _ _ Hvalid Hperm Hsorted) as (Hf & Hl & Ht).
  pose proof (symbolCount_le tab) as Hle. pose proof (vt_size _ Hvalid) as Hsize.
  pose proof (vt_symbols _ Hvalid) as Hsym.
  destruct index as [l n]. simpl in *. subst n. rewrite <- Hl in *.
  destruct (populateTree_frontier l w) as (root & Hm & Hpop);
    [done|lia|unfold ASIZE in *; lia|].
  assert (Hh : Forall htree l).
  { apply (htree_Permutation _ _ Hperm).
    apply leaves_from_htree; [lia|lia|apply Hvalid]. }
  assert (Hroot : htree root).
  { apply (merges_htree _ _ _ Hh) in Hm. by apply Forall_cons in Hm as [? _]. }
  assert (Hleaves : leaves root ≡ₚ table_entries tab).
  { apply (merges_leaves _ _ _ Hh) in Hm.
    rewrite leaves_of_cons in Hm. simpl in Hm. rewrite app_nil_r in Hm.
    rewrite Hm, (leaves_of_Permutation _ _ Hperm).
    unfold table_leaves, table_entries. by rewrite leaves_of_leaves_from. }
  eexists root, _, _. split; [exact Hpop|]. split; [done|]. split; [done|].
  assert (Hopt : ∀ P : list (nat * Z),
            complete (fst <$> P) → snd <$> P ≡ₚ snd <$> table_entries tab →
            cost root ≤ wcost P).
  { intros P Hc Hw.
    pose proof (greedy_optimal _ _ _ Hm Hf Hh P Hc) as Hopt.
    rewrite (sumZ_Permutation _ _ (fmap_Permutation cost _ _ Hperm)) in Hopt.
    unfold table_leaves in Hopt. rewrite leaves_from_cost in Hopt.
    rewrite Z.add_0_l in Hopt. apply Hopt.
    rewrite Hw, Hperm. unfold table_entries, table_leaves.
    by rewrite leaves_from_freq. }
  split; [done|]. intros t Hcode Hentries.
  destruct (code_tree_depths t _ Hcode Hentries) as (Hc & Hw & <-).
  by apply Hopt.
Qed.

(** X17 (populateTree, printHuffman).  The code that [main] builds for
    a valid table is optimal: the bits that the report counts for the
    text, the sum over the characters of the length of the encoding
    times the count, are at most those of any tree in which every node
    has two children or none and whose leaves are the characters of the
    table with their counts. *)
Theorem code_optimal tab w0 index w :
  valid_table tab → sorted_index tab w0 index w →
  ∃ root index' w' lines nbytes,
    populateTree index w = (Ret (root, index'), w') ∧
    printHuffman tab root = Ret (lines, nbytes) ∧
    line_bits lines = cost root ∧
    ∀ t, code_tree t → leaves t ≡ₚ table_entries tab → cost root ≤ cost t.
Proof.
  intros Hvalid Hindex.
  destruct (populateTree_optimal _ _ _ _ Hvalid Hindex)
    as (root & index' & w' & Hpop & Hh & Hl & _ & Hopt).
  destruct (printHuffman_cost root tab Hvalid Hh Hl)
    as (lines & nbytes & Hprint & _ & Hbits & _).
  by exists root, index', w', lines, nbytes.
Qed.

Lemma code_optimal_witness :
  ∃ root index' w' lines nbytes,
    populateTree example_index (mkWorld 6) = (Ret (root, index'), w') ∧
    printHuffman example_table root = Ret (lines, nbytes) ∧
    line_bits lines = cost root ∧
    ∀ t, code_tree t → leaves t ≡ₚ table_entries example_table →
         cost root ≤ cost t.
Proof.
  exact (code_optimal example_table (mkWorld 0) example_index (mkWorld 6)
           example_table_valid example_index_sorted).
Defined.

(** X18 (main, populateTree, printHuffman).  [qsort] is free in the
    order in which it leaves characters of the same count, and the tree
    depends on that order; the number of bits of the text, and so the
    number of bytes that the report ends with, do not: two runs on the
    same valid table, after any two sorted arrangements of its leaves,
    print the same number. *)
Theorem bytes_independent_of_order tab w0 index1 w1 index2 w2 :
  valid_table tab →
  sorted_index tab w0 index1 w1 → sorted_index tab w0 index2 w2 →
  ∃ root1 index1' w1' lines1 root2 index2' w2' lines2 nbytes,
    populateTree index1 w1 = (Ret (root1, index1'), w1') ∧
    populateTree index2 w2 = (Ret (root2, index2'), w2') ∧
    printHuffman tab root1 = Ret (lines1, nbytes) ∧
    printHuffman tab root2 = Ret (lines2, nbytes) ∧
    cost root1 = cost root2 ∧
    line_bits lines1 = line_bits lines2.
Proof.
  intros Hvalid Hindex1 Hindex2.
  destruct (populateTree_optimal _ _ _ _ Hvalid Hindex1)
    as (root1 & index1' & w1' & Hpop1 & Hh1 & Hl1 & _ & Hopt1).
  destruct (populateTree_optimal _ _ _ _ Hvalid Hindex2)
    as (root2 & index2' & w2' & Hpop2 & Hh2 & Hl2 & _ & Hopt2).
  destruct (printHuffman_cost root1 tab Hvalid Hh1 Hl1)
    as (lines1 & nbytes1 & Hprint1 & _ & Hbits1 & _ & Hbytes1).
  destruct (printHuffman_cost root2 tab Hvalid Hh2 Hl2)
    as (lines2 & nbytes2 & Hprint2 & _ & Hbits2 & _ & Hbytes2).
  pose proof (Hopt1 root2 (htree_code_tree _ Hh2) Hl2).
  pose proof (Hopt2 root1 (htree_code_tree _ Hh1) Hl1).
  assert (Hcost : cost root1 = cost root2) by lia.
  assert (nbytes2 = nbytes1) as -> by lia.
  exists root1, index1', w1', lines1, root2, index2', w2', lines2, nbytes1.
  repeat split; try done. lia.
Qed.

Lemma bytes_independent_of_order_witness :
  ∃ root1 index1' w1' lines1 root2 index2' w2' lines2 nbytes,
    populateTree tie_index (mkWorld 5) = (Ret (root1, index1'), w1') ∧
    populateTree tie_index_swapped (mkWorld 5) = (Ret (root2, index2'), w2') ∧
    printHuffman tie_table root1 = Ret (lines1, nbytes) ∧
    printHuffman tie_table root2 = Ret (lines2, nbytes) ∧
    cost root1 = cost root2 ∧
    line_bits lines1 = line_bits lines2.
Proof.
  apply (bytes_independent_of_order tie_table (mkWorld 0)).
  - apply (bool_decide_unpack _). vm_compute. exact I.
  - exists (a tie_index). split; [reflexivity|]. split; [reflexivity|].
    split; [reflexivity|]. apply (bool_decide_unpack _). vm_compute. exact I.
  - exists (a tie_index). split; [reflexivity|]. split; [reflexivity|].
    split; [|apply (bool_decide_unpack _); vm_compute; exact I].
    simpl. do 2 constructor.
    exact (reverse_Permutation [mkNode 5 99 NULL NULL; mkNode 5 100 NULL NULL;
                                mkNode 5 101 NULL NULL]).
Defined.

(** ** A table that does not belong to the tree *)

Lemma no_exit_bind {A B} (m : outcome A) (f : A → outcome B) :
  no_exit m → (∀ x, no_exit (f x)) → no_exit (m ≫= f).
Proof. destruct m; simpl; auto. Qed.

Lemma no_exit_aget {A} (l : list A) i : no_exit (aget l i).
Proof. unfold aget. case_bool_decide; [|done]. by destruct (l !! _). Qed.

Lemma no_exit_aset {A} (l : list A) i x : no_exit (aset l i x).
Proof. unfold aset. by case_bool_decide. Qed.

Lemma no_exit_strlen s : no_exit (strlen s).
Proof.
  induction s as [|ch s IH]; [done|]. cbn [strlen]. case_bool_decide; [done|].
  by apply no_exit_bind.
Qed.

Lemma no_exit_for_loop {S} (body : Z → S → outcome S) n : ∀ i s,
  (∀ i s, no_exit (body i s)) → no_exit (for_loop n i body s).
Proof.
  induction n as [|n IH]; intros i s Hbody; [done|].
  cbn [for_loop]. apply no_exit_bind; auto.
Qed.

Lemma no_exit_reverseString s : no_exit (reverseString s).
Proof.
  unfold reverseString. apply no_exit_bind; [apply no_exit_strlen|]. intros n.
  apply no_exit_bind; [|by intros [[? ?] ?]].
  apply no_exit_for_loop. intros k [[s' a'] b']. unfold swapChars.
  repeat (apply no_exit_bind; [apply no_exit_aget || apply no_exit_aset|intros ?]).
  done.
Qed.

Lemma no_exit_put_char ch s : no_exit (put_char ch s).
Proof. unfold put_char. apply no_exit_bind; [apply no_exit_aset|done]. Qed.

Lemma no_exit_findEncoding n target : ∀ s, no_exit (findEncoding n target s).
Proof.
  induction n as [|f c l IHl r IHr]; intros s; [done|].
  rewrite findEncoding_node. case_bool_decide; [done|].
  apply no_exit_bind; [apply IHl|]. intros [ln s1].
  case_bool_decide.
  { apply no_exit_bind; [apply no_exit_put_char|done]. }
  apply no_exit_bind; [apply IHr|]. intros [rn s2].
  case_bool_decide; [|done].
  apply no_exit_bind; [apply no_exit_put_char|done].
Qed.

Lemma no_exit_printSymbol tab root i r : no_exit (printSymbol tab root i r).
Proof.
  unfold printSymbol. apply no_exit_bind; [apply no_exit_aget|]. intros x.
  case_bool_decide; [|done].
  apply no_exit_bind; [apply no_exit_findEncoding|]. intros [n e].
  apply no_exit_bind; [apply no_exit_reverseString|]. intros s.
  apply no_exit_bind; [by destruct n|]. intros c.
  apply no_exit_bind; [by destruct n|]. intros f.
  apply no_exit_bind; [apply no_exit_strlen|]. intros k.
  apply no_exit_bind; [|done]. unfold memset0. by case_bool_decide.
Qed.

(** A character of the table that no node carries: its line is asked of
    no node. *)
Lemma printSymbol_missing tab root i x r :
  0 ≤ i → tab !! Z.to_nat i = Some x → x ≠ 0 →
  (∀ m, m ∈ nodes root → c_of m ≠ Ret i) →
  printSymbol tab root i r = Undef.
Proof.
  intros Hi Hx Hx0 Hnone. apply find_path_None in Hnone.
  pose proof (findEncoding_find_path root i (r_enc r)) as Hfind.
  rewrite Hnone in Hfind. destruct Hfind as (tr & Hrun & _).
  unfold printSymbol. rewrite (aget_Some _ _ x) by done.
  cbn [mbind outcome_bind obind]. rewrite bool_decide_eq_true_2 by done.
  rewrite Hrun. cbn [mbind outcome_bind obind].
  pose proof (no_exit_reverseString (str (buf (r_enc r)))) as Hrev. simpl.
  by destruct (reverseString _).
Qed.

Lemma for_loop_reaches_Undef {S} (body : Z → S → outcome S) (j : Z) n : ∀ i s,
  (∀ k s, no_exit (body k s)) → (∀ s, body j s = Undef) →
  i ≤ j < i + Z.of_nat n →
  for_loop n i body s = Undef.
Proof.
  induction n as [|n IH]; intros i s Hbody Hj Hi; [lia|].
  cbn [for_loop]. destruct (decide (i = j)) as [->|Hij].
  { by rewrite Hj. }
  pose proof (Hbody i s) as Hs.
  destruct (body i s) as [s'| | |]; [|done..].
  cbn [mbind outcome_bind obind]. apply IH; [done|done|lia].
Qed.

(** X19 (printHuffman).  [printHuffman] takes it that the tree holds
    every character that the table counts.  When the table has a count
    for a character that no node of the tree carries, [findEncoding]
    returns [NULL] and the report asks this null pointer for its
    character: nothing of the report is defined. *)
Theorem printHuffman_missing tab root i x :
  0 ≤ i < ASIZE → tab !! Z.to_nat i = Some x → x ≠ 0 →
  (∀ m, m ∈ nodes root → c_of m ≠ Ret i) →
  printHuffman tab root = Undef.
Proof.
  intros Hi Hx Hx0 Hnone. unfold printHuffman.
  rewrite (for_loop_reaches_Undef _ i); [done| | |unfold ASIZE in *; lia].
  - intros k s. apply no_exit_printSymbol.
  - intros s. apply (printSymbol_missing tab root i x); [lia|done..].
Qed.

Lemma printHuffman_missing_witness :
  printHuffman example_table
    (parent_of (mkNode 5 65 NULL NULL) (mkNode 9 66 NULL NULL)) = Undef.
Proof.
  apply (printHuffman_missing example_table _ 67 12).
  - unfold ASIZE. lia.
  - reflexivity.
  - discriminate.
  - intros m Hm. unfold parent_of in Hm. cbn [nodes app] in Hm.
    repeat (apply elem_of_cons in Hm as [->|Hm]; [discriminate|]).
    by apply elem_of_nil in Hm.
Defined.

(** ** Frequent characters have short encodings *)

Lemma path_depths n : htree n → ∀ d p c f,
  path_to n p (mkNode f c NULL NULL) →
  ((d + length p)%nat, (c, f)) ∈ depths d n.
Proof.
  induction 1 as [f c Hc Hf|l r Hl IHl Hr IHr]; intros d p c' f' Hp.
  - inversion Hp as [n Hn|? ? ? ? p' ? Hp'|? ? ? ? p' ? Hp']; subst.
    + simpl. rewrite Nat.add_0_r. apply list_elem_of_here.
    + by apply path_from_NULL in Hp'.
    + by apply path_from_NULL in Hp'.
  - unfold parent_of in *. rewrite depths_node by (by apply htree_node).
    inversion Hp as [n Hn|? ? ? ? p' ? Hp'|? ? ? ? p' ? Hp']; subst.
    + by apply htree_node in Hl.
    + apply elem_of_app. left.
      replace (d + length (false :: p'))%nat with (S d + length p')%nat
        by (simpl; lia).
      by apply IHl.
    + apply elem_of_app. right.
      replace (d + length (true :: p'))%nat with (S d + length p')%nat
        by (simpl; lia).
      by apply IHr.
Qed.

Lemma complete_Permutation l1 l2 : l1 ≡ₚ l2 → complete l1 → complete l2.
Proof.
  intros Hp Hc H HH. rewrite <- Hp in HH. rewrite <- Hp. by apply Hc.
Qed.

(** X20 (populateTree, printHuffman).  In the report for a valid table
    a character that occurs more often than another never has the
    longer encoding of the two. *)
Theorem frequent_characters_shorter tab w0 index w :
  valid_table tab → sorted_index tab w0 index w →
  ∃ root index' w' lines nbytes,
    populateTree index w = (Ret (root, index'), w') ∧
    printHuffman tab root = Ret (lines, nbytes) ∧
    ∀ l1 l2, l1 ∈ lines → l2 ∈ lines →
      l_freq l1 < l_freq l2 → l_strlen l2 ≤ l_strlen l1.
Proof.
  intros Hvalid Hindex.
  destruct (populateTree_optimal _ _ _ _ Hvalid Hindex)
    as (root & index' & w' & Hpop & Hh & Hl & Hopt & _).
  destruct (printHuffman_report root tab (vt_size _ Hvalid) Hh Hl)
    as (lines & nbytes & Hprint & Hlines).
  exists root, index', w', lines, nbytes. split; [done|]. split; [done|].
  intros l1 l2 Hl1 Hl2 Hfreq.
  assert (Hentry : ∀ l, l ∈ lines →
            (Z.to_nat (l_strlen l), (l_c l, l_freq l)) ∈ depths 0 root
            ∧ 0 ≤ l_strlen l).
  { intros l Hin. apply list_elem_of_lookup in Hin as [k Hk].
    destruct (Forall2_lookup_l _ _ _ _ _ Hlines Hk) as ([c f] & _ & p & Hp & ->).
    simpl in *. rewrite Nat2Z.id. split; [|lia].
    by apply (path_depths root Hh 0 p c f). }
  destruct (Hentry l1 Hl1) as [He1 Hpos1]. destruct (Hentry l2 Hl2) as [He2 Hpos2].
  apply elem_of_Permutation in He1 as [k Hk].
  rewrite Hk in He2. apply elem_of_cons in He2 as [He2|He2].
  { injection He2 as _ _ Habs. lia. }
  apply elem_of_Permutation in He2 as [R HR]. rewrite HR in Hk.
  set (dw := λ e : nat * (Z * Z), (e.1, e.2.2)).
  pose proof (code_tree_depths root _ (htree_code_tree _ Hh) Hl) as (Hc & Hw & Hcost).
  fold dw in Hc, Hw, Hcost.
  assert (Hroot : cost root
                  = Z.of_nat (Z.to_nat (l_strlen l1)) * l_freq l1
                    + (Z.of_nat (Z.to_nat (l_strlen l2)) * l_freq l2
                       + wcost (dw <$> R))).
  { by rewrite <- Hcost, Hk, !fmap_cons. }
  assert (Hswap : cost root
                  ≤ wcost ((Z.to_nat (l_strlen l1), l_freq l2)
                           :: (Z.to_nat (l_strlen l2), l_freq l1) :: (dw <$> R))).
  { apply Hopt.
    - eapply complete_Permutation; [|exact Hc]. by rewrite Hk, !fmap_cons.
    - rewrite <- Hw, Hk, !fmap_cons. simpl. apply Permutation_swap. }
  rewrite !wcost_cons, Hroot, !Z2Nat.id in Hswap by done. nia.
Qed.

Lemma frequent_characters_shorter_witness :
  ∃ root index' w' lines nbytes,
    populateTree example_index (mkWorld 6) = (Ret (root, index'), w') ∧
    printHuffman example_table root = Ret (lines, nbytes) ∧
    ∀ l1 l2, l1 ∈ lines → l2 ∈ lines →
      l_freq l1 < l_freq l2 → l_strlen l2 ≤ l_strlen l1.
Proof.
  exact (frequent_characters_shorter example_table (mkWorld 0) example_index
           (mkWorld 6) example_table_valid example_index_sorted).
Defined.

(** ** The encoded text is no longer than the text *)

Lemma kraft_replicate H n d :
  kraft H (replicate n d) = Z.of_nat n * 2 ^ Z.of_nat (H - d).
Proof.
  induction n as [|n IH]; [done|].
  cbn [replicate]. rewrite kraft_cons, IH. lia.
Qed.

(** A code of fixed length, or of two lengths next to each other, for
    [k] characters: it is complete. *)
Lemma balanced_complete (m : nat) (k : Z) :
  2 ^ Z.of_nat m ≤ k ≤ 2 * 2 ^ Z.of_nat m →
  complete (replicate (Z.to_nat (2 * 2 ^ Z.of_nat m - k)) m
            ++ replicate (Z.to_nat (2 * k - 2 * 2 ^ Z.of_nat m)) (S m)).
Proof.
  intros Hk H HH. apply Forall_app in HH as [H1 H2].
  rewrite kraft_app, !kraft_replicate.
  assert (0 < 2 ^ Z.of_nat m) as Hpow by (apply Z.pow_pos_nonneg; lia).
  destruct (decide (S m ≤ H)%nat) as [Hm|Hm].
  - replace (H - m)%nat with (S (H - S m)) by lia.
    replace H with (S m + (H - S m))%nat at 3 by lia.
    rewrite Nat2Z.inj_add, Z.pow_add_r, !Nat2Z.inj_succ, !Z.pow_succ_r by lia.
    rewrite !Z2Nat.id by lia. lia.
  - destruct (Z.to_nat (2 * k - 2 * 2 ^ Z.of_nat m)) as [|n2] eqn:Hn2.
    2: { apply Forall_cons in H2 as [H2 _]. lia. }
    destruct (Z.to_nat (2 * 2 ^ Z.of_nat m - k)) as [|n1] eqn:Hn1; [lia|].
    apply Forall_cons in H1 as [H1 _]. assert (H = m) as -> by lia.
    rewrite Nat.sub_diag. simpl. lia.
Qed.

Lemma wcost_zip_le (m : nat) (D : list nat) : ∀ W : list Z,
  Forall (λ d, (d ≤ m)%nat) D → Forall (λ w, 0 ≤ w) W →
  wcost (zip D W) ≤ Z.of_nat m * sumZ W.
Proof.
  induction D as [|d D IH]; intros W HD HW.
  { simpl. unfold wcost. simpl.
    assert (0 ≤ sumZ W); [|nia].
    clear -HW. induction HW as [|w W ? _ IH]; [done|]. rewrite sumZ_cons. lia. }
  destruct W as [|w W]; [unfold wcost; simpl; lia|].
  apply Forall_cons in HD as [Hd HD]. apply Forall_cons in HW as [Hw HW].
  cbn [zip zip_with]. rewrite wcost_cons, sumZ_cons.
  specialize (IH W HD HW). nia.
Qed.

(** X21 (populateTree, printHuffman).  For every valid table the code
    of the tree takes at most as many bits as a code of fixed length
    for the characters of the table, the logarithm of their number,
    rounded up, for each character of the text, and so at most 7 bits a
    character; the number of bytes that the report ends with is at most
    the number of characters of the text. *)
Theorem encoded_text_no_longer tab w0 index w :
  valid_table tab → sorted_index tab w0 index w →
  ∃ root index' w' lines nbytes,
    populateTree index w = (Ret (root, index'), w') ∧
    printHuffman tab root = Ret (lines, nbytes) ∧
    line_bits lines ≤ Z.log2_up (symbolCount tab) * sumZ tab ∧
    line_bits lines ≤ 7 * sumZ tab ∧
    nbytes ≤ sumZ tab.
Proof.
  intros Hvalid Hindex.
  destruct (populateTree_optimal _ _ _ _ Hvalid Hindex)
    as (root & index' & w' & Hpop & Hh & Hl & Hopt & _).
  destruct (printHuffman_cost root tab Hvalid Hh Hl)
    as (lines & nbytes & Hprint & _ & Hbits & [Hlow _] & Hbytes).
  exists root, index', w', lines, nbytes. split; [done|]. split; [done|].
  pose proof (vt_symbols _ Hvalid) as Hsym. pose proof (vt_size _ Hvalid) as Hsize.
  pose proof (symbolCount_le tab) as Hle.
  set (k := symbolCount tab) in *.
  pose proof (Z.log2_up_spec k ltac:(lia)) as Hlog.
  assert (1 ≤ Z.log2_up k) as Hpos.
  { pose proof (Z.log2_up_nonneg k).
    destruct (decide (Z.log2_up k = 0)) as [H0|]; [|lia].
    apply Z.log2_up_null in H0. lia. }
  set (m := Z.to_nat (Z.log2_up k - 1)).
  assert (Hm : Z.log2_up k = Z.of_nat (S m)) by (unfold m; lia).
  rewrite Hm in Hlog. replace (Z.pred (Z.of_nat (S m))) with (Z.of_nat m) in Hlog by lia.
  rewrite Nat2Z.inj_succ, Z.pow_succ_r in Hlog by lia.
  set (D := replicate (Z.to_nat (2 * 2 ^ Z.of_nat m - k)) m
            ++ replicate (Z.to_nat (2 * k - 2 * 2 ^ Z.of_nat m)) (S m)).
  assert (HlenD : Z.of_nat (length D) = k).
  { unfold D. rewrite length_app, !length_replicate. lia. }
  pose proof (entries_from_length 0 tab) as He. fold (table_entries tab) in He.
  fold k in He.
  assert (Hcost : cost root ≤ Z.of_nat (S m) * sumZ tab).
  { etrans; [apply (Hopt (zip D (snd <$> table_entries tab)))|].
    - rewrite fst_zip by (rewrite length_fmap; lia).
      apply balanced_complete. lia.
    - by rewrite snd_zip by (rewrite length_fmap; lia).
    - etrans; [apply (wcost_zip_le (S m))|].
      + unfold D. apply Forall_app. split; apply Forall_replicate; lia.
      + apply Forall_fmap, Forall_forall. intros [c f] Hin.
        apply table_entry_inv in Hin. simpl in *.
        pose proof (vt_counts _ Hvalid) as Hc. rewrite Forall_lookup in Hc.
        by apply (Hc (Z.to_nat c)).
      + unfold table_entries. by rewrite entries_from_sum. }
  rewrite Hbits, Hm.
  assert (Z.of_nat (S m) ≤ 7) as Hseven.
  { rewrite <- Hm. apply Z.log2_up_le_pow2; unfold ASIZE in *; lia. }
  assert (0 ≤ sumZ tab).
  { pose proof (vt_counts _ Hvalid) as Hc. clear -Hc.
    induction Hc as [|x l ? _ IH]; [done|]. rewrite sumZ_cons. lia. }
  split; [done|]. split; [nia|]. nia.
Qed.

Lemma encoded_text_no_longer_witness :
  ∃ root index' w' lines nbytes,
    populateTree example_index (mkWorld 6) = (Ret (root, index'), w') ∧
    printHuffman example_table root = Ret (lines, nbytes) ∧
    line_bits lines ≤ 3 * 100 ∧ nbytes ≤ 100.
Proof.
  destruct (encoded_text_no_longer example_table (mkWorld 0) example_index
              (mkWorld 6) example_table_valid example_index_sorted)
    as (root & index' & w' & lines & nbytes & Hpop & Hprint & Hlog & _ & Hbytes).
  exists root, index', w', lines, nbytes.
  split; [exact Hpop|]. split; [exact Hprint|]. split; [exact Hlog|exact Hbytes].
Defined.
